(** * AC-cal: the client-side input parsing, request building and result
      rendering of the control-system calculator, and the analysis
      contracts of its engine.

    The development follows the layout of the repository:
    - [JS]: the part of the JavaScript run time the client code relies on
      (strings of UTF-16 code units, numbers, [parseFloat], [trim],
      [split], a backtracking matcher for the regular expression the
      parser uses);
    - [ParsingUtils]: [frontend/src/utils/parsingUtils.js];
    - [RootLocusInput], [FrequencyDomainInput]: the [handleAnalyze]
      handlers of the two input components;
    - [ControlSystemUtils]: [frontend/src/utils/controlSystemUtils.js];
    - [HomePage]: how the page wires the input components to the API
      functions;
    - [View], [InverseAnalysisResult], [FrequencyDomainResult],
      [ControlSystemAnalysis], [RootLocusResult], [FrequencyAnalysis]:
      the result components;
    - [Engine]: the analysis engine, whose code is not part of the source
      tree at hand and is modelled from its specification;
    - [RegexFacts], [ParsingFacts], [InputFacts], [RequestFacts],
      [ResultFacts], [EngineFacts]: the properties proved. *)

From stdpp Require Import base option list gmap strings pretty.
From Stdlib Require Import ZArith QArith Qabs Qround Qminmax Lia Lqa Ascii.

Set Default Proof Using "Type".
Open Scope list_scope.

(* ===================================================================== *)
(** * The JavaScript run time used by the client code *)
(* ===================================================================== *)

Module JS.

(** A JavaScript string is a sequence of UTF-16 code units. *)
Definition char16 := N.
Definition jsstring := list char16.

Definition code (a : ascii) : char16 := N_of_ascii a.

(** [str] turns an ASCII literal into a JavaScript string. *)
Definition str (s : string) : jsstring := List.map code (String.list_ascii_of_string s).

(** ** Numbers

    A Number is NaN, an infinity, or a finite double, kept as the exact
    rational it denotes (in lowest terms).  The sign of zero is not
    recorded: no operation of the client code distinguishes [-0] from
    [0]. *)
Inductive number :=
| NaN
| Inf (negative : bool)
| Fin (q : Q).

Definition two_pow (e : Z) : Q := Qpower 2 e.

(** Nearest integer to a non-negative rational, ties to even. *)
Definition round_half_even (m : Q) : Z :=
  let f := Qfloor m in
  let r := (m - inject_Z f)%Q in
  match Qcompare r (1 # 2) with
  | Lt => f
  | Gt => (f + 1)%Z
  | Eq => if Z.even f then f else (f + 1)%Z
  end.

(** The binade of a positive rational [a]: the [e] with
    [2^e <= a < 2^(e+1)]. *)
Definition binade (a : Q) : Z :=
  let e0 := (Z.log2 (Qnum a) - Z.log2 (Zpos (Qden a)))%Z in
  if Qle_bool (two_pow e0) a then e0 else (e0 - 1)%Z.

(** Rounding of a real (here: rational) value to the Number type:
    round to nearest double, ties to even, with gradual underflow and
    overflow to infinity. *)
Definition round_double (q : Q) : number :=
  if Qeq_bool q 0 then Fin 0
  else
    let a := Qabs q in
    let e := Z.max (binade a) (-1022) in
    let ulp := two_pow (e - 52) in
    let n := round_half_even (a / ulp) in
    let v := (inject_Z n * ulp)%Q in
    if Qle_bool (two_pow 1024) v then Inf (Qle_bool q 0)
    else Fin (Qred (if Qle_bool q 0 then - v else v)).

(** ** Values *)
Inductive value :=
| VUndefined
| VNull
| VNum (n : number)
| VStr (s : jsstring).

(** [ToNumber] on the values that occur ([undefined] gives NaN, [null]
    gives 0); strings are never converted implicitly by the client
    code. *)
Definition to_number (v : value) : number :=
  match v with
  | VUndefined => NaN
  | VNull => Fin 0
  | VNum n => n
  | VStr _ => NaN
  end.

Definition number_isNaN (n : number) : bool :=
  match n with NaN => true | _ => false end.

(** The global [isNaN]. *)
Definition isNaN (v : value) : bool := number_isNaN (to_number v).

Definition number_is_zero (n : number) : bool :=
  match n with Fin q => Qeq_bool q 0 | _ => false end.

(** [ToBoolean] of a number: [0] and NaN are falsy. *)
Definition number_truthy (n : number) : bool :=
  negb (number_isNaN n || number_is_zero n).

(** [a || b] on numbers. *)
Definition number_or (a b : number) : number :=
  if number_truthy a then a else b.

(** [v !== null]. *)
Definition is_not_null (v : value) : bool :=
  match v with VNull => false | _ => true end.

(** ** Completions: a computation returns normally or throws. *)
Inductive completion (A : Type) :=
| Normal (a : A)
| Throw (message : string).
Arguments Normal {A} a.
Arguments Throw {A} message.

#[global] Instance completion_ret : MRet completion := fun _ a => Normal a.

#[global] Instance completion_bind : MBind completion := fun _ _ k c =>
  match c with
  | Normal a => k a
  | Throw m => Throw m
  end.

(** ** String operations *)

(** White space and line terminators, as [String.prototype.trim] and
    [parseFloat] strip them. *)
Definition is_white_space (c : char16) : bool :=
  existsb (N.eqb c)
    [9; 10; 11; 12; 13; 32; 160; 5760; 8232; 8233; 8239; 8287; 12288; 65279]%N
  || ((8192 <=? c)%N && (c <=? 8202)%N).

Fixpoint trim_start (s : jsstring) : jsstring :=
  match s with
  | [] => []
  | c :: t => if is_white_space c then trim_start t else s
  end.

Definition trim_end (s : jsstring) : jsstring := rev (trim_start (rev s)).

Definition trim (s : jsstring) : jsstring := trim_end (trim_start s).

(** [s.split(sep)] for a one-character separator. *)
Fixpoint split (sep : char16) (s : jsstring) : list jsstring :=
  match s with
  | [] => [[]]
  | c :: t =>
      if (c =? sep)%N then [] :: split sep t
      else match split sep t with
           | [] => [[c]]
           | h :: r => (c :: h) :: r
           end
  end.

Definition ends_with (s : jsstring) (c : char16) : bool :=
  match rev s with
  | d :: _ => (d =? c)%N
  | [] => false
  end.

(** [s.replace(c, '')]: the first occurrence of [c] is removed. *)
Fixpoint remove_first (c : char16) (s : jsstring) : jsstring :=
  match s with
  | [] => []
  | d :: t => if (d =? c)%N then t else d :: remove_first c t
  end.

Definition jsstring_eqb (a b : jsstring) : bool :=
  bool_decide (a = b).

(** ** [parseFloat] *)

Definition is_digit (c : char16) : bool := ((48 <=? c)%N && (c <=? 57)%N).

Definition digit_value (c : char16) : Z := Z.of_N (c - 48).

Fixpoint span_digits (s : jsstring) : jsstring * jsstring :=
  match s with
  | c :: t =>
      if is_digit c then let '(d, r) := span_digits t in (c :: d, r)
      else ([], s)
  | [] => ([], [])
  end.

Definition digits_value (d : jsstring) : Z :=
  fold_left (fun acc c => (10 * acc + digit_value c)%Z) d 0%Z.

Fixpoint starts_with (p s : jsstring) : bool :=
  match p, s with
  | [], _ => true
  | a :: p', b :: s' => (a =? b)%N && starts_with p' s'
  | _ :: _, [] => false
  end.

(** The sign of a [StrDecimalLiteral]. *)
Definition read_sign (s : jsstring) : bool * jsstring :=
  match s with
  | c :: t =>
      if (c =? code "-")%N then (true, t)
      else if (c =? code "+")%N then (false, t)
      else (false, s)
  | [] => (false, [])
  end.

(** The [ExponentPart] that follows the mantissa, 0 when there is none
    (the longest prefix that is a literal then stops before the
    indicator). *)
Definition read_exponent (s : jsstring) : Z :=
  match s with
  | c :: t =>
      if (c =? code "e")%N || (c =? code "E")%N then
        let '(neg, t') := read_sign t in
        let '(d, _) := span_digits t' in
        match d with
        | [] => 0%Z
        | _ => if neg then (- digits_value d)%Z else digits_value d
        end
      else 0%Z
  | [] => 0%Z
  end.

(** [parseFloat(s)]: leading white space is skipped, the longest prefix
    that is a [StrDecimalLiteral] is converted, NaN when there is
    none. *)
Definition parseFloat (s : jsstring) : number :=
  let '(neg, s1) := read_sign (trim_start s) in
  if starts_with (str "Infinity") s1 then Inf neg
  else
    let '(ip, s2) := span_digits s1 in
    let '(fp, s3) :=
      match s2 with
      | c :: t => if (c =? code ".")%N then span_digits t else ([], s2)
      | [] => ([], s2)
      end in
    match ip, fp with
    | [], [] => NaN
    | _, _ =>
        let mant := (inject_Z (digits_value (ip ++ fp))
                     * Qpower 10 (- Z.of_nat (length fp)))%Q in
        let v := (mant * Qpower 10 (read_exponent s3))%Q in
        round_double (if neg then - v else v)
    end.

(** ** Regular expressions

    The fragment of the pattern language that the client code uses:
    character classes, concatenation, the greedy quantifiers [?] and
    [+] (the latter over a character class), and capture groups.  A
    pattern is always used anchored at both ends ([^...$]). *)
Inductive regex :=
| Chars (p : char16 -> bool)
| Seq (r1 r2 : regex)
| Opt (r : regex)
| PlusChars (p : char16 -> bool)
| Group (i : nat) (r : regex).

(** The captures of a match: group number to captured text; a group
    that did not take part is absent ([undefined]). *)
Abbreviation captures := (gmap nat jsstring).

Definition continuation := jsstring -> captures -> option captures.

(** The text consumed between the input [s] and the remaining input
    [s']. *)
Definition consumed (s s' : jsstring) : jsstring :=
  take (length s - length s') s.

(** Zero or more characters of a class, longest first. *)
Fixpoint star_chars (p : char16 -> bool) (s : jsstring) (caps : captures)
    (k : continuation) : option captures :=
  match s with
  | c :: t =>
      if p c then
        match star_chars p t caps k with
        | Some r => Some r
        | None => k s caps
        end
      else k s caps
  | [] => k s caps
  end.

(** The backtracking matcher: alternatives are tried in the priority
    order of the language (a quantifier first takes as much as it can)
    and the first complete match is the result. *)
Fixpoint run (r : regex) (s : jsstring) (caps : captures)
    (k : continuation) : option captures :=
  match r with
  | Chars p =>
      match s with
      | c :: t => if p c then k t caps else None
      | [] => None
      end
  | Seq r1 r2 => run r1 s caps (fun s' caps' => run r2 s' caps' k)
  | Opt r' =>
      match run r' s caps k with
      | Some x => Some x
      | None => k s caps
      end
  | PlusChars p =>
      match s with
      | c :: t => if p c then star_chars p t caps k else None
      | [] => None
      end
  | Group i r' =>
      run r' s caps (fun s' caps' => k s' (<[i := consumed s s']> caps'))
  end.

(** [s.match(/^r$/)]: the captures, or [None] for [null]. *)
Definition regex_match (r : regex) (s : jsstring) : option captures :=
  run r s ∅ (fun rest caps => match rest with [] => Some caps | _ => None end).

(** Truthiness of a capture: [undefined] and the empty string are
    falsy. *)
Definition capture_truthy (c : option jsstring) : bool :=
  match c with
  | Some (_ :: _) => true
  | _ => false
  end.

End JS.

(* ===================================================================== *)
(** * frontend/src/utils/parsingUtils.js *)
(* ===================================================================== *)

Module ParsingUtils.
Import JS.

Definition is_char (a : ascii) (c : char16) : bool := (c =? code a)%N.

(** The class [[0-9\.]]. *)
Definition digit_or_dot (c : char16) : bool := is_digit c || is_char "." c.

(** The class [[+-]]. *)
Definition plus_or_minus (c : char16) : bool := is_char "+" c || is_char "-" c.

(** [/^(-?[0-9\.]+)?([+-]?[0-9\.]+j)?$/] *)
Definition complex_re : regex :=
  Seq (Opt (Group 1 (Seq (Opt (Chars (is_char "-"))) (PlusChars digit_or_dot))))
      (Opt (Group 2 (Seq (Opt (Chars plus_or_minus))
                         (Seq (PlusChars digit_or_dot) (Chars (is_char "j")))))).

(** What the callback of [parts.map] returns: the number NaN for an
    invalid part, or the object [{ real, imag }]. *)
Inductive parsed :=
| Invalid
| Complex (real imag : number).

(** [c.real] and [c.imag]; a property of the number NaN is
    [undefined]. *)
Definition get_real (c : parsed) : value :=
  match c with Invalid => VUndefined | Complex r _ => VNum r end.

Definition get_imag (c : parsed) : value :=
  match c with Invalid => VUndefined | Complex _ i => VNum i end.

(** The imaginary part of a matched token. *)
Definition imag_of (imagPart : jsstring) : number :=
  if jsstring_eqb imagPart (str "j") || jsstring_eqb imagPart (str "+j") then Fin 1
  else if jsstring_eqb imagPart (str "-j") then Fin (-1)
  else parseFloat (remove_first (code "j") imagPart).

(** The callback of [parts.map]. *)
Definition parse_part (part : jsstring) : parsed :=
  match regex_match complex_re part with
  | None => Invalid
  | Some m =>
      if ends_with part (code "+") || ends_with part (code "-") then Invalid
      else
        let realPart := m !! 1%nat in
        let imagPart := m !! 2%nat in
        let real :=
          if capture_truthy realPart then parseFloat (default [] realPart)
          else Fin 0 in
        let imag :=
          if capture_truthy imagPart then imag_of (default [] imagPart)
          else Fin 0 in
        if negb (capture_truthy realPart) && capture_truthy imagPart
        then Complex (Fin 0) imag
        else Complex real imag
  end.

Definition invalid_format_message : string :=
  "包含无效的复数格式。请使用 a+bj 的形式，例如: -1, -2+3j, -2-3j".

Definition parts_of (input : jsstring) : list jsstring :=
  List.map trim (split (code ",") input).

Definition parseComplexNumbers (input : jsstring) : completion (list parsed) :=
  match trim input with
  | [] => Normal []
  | _ :: _ =>
      let complexNumbers := List.map parse_part (parts_of input) in
      if existsb (fun c => isNaN (get_real c) || isNaN (get_imag c)) complexNumbers
      then Throw invalid_format_message
      else Normal complexNumbers
  end.

End ParsingUtils.

(* ===================================================================== *)
(** * The input components *)
(* ===================================================================== *)

(** frontend/src/components/RootLocusInput.jsx *)
Module RootLocusInput.
Import JS ParsingUtils.

(** The state of the component: the two text fields and the error
    shown under them. *)
Record state := {
  zeros : jsstring;
  poles : jsstring;
  error : option string
}.

Definition setError (e : option string) (st : state) : state :=
  {| zeros := zeros st; poles := poles st; error := e |}.

(** A call of the [onAnalyze] property. *)
Inductive call :=
| OnAnalyze (parsedZeros parsedPoles : list parsed).

Definition no_pole_message : string := "必须至少输入一个极点。".

(** [handleAnalyze]: the new state and the calls of [onAnalyze] made.
    [has_onAnalyze] tells whether the property was passed. *)
Definition handleAnalyze (has_onAnalyze : bool) (st : state) : state * list call :=
  let st := setError None st in
  let parsedBoth :=
    parsedZeros ← parseComplexNumbers (zeros st);
    parsedPoles ← parseComplexNumbers (poles st);
    mret (parsedZeros, parsedPoles) in
  match parsedBoth with
  | Throw m => (setError (Some m) st, [])
  | Normal (parsedZeros, parsedPoles) =>
      if (length parsedPoles =? 0)%nat then (setError (Some no_pole_message) st, [])
      else if has_onAnalyze then (st, [OnAnalyze parsedZeros parsedPoles])
      else (st, [])
  end.

End RootLocusInput.

(** frontend/src/components/FrequencyDomainInput.jsx *)
Module FrequencyDomainInput.
Import JS ParsingUtils.

Record state := {
  zeros : jsstring;
  poles : jsstring;
  gain : jsstring;
  error : option string
}.

Definition setError (e : option string) (st : state) : state :=
  {| zeros := zeros st; poles := poles st; gain := gain st; error := e |}.

(** A call of [onAnalyze]: the gain is passed on as the text typed. *)
Inductive call :=
| OnAnalyze (parsedZeros parsedPoles : list parsed) (gain : jsstring).

Definition no_pole_message : string := "必须至少输入一个极点。".
Definition invalid_gain_message : string := "增益 K 必须是有效的数字。".

Definition handleAnalyze (has_onAnalyze : bool) (st : state) : state * list call :=
  let st := setError None st in
  let parsedBoth :=
    parsedZeros ← parseComplexNumbers (zeros st);
    parsedPoles ← parseComplexNumbers (poles st);
    mret (parsedZeros, parsedPoles) in
  match parsedBoth with
  | Throw m => (setError (Some m) st, [])
  | Normal (parsedZeros, parsedPoles) =>
      if (length parsedPoles =? 0)%nat then (setError (Some no_pole_message) st, [])
      else
        let parsedGain := parseFloat (gain st) in
        if isNaN (VNum parsedGain) then (setError (Some invalid_gain_message) st, [])
        else if has_onAnalyze then (st, [OnAnalyze parsedZeros parsedPoles (gain st)])
        else (st, [])
  end.

End FrequencyDomainInput.

(* ===================================================================== *)
(** * frontend/src/utils/controlSystemUtils.js *)
(* ===================================================================== *)

Module ControlSystemUtils.
Import JS ParsingUtils.

Definition API_BASE_URL : string := "http://localhost:8000".

(** A JSON object with primitive fields. *)
Abbreviation object := (gmap string value).

(** The object literal [{ real, imag }] that [parseComplexNumbers]
    builds, as [JSON.stringify] sees it. *)
Definition point_object (real imag : number) : object :=
  {[ "real" := VNum real; "imag" := VNum imag ]}.

Definition to_object (c : parsed) : option object :=
  match c with
  | Invalid => None
  | Complex r i => Some (point_object r i)
  end.

(** [o.k]: an absent property reads as [undefined]. *)
Definition get (o : object) (k : string) : value := default VUndefined (o !! k).

(** The bodies handed to [JSON.stringify]. *)
Record root_locus_body := {
  rl_zeros : list parsed;
  rl_poles : list parsed
}.

Record frequency_domain_body := {
  fd_zeros : list parsed;
  fd_poles : list parsed;
  fd_gain : number
}.

Inductive body :=
| RootLocusBody (b : root_locus_body)
| FrequencyDomainBody (b : frequency_domain_body).

(** The argument of [fetch]. *)
Record request := {
  url : string;
  method : string;
  content_type : string;
  payload : body
}.

(** What [fetch] resolves to: [response.ok], and the parsed
    [response.json()], which carries the payload or the error
    [detail]. *)
Record response (A : Type) := {
  ok : bool;
  json : A;
  detail : option string
}.
Arguments ok {A} _.
Arguments json {A} _.
Arguments detail {A} _.

(** [errorData.detail || fallback]: an absent or empty detail is
    falsy. *)
Definition detail_or (d : option string) (fallback : string) : string :=
  match d with
  | Some (String _ _ as m) => m
  | _ => fallback
  end.

Definition plot_root_locus_request (zeros poles : list parsed) : request :=
  {| url := API_BASE_URL +:+ "/plot_root_locus";
     method := "POST";
     content_type := "application/json";
     payload := RootLocusBody {| rl_zeros := zeros; rl_poles := poles |} |}.

Definition analyze_frequency_domain_request (zeros poles : list parsed)
    (gain : jsstring) : request :=
  {| url := API_BASE_URL +:+ "/analyze_frequency_domain";
     method := "POST";
     content_type := "application/json";
     payload := FrequencyDomainBody
       {| fd_zeros := zeros; fd_poles := poles;
          fd_gain := number_or (parseFloat gain) (Fin 1) |} |}.

Section Fetch.
Context {A : Type}.
(** The network: the response to a request. *)
Variable fetch : request -> response A.

Definition plotRootLocusAPI (zeros poles : list parsed) : completion A :=
  let response := fetch (plot_root_locus_request zeros poles) in
  if negb (ok response) then Throw (detail_or (detail response) "后端根轨迹分析失败")
  else Normal (json response).

Definition analyzeFrequencyDomainAPI (zeros poles : list parsed)
    (gain : jsstring) : completion A :=
  let response := fetch (analyze_frequency_domain_request zeros poles gain) in
  if negb (ok response) then Throw (detail_or (detail response) "后端频域分析失败")
  else Normal (json response).
End Fetch.

End ControlSystemUtils.

(* ===================================================================== *)
(** * frontend/src/pages/HomePage.jsx *)
(* ===================================================================== *)

Module HomePage.
Import JS ParsingUtils ControlSystemUtils.

(** What a press of the button of an input component sends to the
    network: the page passes its handler as [onAnalyze], and the handler
    calls the API function with the arguments it was given. *)
Definition root_locus_click (st : RootLocusInput.state)
    : RootLocusInput.state * list request :=
  let '(st', calls) := RootLocusInput.handleAnalyze true st in
  (st', List.map (fun '(RootLocusInput.OnAnalyze z p) => plot_root_locus_request z p)
                 calls).

Definition frequency_domain_click (st : FrequencyDomainInput.state)
    : FrequencyDomainInput.state * list request :=
  let '(st', calls) := FrequencyDomainInput.handleAnalyze true st in
  (st', List.map (fun '(FrequencyDomainInput.OnAnalyze z p g) =>
                    analyze_frequency_domain_request z p g) calls).

Section Handlers.
Context {A : Type}.
Variable fetch : request -> response A.

(** The result and the error that the page keeps for a mode. *)
Record outcome := {
  result : option A;
  error : option string
}.

Definition settle (c : completion A) : outcome :=
  match c with
  | Normal r => {| result := Some r; error := None |}
  | Throw m => {| result := None; error := Some m |}
  end.

Definition handleRootLocusPlot (zeros poles : list parsed) : outcome :=
  settle (plotRootLocusAPI fetch zeros poles).

Definition handleFrequencyDomainAnalyze (zeros poles : list parsed)
    (gain : jsstring) : outcome :=
  settle (analyzeFrequencyDomainAPI fetch zeros poles gain).
End Handlers.

End HomePage.

(* ===================================================================== *)
(** * The result components *)
(* ===================================================================== *)

(** What the components put on the page. *)
Module View.
Import JS.

(** Text content.  A formatted number is kept as the call that formats
    it. *)
Inductive text :=
| Lit (s : string)
| Fixed (n : number) (digits : nat)
| Shown (v : value)
| Cat (a b : text).

(** [v.toFixed(digits)]: a method of numbers only; on [undefined],
    [null] or a string the call is a [TypeError]. *)
Definition toFixed (v : value) (digits : nat) : completion text :=
  match v with
  | VNum n => Normal (Fixed n digits)
  | _ => Throw "TypeError"
  end.

Definition value_truthy (v : value) : bool :=
  match v with
  | VUndefined | VNull => false
  | VNum n => number_truthy n
  | VStr s => match s with [] => false | _ :: _ => true end
  end.

(** [{v && element}]: the element when [v] is truthy; otherwise [v]
    itself is the child, and only a number leaves text on the page. *)
Definition and_element {E} (v : value) (element : E) (raw : number -> E) : list E :=
  if value_truthy v then [element]
  else match v with VNum n => [raw n] | _ => [] end.

End View.

(** frontend/src/components/InverseAnalysisResult.jsx *)
Module InverseAnalysisResult.
Import JS View.

Record result := {
  damping_ratio : value;
  natural_frequency : value;
  message : value
}.

Inductive line :=
| ErrorMessage (m : value)
| DampingRatio (t : text)
| NaturalFrequency (t : text)
| CannotCompute
| RawNumber (n : number).

Inductive view :=
| NoResult
| Card (lines : list line).

Definition render (r : option result) : completion view :=
  match r with
  | None => Normal NoResult
  | Some result =>
      let l1 := and_element (message result) (ErrorMessage (message result)) RawNumber in
      l2 ← (if is_not_null (damping_ratio result)
            then t ← toFixed (damping_ratio result) 3; mret [DampingRatio t]
            else mret []);
      l3 ← (if is_not_null (natural_frequency result)
            then t ← toFixed (natural_frequency result) 3; mret [NaturalFrequency t]
            else mret []);
      let l4 :=
        if negb (is_not_null (damping_ratio result))
           && negb (is_not_null (natural_frequency result))
           && negb (value_truthy (message result))
        then [CannotCompute] else [] in
      mret (Card (l1 ++ l2 ++ l3 ++ l4))
  end.

End InverseAnalysisResult.

(** frontend/src/components/FrequencyDomainResult.jsx: the summary of
    the key figures that the component returns (the plots are drawn by a
    separate effect). *)
Module FrequencyDomainResult.
Import JS View.

Record margins := {
  gain_margin_db : value;
  phase_margin_deg : value
}.

Record asymptote := {
  type : value;
  avalue : value
}.

Record nyquist_data := {
  nyquist_asymptote : option asymptote
}.

(** An absent [stability_margins] or [nyquist] is [None]. *)
Record result := {
  stability_margins : option margins;
  nyquist : option nyquist_data
}.

Inductive item :=
| GainMargin (t : text)
| PhaseMargin (t : text)
| NyquistAsymptote (t : text).

Inductive view :=
| NoResult
| Card (items : list item).

Definition infinite_text : string := "无穷大".
Definition undefined_text : string := "未定义".

Definition is_vertical_line (v : value) : bool :=
  match v with
  | VStr s => jsstring_eqb s (str "vertical_line")
  | _ => false
  end.

(** [gain_margin_db !== null ? `${gain_margin_db.toFixed(2)} dB` : '无穷大'] *)
Definition gain_margin_text (sm : margins) : completion text :=
  if is_not_null (gain_margin_db sm)
  then t ← toFixed (gain_margin_db sm) 2; mret (Cat t (Lit " dB"))
  else mret (Lit infinite_text).

(** [phase_margin_deg !== null ? `${phase_margin_deg.toFixed(2)} deg` : '未定义'] *)
Definition phase_margin_text (sm : margins) : completion text :=
  if is_not_null (phase_margin_deg sm)
  then t ← toFixed (phase_margin_deg sm) 2; mret (Cat t (Lit " deg"))
  else mret (Lit undefined_text).

(** The item for the asymptote of the Nyquist plot, shown for a
    vertical line only. *)
Definition asymptote_items (result : result) : completion (list item) :=
  match nyquist result ≫= nyquist_asymptote with
  | Some a =>
      if is_vertical_line (type a)
      then t ← toFixed (avalue a) 4; mret [NyquistAsymptote t]
      else mret []
  | None => mret []
  end.

Definition render (r : option result) : completion view :=
  match r with
  | None => Normal NoResult
  | Some result =>
      match stability_margins result with
      | None => Throw "TypeError"
      | Some sm =>
          gm ← gain_margin_text sm;
          pm ← phase_margin_text sm;
          asy ← asymptote_items result;
          mret (Card ([GainMargin gm; PhaseMargin pm] ++ asy))
      end
  end.

End FrequencyDomainResult.

(** frontend/src/components/ControlSystemAnalysis.jsx *)
Module ControlSystemAnalysis.
Import JS View.

Record metrics_data := {
  rise_time : value;
  peak_time : value;
  max_overshoot : value;
  settling_time_2_percent : value;
  settling_time_5_percent : value
}.

Record stability_data := {
  status : string;
  poles : list value
}.

(** [metrics] is [None] when the response carries [null]. *)
Record analysisResult := {
  metrics : option metrics_data;
  stability : stability_data
}.

Inductive metrics_view :=
| MetricsList (rise peak overshoot settling2 settling5 : text)
| NoMetrics.

Inductive view :=
| NoResult
| Card (status_text : string) (poles_text : list value) (m : metrics_view).

Definition render (r : option analysisResult) : view :=
  match r with
  | None => NoResult
  | Some analysisResult =>
      Card (status (stability analysisResult)) (poles (stability analysisResult))
        match metrics analysisResult with
        | Some m =>
            MetricsList (Shown (rise_time m)) (Shown (peak_time m))
              (Shown (max_overshoot m)) (Shown (settling_time_2_percent m))
              (Shown (settling_time_5_percent m))
        | None => NoMetrics
        end
  end.

End ControlSystemAnalysis.

(** frontend/src/components/RootLocusResult.jsx: the marker and branch
    traces that the plotting effect hands to the chart (the dashed
    asymptote lines, drawn first, are left out). *)
Module RootLocusResult.
Import JS ControlSystemUtils.

(** A branch of the response: parallel arrays of coordinates. *)
Record branch := {
  x : list value;
  y : list value
}.

(** The fields of the response that the effect reads; an absent field
    is [None]. *)
Record result := {
  branches : option (list branch);
  zeros : option (list object);
  poles : option (list object);
  breakaway_points : option (list object);
  imag_axis_crossings : option (list object)
}.

Record trace := {
  name : string;
  mode : string;
  xs : list value;
  ys : list value
}.

(** [{ x: pts.map(p => p.x), y: pts.map(p => p.y), mode: 'markers', name }] *)
Definition marker_trace (name : string) (pts : list object) : trace :=
  {| name := name; mode := "markers";
     xs := List.map (fun p => get p "x") pts;
     ys := List.map (fun p => get p "y") pts |}.

Definition branch_trace (index : nat) (b : branch) : trace :=
  {| name := "Branch " +:+ pretty (S index); mode := "lines";
     xs := x b; ys := y b |}.

Definition when_present (name : string) (pts : option (list object)) : list trace :=
  match pts with
  | Some l => [marker_trace name l]
  | None => []
  end.

Definition when_nonempty (name : string) (pts : option (list object)) : list trace :=
  match pts with
  | Some ((_ :: _) as l) => [marker_trace name l]
  | _ => []
  end.

(** The [plotData] array, built only when the response and its
    branches are there: the entries for the points and the branches.
    The asymptote lines that the effect pushes before them are drawn
    from the centroid, the angles and the two ranges, and read no point
    of the response. *)
Definition plotData (r : option result) : list trace :=
  match r with
  | Some result =>
      match branches result with
      | Some bs =>
          when_present "Poles" (poles result)
          ++ when_present "Zeros" (zeros result)
          ++ when_nonempty "Breakaway/Break-in Points" (breakaway_points result)
          ++ when_nonempty "Imaginary Axis Crossings" (imag_axis_crossings result)
          ++ imap branch_trace bs
      | None => []
      end
  | None => []
  end.

End RootLocusResult.

(** The [FrequencyAnalysis] component: the data sets of its pole and
    zero markers. *)
Module FrequencyAnalysis.
Import JS View ControlSystemUtils.

Record margins := {
  gain_margin_db : value;
  phase_margin_deg : value;
  gain_crossover_freq_rad_s : value
}.

Record bode_data := {
  omega : option (list value);
  magnitude_db : option (list value);
  phase_deg : option (list value)
}.

Record locus := {
  real : option (list value);
  imag : option (list value)
}.

(** The fields of the response that the component reads; an absent
    field is [None], or [undefined] for a value. *)
Record result := {
  dc_gain : value;
  stability_margins : option margins;
  nyquist : option FrequencyDomainResult.nyquist_data;
  bode : option bode_data;
  root_locus : option locus;
  poles : option (list object);
  zeros : option (list object)
}.

(** [result.dc_gain?.toFixed(4) || 'N/A'] *)
Definition dc_gain_text (v : value) : completion text :=
  match v with
  | VUndefined | VNull => mret (Lit "N/A")
  | VNum n => mret (Fixed n 4)
  | VStr _ => Throw "TypeError"
  end.

(** [result.stability_margins?.f !== null
       ? `${result.stability_margins.f.toFixed(digits)}unit` : absent]:
    without [stability_margins] the left side is [undefined], which is
    not [null], and the property is then read from [undefined]. *)
Definition margin_text (sm : option margins) (f : margins -> value)
    (digits : nat) (unit absent : string) : completion text :=
  match sm with
  | None => Throw "TypeError"
  | Some m =>
      if is_not_null (f m)
      then t ← toFixed (f m) digits; mret (Cat t (Lit unit))
      else mret (Lit absent)
  end.

Definition asymptote_texts (result : result) : completion (list text) :=
  match nyquist result ≫= FrequencyDomainResult.nyquist_asymptote with
  | Some a =>
      if FrequencyDomainResult.is_vertical_line (FrequencyDomainResult.type a)
      then t ← toFixed (FrequencyDomainResult.avalue a) 4; mret [t]
      else mret []
  | None => mret []
  end.

(** [xs.map((x, i) => ({ x: x, y: ys[i] }))]: reading [ys[i]] throws
    when [ys] is missing and there is an [x]. *)
Definition pair_up (xs : option (list value)) (ys : option (list value))
    : completion (list (value * value)) :=
  match xs with
  | None => Throw "TypeError"
  | Some [] => mret []
  | Some l =>
      match ys with
      | None => Throw "TypeError"
      | Some l' => mret (imap (fun i x => (x, default VUndefined (l' !! i))) l)
      end
  end.

(** [result.bode?.omega.map((x, i) => ({ x: x, y: result.bode.f[i] })) || []] *)
Definition line_data (b : option bode_data) (f : bode_data -> option (list value))
    : completion (list (value * value)) :=
  match b with
  | None => mret []
  | Some b => pair_up (omega b) (f b)
  end.

(** [result.root_locus?.real.map((val, i) =>
       ({ x: val, y: result.root_locus.imag[i] })) || []] *)
Definition locus_data (rl : option locus) : completion (list (value * value)) :=
  match rl with
  | None => mret []
  | Some l => pair_up (real l) (imag l)
  end.

(** [pts?.map(p => ({ x: p.real, y: p.imag })) || []] *)
Definition marker_data (pts : option (list object)) : list (value * value) :=
  match pts with
  | Some l => List.map (fun p => (get p "real", get p "imag")) l
  | None => []
  end.

(** The name [Scatter]: the module imports [Line] from the chart
    package and declares nothing else of that kind, so that evaluating
    the name is a [ReferenceError]. *)
Definition Scatter : completion unit := Throw "ReferenceError".

Inductive view :=
| Form
| FormWithResult (summary : list text) (magnitude phase : list (value * value))
    (branches open_loop_poles open_loop_zeros : list (value * value)).

(** The children of the result card that come before the root-locus
    chart, in the order in which they are evaluated: the summary and the
    data of the two Bode charts. *)
Definition before_scatter (result : result)
    : completion (list text * list (value * value) * list (value * value)) :=
  dc ← dc_gain_text (dc_gain result);
  gm ← margin_text (stability_margins result) gain_margin_db 2 " dB" "无穷大";
  pm ← margin_text (stability_margins result) phase_margin_deg 2 "°" "未定义";
  gc ← margin_text (stability_margins result) gain_crossover_freq_rad_s 4
         " rad/s" "N/A";
  asy ← asymptote_texts result;
  magnitude ← line_data (bode result) magnitude_db;
  phase ← line_data (bode result) phase_deg;
  mret ([dc; gm; pm; gc] ++ asy, magnitude, phase).

(** What the component returns for its [result] state.  The element
    [<Scatter data={...} />] is the call of the element factory on
    [Scatter] and the properties: the name is evaluated first, the
    readers of the poles and zeros after it. *)
Definition render (r : option result) : completion view :=
  match r with
  | None => mret Form
  | Some result =>
      '(summary, magnitude, phase) ← before_scatter result;
      _ ← Scatter;
      branches ← locus_data (root_locus result);
      mret (FormWithResult summary magnitude phase branches
              (marker_data (poles result)) (marker_data (zeros result)))
  end.

End FrequencyAnalysis.

(* ===================================================================== *)
(** * The analysis engine *)
(* ===================================================================== *)

(** The engine that answers the requests is not part of the source tree
    at hand; its operations are modelled from the specification.
    Numerical procedures whose results the specification does not fix
    (root finding, the simulation of the step response, the solution of
    the second-order relations) are parameters of the model. *)
Module Engine.
Import JS.

Open Scope Q_scope.

(** Modelled from the spec: the [ComplexPoint] of the data model, a
    [(real, imag)] pair. *)
Record ComplexPoint := {
  real : Q;
  imag : Q
}.

Definition Qlt_bool (a b : Q) : bool := negb (Qle_bool b a).

(** Modelled from the spec: the three values of [stability.status]. *)
Inductive status := stable | marginal | unstable.

Definition status_name (s : status) : string :=
  match s with
  | stable => "stable"
  | marginal => "marginal"
  | unstable => "unstable"
  end.

(** Modelled from the spec: the stability verdict of [analyze_tf]
    (section 4.2, "stability classified from denominator roots"): all
    real parts strictly negative is stable, a zero real part is marginal,
    a positive real part is unstable.  The spec gives no order between
    the second rule and the third: where a root on the imaginary axis
    and a root in the right half plane occur together, [axis_decides]
    says which of the two rules the engine follows. *)
Definition classify (axis_decides : list ComplexPoint -> bool)
    (roots : list ComplexPoint) : status :=
  match existsb (fun r => Qeq_bool (real r) 0) roots,
        existsb (fun r => Qlt_bool 0 (real r)) roots with
  | false, false => stable
  | true, false => marginal
  | false, true => unstable
  | true, true => if axis_decides roots then marginal else unstable
  end.

(** Modelled from the spec: the simulated unit-step response, as
    samples [(t, y)] in the order of the simulation. *)
Definition response := list (Q * Q).

(** Modelled from the spec: whether a sample lies outside the tolerance
    band of relative width [tol] around the final value [yf]. *)
Definition outside_band (tol yf y : Q) : bool :=
  Qlt_bool (tol * Qabs yf) (Qabs (y - yf)).

(** Modelled from the spec: "last time the response exits the band":
    the latest time at which a sample lies outside the band.  [last] is
    the latest such time seen so far. *)
Fixpoint last_exit (tol yf : Q) (samples : response) (last : Q) : Q :=
  match samples with
  | [] => last
  | (t, y) :: rest =>
      last_exit tol yf rest (if outside_band tol yf y then Qmax t last else last)
  end.

(** Modelled from the spec: the settling time at a tolerance; a response
    that never leaves the band has settled at its first sample. *)
Definition settling_time (tol yf : Q) (samples : response) : Q :=
  last_exit tol yf samples (match samples with (t0, _) :: _ => t0 | [] => 0 end).

(** Modelled from the spec: the [metrics] object of the [analyze_tf]
    response (section 6). *)
Record Metrics := {
  rise_time : option Q;
  peak_time : option Q;
  max_overshoot : option Q;
  settling_time_2_percent : Q;
  settling_time_5_percent : Q
}.

(** Modelled from the spec: the [analyze_tf] response, [metrics] or
    null together with the status and the poles. *)
Record Analysis := {
  metrics : option Metrics;
  stability_status : status;
  stability_poles : list ComplexPoint
}.

(** Modelled from the spec: the numerical work the engine does while it
    answers a request (section 4.2 speaks of the response being, or not
    being, simulated). *)
Inductive action := RootFinding | StepSimulation.

(** Modelled from the spec: a denominator that is empty or all zero is
    rejected (section 4.1). *)
Definition degenerate (denominator : list Q) : bool :=
  forallb (fun c => Qeq_bool c 0) denominator.

Definition number_of (q : Q) : value := VNum (Fin (Qred q)).

Definition optional_number (o : option Q) : value :=
  match o with Some q => number_of q | None => VNull end.

Section TimeDomain.
(** The order of the two rules that the spec leaves open. *)
Variable axis_decides : list ComplexPoint -> bool.
(** Root finding and the simulation of the unit-step response, with
    the extraction of the metrics that no property below depends
    on. *)
Variable find_roots : list Q -> list ComplexPoint.
Variable simulate_step : list Q -> list Q -> response.
Variable final_value : response -> Q.
Variable rise_time_of peak_time_of max_overshoot_of : response -> option Q.
Variable pole_value : ComplexPoint -> value.

(** Modelled from the spec: the metrics of a simulated response. *)
Definition metrics_of (samples : response) : Metrics :=
  let yf := final_value samples in
  {| rise_time := rise_time_of samples;
     peak_time := peak_time_of samples;
     max_overshoot := max_overshoot_of samples;
     settling_time_2_percent := settling_time (2 # 100) yf samples;
     settling_time_5_percent := settling_time (5 # 100) yf samples |}.

(** Modelled from the spec: [analyze_tf], with the record of what was
    computed.  Only a stable system is simulated. *)
Definition analyze_tf (numerator denominator : list Q)
    : completion (Analysis * list action) :=
  if degenerate denominator then Throw "InvalidSystem"
  else
    let poles := find_roots denominator in
    match classify axis_decides poles with
    | stable =>
        Normal ({| metrics := Some (metrics_of (simulate_step numerator denominator));
                   stability_status := stable;
                   stability_poles := poles |},
                [RootFinding; StepSimulation])
    | verdict =>
        Normal ({| metrics := None;
                   stability_status := verdict;
                   stability_poles := poles |},
                [RootFinding])
    end.

(** Modelled from the spec: the response in the form in which
    [ControlSystemAnalysis.jsx] reads it. *)
Definition analysis_response (a : Analysis) : ControlSystemAnalysis.analysisResult :=
  {| ControlSystemAnalysis.metrics :=
       (fun m =>
          {| ControlSystemAnalysis.rise_time := optional_number (rise_time m);
             ControlSystemAnalysis.peak_time := optional_number (peak_time m);
             ControlSystemAnalysis.max_overshoot := optional_number (max_overshoot m);
             ControlSystemAnalysis.settling_time_2_percent :=
               number_of (settling_time_2_percent m);
             ControlSystemAnalysis.settling_time_5_percent :=
               number_of (settling_time_5_percent m) |}) <$> metrics a;
     ControlSystemAnalysis.stability :=
       {| ControlSystemAnalysis.status := status_name (stability_status a);
          ControlSystemAnalysis.poles := List.map pole_value (stability_poles a) |} |}.
End TimeDomain.

(** ** Inverse analysis *)

(** Modelled from the spec: the [inverse_analyze_tf] request, any of
    the four metrics. *)
Record InverseRequest := {
  req_rise_time : option Q;
  req_peak_time : option Q;
  req_max_overshoot : option Q;
  req_settling_time : option Q
}.

(** Modelled from the spec: the outcome of solving the second-order
    relations for the damping ratio and the natural frequency. *)
Inductive solution :=
| Inconsistent
| Solved (zeta omega_n : Q).

Section Inverse.
Variable solve : InverseRequest -> solution.
(** The explanatory messages, whose text the specification does not
    give. *)
Variable inconsistent_message out_of_range_message : jsstring.

(** Modelled from the spec: the null result with its message. *)
Definition null_result (m : jsstring) : InverseAnalysisResult.result :=
  {| InverseAnalysisResult.damping_ratio := VNull;
     InverseAnalysisResult.natural_frequency := VNull;
     InverseAnalysisResult.message := VStr m |}.

(** Modelled from the spec: [inverse_analyze_tf] (section 4.2,
    "Inverse"): inconsistent metrics, a damping ratio outside (0,1) or
    a natural frequency that is not positive give the null result
    with a message, never a failure. *)
Definition inverse_analyze_tf (req : InverseRequest)
    : completion InverseAnalysisResult.result :=
  match solve req with
  | Inconsistent => Normal (null_result inconsistent_message)
  | Solved zeta omega_n =>
      if Qlt_bool 0 zeta && Qlt_bool zeta 1 && Qlt_bool 0 omega_n
      then Normal {| InverseAnalysisResult.damping_ratio := number_of zeta;
                     InverseAnalysisResult.natural_frequency := number_of omega_n;
                     InverseAnalysisResult.message := VUndefined |}
      else Normal (null_result out_of_range_message)
  end.
End Inverse.

(** ** Root-locus asymptotes *)

(** Modelled from the spec: the [AsymptoteSet] of the data model, one
    real centroid and the angles in degrees. *)
Record AsymptoteSet := {
  centroid : Q;
  angles : list Q
}.

Definition cadd (a b : ComplexPoint) : ComplexPoint :=
  {| real := real a + real b; imag := imag a + imag b |}.

Definition csub (a b : ComplexPoint) : ComplexPoint :=
  {| real := real a - real b; imag := imag a - imag b |}.

Definition csum (l : list ComplexPoint) : ComplexPoint :=
  fold_right cadd {| real := 0; imag := 0 |} l.

Definition of_nat (n : nat) : Q := inject_Z (Z.of_nat n).

(** Modelled from the spec: the asymptotes of the root locus (section
    4.4): for more poles than zeros, the centroid
    [(sum poles - sum zeros) / (|P| - |Z|)], a real value, and the angles
    [(2k+1) * 180 / (|P| - |Z|)] for [k = 0 .. |P| - |Z| - 1]; none
    otherwise. *)
Definition asymptotes (zeros poles : list ComplexPoint) : option AsymptoteSet :=
  let excess := (length poles - length zeros)%nat in
  if (length zeros <? length poles)%nat then
    Some {| centroid := real (csub (csum poles) (csum zeros)) / of_nat excess;
            angles := List.map (fun k => (2 * of_nat k + 1) * 180 / of_nat excess)
                               (seq 0 excess) |}
  else None.

End Engine.

(* ===================================================================== *)
(** * Further input components *)
(* ===================================================================== *)

(** frontend/src/components/SymbolicStabilityInput.jsx *)
Module SymbolicStabilityInput.
Import JS.

Record state := {
  coeffs : jsstring;
  error : option string
}.

Definition setError (e : option string) (st : state) : state :=
  {| coeffs := coeffs st; error := e |}.

Inductive call :=
| OnAnalyze (coeffStrings : list jsstring).

Definition no_coefficient_message : string := "请输入特征方程的系数。".
Definition invalid_character_message : string := "系数中包含无效字符。".

Definition char_is (a : ascii) (c : char16) : bool := (c =? code a)%N.

(** The class [[0-9x\\s.,+\\-*\\/()]]. *)
Definition valid_char (c : char16) : bool :=
  is_digit c || char_is "x" c || is_white_space c || char_is "." c
  || char_is "," c || char_is "+" c || char_is "-" c || char_is "*" c
  || char_is "/" c || char_is "(" c || char_is ")" c.

(** [/^[0-9x\\s.,+\\-*\\/()]*$/.test(s)]: every character is of the
    class. *)
Definition validChars_test (s : jsstring) : bool := forallb valid_char s.

(** [s !== ''] *)
Definition not_empty (s : jsstring) : bool :=
  match s with [] => false | _ :: _ => true end.

Definition handleAnalyze (has_onAnalyze : bool) (st : state) : state * list call :=
  let st := setError None st in
  let coeffStrings :=
    List.filter not_empty (List.map trim (split (code ",") (coeffs st))) in
  if (length coeffStrings =? 0)%nat
  then (setError (Some no_coefficient_message) st, [])
  else if negb (validChars_test (coeffs st))
  then (setError (Some invalid_character_message) st, [])
  else if has_onAnalyze then (st, [OnAnalyze coeffStrings])
  else (st, []).

End SymbolicStabilityInput.

(** frontend/src/components/InverseAnalysisInput.jsx *)
Module InverseAnalysisInput.
Import JS.

Record state := {
  riseTime : jsstring;
  peakTime : jsstring;
  maxOvershoot : jsstring;
  settlingTime : jsstring;
  error : option string
}.

Definition setError (e : option string) (st : state) : state :=
  {| riseTime := riseTime st; peakTime := peakTime st;
     maxOvershoot := maxOvershoot st; settlingTime := settlingTime st;
     error := e |}.

(** The [metrics] object: property name to number. *)
Inductive call :=
| OnAnalyze (metrics : gmap string number).

Definition no_metric_message : string := "请至少输入一个时域指标。".

(** [if (text) metrics[key] = parseFloat(text)]: the empty text is
    falsy. *)
Definition set_if_given (key : string) (text : jsstring)
    (metrics : gmap string number) : gmap string number :=
  match text with
  | [] => metrics
  | _ :: _ => <[key := parseFloat text]> metrics
  end.

Definition handleAnalyze (has_onAnalyze : bool) (st : state) : state * list call :=
  let st := setError None st in
  let metrics :=
    set_if_given "settling_time" (settlingTime st)
      (set_if_given "max_overshoot" (maxOvershoot st)
         (set_if_given "peak_time" (peakTime st)
            (set_if_given "rise_time" (riseTime st) ∅))) in
  if (size metrics =? 0)%nat
  then (setError (Some no_metric_message) st, [])
  else if has_onAnalyze then (st, [OnAnalyze metrics])
  else (st, []).

End InverseAnalysisInput.

(** The conversion [Number(text)] of a string to a number. *)
Module Conversions.
Import JS.

Definition is_hex_digit (c : char16) : bool :=
  is_digit c || ((97 <=? c)%N && (c <=? 102)%N) || ((65 <=? c)%N && (c <=? 70)%N).

Definition hex_value (c : char16) : Z :=
  if is_digit c then Z.of_N (c - 48)
  else if (97 <=? c)%N then Z.of_N (c - 87)
  else Z.of_N (c - 55).

Definition is_octal_digit (c : char16) : bool := (48 <=? c)%N && (c <=? 55)%N.
Definition is_binary_digit (c : char16) : bool := (48 <=? c)%N && (c <=? 49)%N.

Definition radix_value (radix : Z) (d : jsstring) : Z :=
  fold_left (fun acc c => (radix * acc + hex_value c)%Z) d 0%Z.

(** A [NonDecimalIntegerLiteral]: [0x], [0o] or [0b] and at least one
    digit of the radix, nothing else. *)
Definition non_decimal_literal (s : jsstring) : option number :=
  match s with
  | z :: r :: ((_ :: _) as d) =>
      if (z =? code "0")%N then
        if ((r =? code "x") || (r =? code "X"))%N then
          if forallb is_hex_digit d
          then Some (round_double (inject_Z (radix_value 16 d))) else None
        else if ((r =? code "o") || (r =? code "O"))%N then
          if forallb is_octal_digit d
          then Some (round_double (inject_Z (radix_value 8 d))) else None
        else if ((r =? code "b") || (r =? code "B"))%N then
          if forallb is_binary_digit d
          then Some (round_double (inject_Z (radix_value 2 d))) else None
        else None
      else None
  | _ => None
  end.

(** The [ExponentPart] that ends a literal: nothing, or an indicator, an
    optional sign and digits up to the end. *)
Definition whole_exponent (s : jsstring) : option Z :=
  match s with
  | [] => Some 0%Z
  | c :: t =>
      if (c =? code "e")%N || (c =? code "E")%N then
        let '(neg, t') := read_sign t in
        match span_digits t' with
        | ((_ :: _) as d, []) => Some (if neg then (- digits_value d)%Z else digits_value d)
        | _ => None
        end
      else None
  end.

(** A [StrDecimalLiteral] that takes up the whole text. *)
Definition decimal_literal (s : jsstring) : option number :=
  let '(neg, s1) := read_sign s in
  if jsstring_eqb s1 (str "Infinity") then Some (Inf neg)
  else
    let '(ip, s2) := span_digits s1 in
    let '(fp, s3) :=
      match s2 with
      | c :: t => if (c =? code ".")%N then span_digits t else ([], s2)
      | [] => ([], s2)
      end in
    match ip, fp with
    | [], [] => None
    | _, _ =>
        match whole_exponent s3 with
        | Some e =>
            let mant := (inject_Z (digits_value (ip ++ fp))
                         * Qpower 10 (- Z.of_nat (length fp)))%Q in
            let v := (mant * Qpower 10 e)%Q in
            Some (round_double (if neg then - v else v))
        | None => None
        end
    end.

(** [Number(text)]: white space at both ends is dropped; the empty text
    is 0; otherwise the whole text has to be a numeric literal. *)
Definition Number (s : jsstring) : number :=
  match trim s with
  | [] => Fin 0
  | t =>
      match non_decimal_literal t with
      | Some n => n
      | None => default NaN (decimal_literal t)
      end
  end.

End Conversions.

(** frontend/src/components/ControlSystemInput.jsx *)
Module ControlSystemInput.
Import JS Conversions.

Record state := {
  numerator : jsstring;
  denominator : jsstring;
  error : option string
}.

Definition setError (e : option string) (st : state) : state :=
  {| numerator := numerator st; denominator := denominator st; error := e |}.

Inductive call :=
| OnAnalyze (num den : list number).

Definition invalid_coefficient_message : string := "系数必须是有效的数字。".

Definition handleAnalyze (has_onAnalyze : bool) (st : state) : state * list call :=
  let st := setError None st in
  let num := List.map Number (split (code ",") (numerator st)) in
  let den := List.map Number (split (code ",") (denominator st)) in
  if existsb number_isNaN num || existsb number_isNaN den
  then (setError (Some invalid_coefficient_message) st, [])
  else if has_onAnalyze then (st, [OnAnalyze num den])
  else (st, []).

End ControlSystemInput.

(* ===================================================================== *)
(** * Arithmetic and [Math] *)
(* ===================================================================== *)

Module JSMath.
Import JS.

(** [-x] *)
Definition number_neg (x : number) : number :=
  match x with
  | NaN => NaN
  | Inf s => Inf (negb s)
  | Fin q => Fin (- q)
  end.

(** [Math.abs(x)] *)
Definition abs (x : number) : number :=
  match x with
  | NaN => NaN
  | Inf _ => Inf false
  | Fin q => Fin (Qabs q)
  end.

(** [a <= b] for numbers that are not NaN. *)
Definition number_leb (a b : number) : bool :=
  match a, b with
  | NaN, _ | _, NaN => false
  | Inf true, _ => true
  | _, Inf false => true
  | Inf false, _ => false
  | _, Inf true => false
  | Fin x, Fin y => Qle_bool x y
  end.

(** [Math.max(a, b)] and [Math.min(a, b)]: NaN if either is NaN. *)
Definition max2 (a b : number) : number :=
  match a, b with
  | NaN, _ | _, NaN => NaN
  | _, _ => if number_leb a b then b else a
  end.

Definition min2 (a b : number) : number :=
  match a, b with
  | NaN, _ | _, NaN => NaN
  | _, _ => if number_leb a b then a else b
  end.

(** [ToNumber] as [Math.max] and [Math.min] apply it to an argument:
    a string is read as a numeric literal. *)
Definition ToNumber (v : value) : number :=
  match v with
  | VStr s => Conversions.Number s
  | _ => to_number v
  end.

(** [Math.max(...data)] and [Math.min(...data)]: every element is
    converted to a number; without elements the results are [-Infinity]
    and [Infinity].  The limit an engine puts on the number of spread
    arguments is not modelled. *)
Definition max_of (data : list value) : number :=
  fold_left (fun acc v => max2 acc (ToNumber v)) data (Inf true).

Definition min_of (data : list value) : number :=
  fold_left (fun acc v => min2 acc (ToNumber v)) data (Inf false).

Definition is_negative (q : Q) : bool := negb (Qle_bool 0 q).

(** [a * b], rounded to the nearest double. *)
Definition number_mul (a b : number) : number :=
  match a, b with
  | NaN, _ | _, NaN => NaN
  | Fin x, Fin y => round_double (x * y)
  | Inf s, Fin y | Fin y, Inf s =>
      if Qeq_bool y 0 then NaN else Inf (xorb s (is_negative y))
  | Inf s, Inf t => Inf (xorb s t)
  end.

(** [a / b], rounded to the nearest double.  The sign of a zero is not
    recorded, and a zero divisor is taken as [+0]; the client code
    divides by literals other than zero only. *)
Definition number_div (a b : number) : number :=
  match a, b with
  | NaN, _ | _, NaN => NaN
  | Inf _, Inf _ => NaN
  | Inf s, Fin y => Inf (xorb s (is_negative y))
  | Fin _, Inf _ => Fin 0
  | Fin x, Fin y =>
      if Qeq_bool y 0 then (if Qeq_bool x 0 then NaN else Inf (is_negative x))
      else round_double (x / y)
  end.

(** A decimal literal of the program text. *)
Definition literal (q : Q) : number := round_double q.

End JSMath.

(* ===================================================================== *)
(** * The result components, continued *)
(* ===================================================================== *)

(** frontend/src/components/RootLocusResult.jsx: the axis ranges that
    the plotting effect computes. *)
Module RootLocusPlot.
Import JS JSMath ControlSystemUtils.

Module R := RootLocusResult.

Definition coordinates (k : string) (pts : option (list object)) : list value :=
  match pts with
  | Some l => List.map (fun p => get p k) l
  | None => []
  end.

(** [allX]: the abscissas of the poles, zeros, break points and
    crossings that are there, then those of every branch. *)
Definition allX (result : R.result) (branches : list R.branch) : list value :=
  coordinates "x" (R.poles result) ++ coordinates "x" (R.zeros result)
  ++ coordinates "x" (R.breakaway_points result)
  ++ coordinates "x" (R.imag_axis_crossings result)
  ++ concat (List.map R.x branches).

Definition allY (result : R.result) (branches : list R.branch) : list value :=
  coordinates "y" (R.poles result) ++ coordinates "y" (R.zeros result)
  ++ coordinates "y" (R.breakaway_points result)
  ++ coordinates "y" (R.imag_axis_crossings result)
  ++ concat (List.map R.y branches).

(** [getRange(data)]: an interval symmetric about zero. *)
Definition getRange (data : list value) : number * number :=
  match data with
  | [] => (literal (- (5 # 10)), literal (5 # 10))
  | _ :: _ =>
      let minVal := min_of data in
      let maxVal := max_of data in
      let maxAbsValue := max2 (abs minVal) (abs maxVal) in
      let rangeValue := max2 (number_mul maxAbsValue (literal (12 # 10))) (literal 5) in
      let rangeValue := number_div rangeValue (literal 10) in
      let rangeValue := max2 rangeValue (literal (5 # 10)) in
      (number_neg rangeValue, rangeValue)
  end.

(** The ranges of the two axes, computed when the response and its
    branches are there. *)
Definition xRange (r : option R.result) : option (number * number) :=
  result ← r; branches ← R.branches result;
  Some (getRange (allX result branches)).

Definition yRange (r : option R.result) : option (number * number) :=
  result ← r; branches ← R.branches result;
  Some (getRange (allY result branches)).

End RootLocusPlot.

(** frontend/src/components/RootLocusResult.jsx: the details that the
    component returns under the plot. *)
Module RootLocusDetails.
Import JS View ControlSystemUtils.

Record asymptote_data := {
  centroid : value;
  angles : option (list value)
}.

(** The response: the fields of the plot, the message and the
    asymptotes. *)
Record result := {
  plot : RootLocusResult.result;
  message : value;
  asymptotes : option asymptote_data
}.

Inductive detail :=
| Message (m : value)
| RawNumber (n : number)
| BranchCount (n : nat)
| Asymptotes (centroid : text) (angles : list text)
| BreakPoints (points : list (text * text))
| NoBreakPoint
| Crossings (points : list (text * text * text)).

(** [typeof v === 'number' ? v.toFixed(digits) : 'N/A'] *)
Definition fixed_or_na (v : value) (digits : nat) : text :=
  match v with
  | VNum n => Fixed n digits
  | _ => Lit "N/A"
  end.

Definition break_point (p : object) : completion (text * text) :=
  x ← toFixed (get p "x") 3; y ← toFixed (get p "y") 3; mret (x, y).

Definition crossing (p : object) : completion (text * text * text) :=
  x ← toFixed (get p "x") 3; y ← toFixed (get p "y") 3;
  k ← toFixed (get p "k") 3; mret (x, y, k).

(** [arr.map(f)] for a callback that may throw: the first failure ends
    the loop. *)
Fixpoint map_throwing {A B} (f : A -> completion B) (l : list A)
    : completion (list B) :=
  match l with
  | [] => mret []
  | a :: t => b ← f a; bs ← map_throwing f t; mret (b :: bs)
  end.

Definition render (r : option result) : completion (list detail) :=
  match r with
  | None => mret []
  | Some result =>
      let d1 := and_element (message result) (Message (message result)) RawNumber in
      let d2 := match RootLocusResult.branches (plot result) with
                | Some bs => [BranchCount (length bs)]
                | None => []
                end in
      let d3 := match asymptotes result with
                | Some a =>
                    [Asymptotes (fixed_or_na (centroid a) 3)
                       match angles a with
                       | Some l => List.map (fun v => fixed_or_na v 2) l
                       | None => [Lit "N/A"]
                       end]
                | None => []
                end in
      d4 ← match RootLocusResult.breakaway_points (plot result) with
           | Some [] => mret [NoBreakPoint]
           | Some l => pts ← map_throwing break_point l; mret [BreakPoints pts]
           | None => mret []
           end;
      d5 ← match RootLocusResult.imag_axis_crossings (plot result) with
           | Some [] => mret []
           | Some l => pts ← map_throwing crossing l; mret [Crossings pts]
           | None => mret []
           end;
      mret (d1 ++ d2 ++ d3 ++ d4 ++ d5)
  end.

End RootLocusDetails.

(** frontend/src/components/FrequencyDomainResult.jsx: the traces of
    the Bode plots that the plotting effect builds. *)
Module FrequencyDomainPlots.
Import JS.

Record bode_data := {
  omega : option (list value);
  magnitude_db : option (list value);
  phase_deg : option (list value);
  asymptote_omega : option (list value);
  asymptote_magnitude_db : option (list value)
}.

(** [(arr || []).filter(val => val !== null)] *)
Definition filterNoneValues (arr : option (list value)) : list value :=
  List.filter is_not_null (default [] arr).

Record trace := {
  x : list value;
  y : list value
}.

Definition bodeMagnitudeTrace (bode : bode_data) : trace :=
  {| x := filterNoneValues (omega bode); y := filterNoneValues (magnitude_db bode) |}.

Definition bodeAsymptoteTrace (bode : bode_data) : trace :=
  {| x := filterNoneValues (asymptote_omega bode);
     y := filterNoneValues (asymptote_magnitude_db bode) |}.

Definition bodePhaseTrace (bode : bode_data) : trace :=
  {| x := filterNoneValues (omega bode); y := filterNoneValues (phase_deg bode) |}.

End FrequencyDomainPlots.

(* ===================================================================== *)
(** * frontend/src/services/api.js *)
(* ===================================================================== *)

Module Api.
Import JS.

Definition API_BASE_URL : string := "http://localhost:8000".

(** The argument of [fetch], with the body before [JSON.stringify]. *)
Record request (B : Type) := {
  url : string;
  method : string;
  content_type : string;
  body : B
}.
Arguments url {B} _.
Arguments method {B} _.
Arguments content_type {B} _.
Arguments body {B} _.

(** What [fetch] resolves to: [ok], [status] and the outcome of
    [response.json()], which may reject; the body that it parses is
    [None] for the JSON text [null]. *)
Record response (A : Type) := {
  ok : bool;
  status : nat;
  json : completion (option A)
}.
Arguments ok {A} _.
Arguments status {A} _.
Arguments json {A} _.

Definition unknown_error_message : string := "An unknown error occurred.".

Section Requests.
Context {A B : Type}.
(** The network; [fetch] itself may reject. *)
Variable fetch : request B -> completion (response A).
(** [errorData.detail] of a body that is not [null]: [Some t] when the
    property is truthy, [t] being the message that [new Error] makes of
    it; [None] when it is absent or falsy. *)
Variable detail : A -> option string.
(** The message of the [TypeError] that reading a property of [null]
    raises; its wording is the engine's. *)
Variable null_property_message : string.

Definition apiRequest (req : request B) : completion (option A) :=
  response ← fetch req;
  if negb (ok response) then
    match json response with
    | Throw _ => Throw unknown_error_message
    | Normal None => Throw null_property_message
    | Normal (Some errorData) =>
        match detail errorData with
        | Some message => Throw message
        | None => Throw ("HTTP error! status: " +:+ pretty (status response))
        end
    end
  else json response.

Definition designLagCompensator (data : B) : completion (option A) :=
  apiRequest {| url := API_BASE_URL +:+ "/compensation/design_lag_compensator";
                method := "POST";
                content_type := "application/json";
                body := data |}.
End Requests.

End Api.

(** frontend/src/components/LagCompensation.jsx: the handler of the
    design button. *)
Module LagCompensation.
Import JS.

(** The body of the request. *)
Record design_data := {
  numerator : list number;
  denominator : list number;
  desired_kv : number
}.

Record state (A : Type) := {
  numeratorText : jsstring;
  denominatorText : jsstring;
  desiredKv : jsstring;
  result : option A;
  loading : bool;
  error : option string
}.
Arguments numeratorText {A} _.
Arguments denominatorText {A} _.
Arguments desiredKv {A} _.
Arguments result {A} _.
Arguments loading {A} _.
Arguments error {A} _.

Definition invalid_input_message : string :=
  "请输入有效的传递函数系数和期望的Kv值。".
Definition unknown_design_error : string := "设计过程中发生未知错误。".

(** [text.split(',').map(s => parseFloat(s.trim())).filter(n => !isNaN(n))] *)
Definition parse_coefficients (text : jsstring) : list number :=
  List.filter (fun n => negb (number_isNaN n))
    (List.map (fun s => parseFloat (trim s)) (split (code ",") text)).

(** [err.message || fallback] *)
Definition message_or (m fallback : string) : string :=
  match m with
  | EmptyString => fallback
  | _ => m
  end.

Section Handler.
Context {A : Type}.
Variable fetch : Api.request design_data -> completion (Api.response A).
Variable detail : A -> option string.
Variable null_property_message : string.

Definition setLoading (b : bool) (st : state A) : state A :=
  {| numeratorText := numeratorText st; denominatorText := denominatorText st;
     desiredKv := desiredKv st; result := result st; loading := b;
     error := error st |}.

Definition setError (e : option string) (st : state A) : state A :=
  {| numeratorText := numeratorText st; denominatorText := denominatorText st;
     desiredKv := desiredKv st; result := result st; loading := loading st;
     error := e |}.

Definition setResult (r : option A) (st : state A) : state A :=
  {| numeratorText := numeratorText st; denominatorText := denominatorText st;
     desiredKv := desiredKv st; result := r; loading := loading st;
     error := error st |}.

(** [handleDesign]: the state when the handler has finished, and the
    bodies of the requests it has sent.  [setResult(response)] stores
    the body as it is: for the body [null] the result stays [null]. *)
Definition handleDesign (st : state A) : state A * list design_data :=
  let st := setResult None (setError None (setLoading true st)) in
  let num_coeffs := parse_coefficients (numeratorText st) in
  let den_coeffs := parse_coefficients (denominatorText st) in
  let kv := parseFloat (desiredKv st) in
  let '(outcome, sent) :=
    if (length num_coeffs =? 0)%nat || (length den_coeffs =? 0)%nat || number_isNaN kv
    then (Throw invalid_input_message, [])
    else
      let data := {| numerator := num_coeffs; denominator := den_coeffs;
                     desired_kv := kv |} in
      (Api.designLagCompensator fetch detail null_property_message data, [data]) in
  let st :=
    match outcome with
    | Normal response => setResult response st
    | Throw m => setError (Some (message_or m unknown_design_error)) st
    end in
  (setLoading false st, sent).
End Handler.

End LagCompensation.

(** The [FrequencyAnalysis] component: from coefficient texts to the
    zeros and poles it sends. *)
Module FrequencyAnalysisInput.
Import JS ParsingUtils.

Definition zero_denominator_message : string := "分母多项式不能为零！".
Definition invalid_denominator_message : string := "分母系数不能全部无效。".

(** [arr.length === 0 || (arr.length === 1 && arr[0] === 0)] *)
Definition isZeroArray (arr : list number) : bool :=
  match arr with
  | [] => true
  | [a] => number_is_zero a
  | _ => false
  end.

(** [parseCoeffs]: an empty text stands for [[1]]; tokens that are no
    numbers are dropped. *)
Definition parseCoeffs (text : jsstring) : list number :=
  match trim text with
  | [] => [Fin 1]
  | _ :: _ =>
      List.filter (fun n => negb (number_isNaN n))
        (List.map (fun s => parseFloat (trim s)) (split (code ",") text))
  end.

Section Roots.
(** The root finder of the package the component loads: the roots
    [(re, im)] of the polynomial with the given coefficients; loading
    the package or the call may throw. *)
Variable numpyPolyRoots : list number -> completion (list (number * number)).

Definition roots_as_points (coeffs : list number) : completion (list parsed) :=
  roots ← numpyPolyRoots coeffs;
  mret (List.map (fun z => Complex z.1 z.2) roots).

Definition _coeffs_to_zeros_poles (numCoeffs denCoeffs : list number)
    : completion (list parsed * list parsed) :=
  zeros ← (if isZeroArray numCoeffs then mret [Complex (Fin 0) (Fin 0)]
           else roots_as_points numCoeffs);
  if isZeroArray denCoeffs then Throw zero_denominator_message
  else
    poles ← roots_as_points denCoeffs;
    mret (zeros, poles).

(** What [handleAnalyze] passes to the API function, or the error it
    stops with before. *)
Definition zeros_and_poles (numCoeffs denCoeffs : jsstring)
    : completion (list parsed * list parsed) :=
  let num := parseCoeffs numCoeffs in
  let den := parseCoeffs denCoeffs in
  if (length den =? 0)%nat then Throw invalid_denominator_message
  else _coeffs_to_zeros_poles num den.
End Roots.

End FrequencyAnalysisInput.

(* ===================================================================== *)
(** * Properties of the run time *)
(* ===================================================================== *)

Module RegexFacts.
Import JS.

(** The declarative reading of a pattern: [matches r s caps s' caps']
    when [r] can consume a prefix of [s], leaving [s'], and turn the
    captures [caps] into [caps']. *)
Inductive matches : regex -> jsstring -> captures -> jsstring -> captures -> Prop :=
| matches_chars p c t caps :
    p c = true -> matches (Chars p) (c :: t) caps t caps
| matches_seq r1 r2 s caps s1 caps1 s2 caps2 :
    matches r1 s caps s1 caps1 -> matches r2 s1 caps1 s2 caps2 ->
    matches (Seq r1 r2) s caps s2 caps2
| matches_opt_take r s caps s' caps' :
    matches r s caps s' caps' -> matches (Opt r) s caps s' caps'
| matches_opt_skip r s caps :
    matches (Opt r) s caps s caps
| matches_plus p c pre s' caps :
    p c = true -> Forall (fun d => p d = true) pre ->
    matches (PlusChars p) (c :: pre ++ s') caps s' caps
| matches_group i r s caps s' caps' :
    matches r s caps s' caps' ->
    matches (Group i r) s caps s' (<[i := consumed s s']> caps').

Lemma star_chars_sound p s caps k res :
  star_chars p s caps k = Some res ->
  exists pre s', s = pre ++ s' /\ Forall (fun d => p d = true) pre /\ k s' caps = Some res.
Proof.
  induction s as [|c t IH]; simpl; intros H.
  - by exists [], [].
  - destruct (p c) eqn:Hc.
    + destruct (star_chars p t caps k) eqn:Hstar.
      * inversion H; subst. destruct (IH eq_refl) as (pre & s' & -> & Hpre & Hk).
        exists (c :: pre), s'. split_and!; [done|by constructor|done].
      * by exists [], (c :: t).
    + by exists [], (c :: t).
Qed.

(** Whatever the matcher finds is a match in the declarative sense. *)
Lemma run_sound r : forall s caps k res,
  run r s caps k = Some res ->
  exists s' caps', matches r s caps s' caps' /\ k s' caps' = Some res.
Proof.
  induction r as [p|r1 IH1 r2 IH2|r IH|p|i r IH]; simpl; intros s caps k res H.
  - destruct s as [|c t]; [discriminate|].
    destruct (p c) eqn:Hc; [|discriminate].
    exists t, caps. split; [by constructor|done].
  - apply IH1 in H as (s1 & caps1 & H1 & H).
    apply IH2 in H as (s2 & caps2 & H2 & H).
    exists s2, caps2. split; [by econstructor|done].
  - destruct (run r s caps k) eqn:Hr.
    + inversion H; subst. apply IH in Hr as (s' & caps' & Hm & Hk).
      exists s', caps'. split; [by constructor|done].
    + exists s, caps. split; [apply matches_opt_skip|done].
  - destruct s as [|c t]; [discriminate|].
    destruct (p c) eqn:Hc; [|discriminate].
    apply star_chars_sound in H as (pre & s' & -> & Hpre & Hk).
    exists s', caps. split; [by constructor|done].
  - apply IH in H as (s' & caps' & Hm & Hk).
    exists s', (<[i := consumed s s']> caps'). split; [by constructor|done].
Qed.

(** A match consumes a prefix of the input. *)
Lemma matches_prefix r s caps s' caps' :
  matches r s caps s' caps' -> exists pre, s = pre ++ s'.
Proof.
  induction 1 as [p c t caps Hc|r1 r2 s caps s1 caps1 s2 caps2 _ [p1 ->] _ [p2 ->]
                 |r s caps s' caps' _ IH|r s caps|p c pre s' caps Hc Hpre
                 |i r s caps s' caps' _ IH].
  - by exists [c].
  - exists (p1 ++ p2). by rewrite <- app_assoc.
  - done.
  - by exists [].
  - by exists (c :: pre).
  - done.
Qed.

Lemma consumed_app (pre s' : jsstring) : consumed (pre ++ s') s' = pre.
Proof.
  unfold consumed. rewrite length_app.
  replace (length pre + length s' - length s')%nat with (length pre) by lia.
  by rewrite take_app_length.
Qed.

Lemma regex_match_sound r s m :
  regex_match r s = Some m -> exists caps, matches r s ∅ [] caps /\ caps = m.
Proof.
  unfold regex_match. intros H.
  apply run_sound in H as (s' & caps' & Hm & Hk).
  destruct s'; [|discriminate]. inversion Hk; subst. eauto.
Qed.

(** Inversion principles, one for each form of pattern. *)
Lemma matches_chars_inv p s caps s' caps' :
  matches (Chars p) s caps s' caps' ->
  exists c, s = c :: s' /\ p c = true /\ caps' = caps.
Proof. intros H. inversion H; subst. eauto. Qed.

Lemma matches_plus_inv p s caps s' caps' :
  matches (PlusChars p) s caps s' caps' ->
  exists c pre, s = c :: pre ++ s' /\ p c = true
                /\ Forall (fun d => p d = true) pre /\ caps' = caps.
Proof. intros H. inversion H; subst. eauto 10. Qed.

Lemma matches_seq_inv r1 r2 s caps s' caps' :
  matches (Seq r1 r2) s caps s' caps' ->
  exists s1 caps1, matches r1 s caps s1 caps1 /\ matches r2 s1 caps1 s' caps'.
Proof. intros H. inversion H; subst. eauto. Qed.

Lemma matches_opt_inv r s caps s' caps' :
  matches (Opt r) s caps s' caps' ->
  matches r s caps s' caps' \/ (s' = s /\ caps' = caps).
Proof. intros H. inversion H; subst; auto. Qed.

Lemma matches_group_inv i r s caps s' caps' :
  matches (Group i r) s caps s' caps' ->
  exists caps0, matches r s caps s' caps0 /\ caps' = <[i := consumed s s']> caps0.
Proof. intros H. inversion H; subst. eauto. Qed.

End RegexFacts.

(* ===================================================================== *)
(** * Properties of parseComplexNumbers *)
(* ===================================================================== *)

Module ParsingFacts.
Import JS ParsingUtils RegexFacts.

Definition all_in (p : char16 -> bool) (s : jsstring) : Prop :=
  Forall (fun d => p d = true) s.

(** The texts that group 1 can capture: [-?[0-9\\.]+]. *)
Definition real_shape (g : jsstring) : Prop :=
  exists sg ds, g = sg ++ ds /\ (sg = [] \/ sg = [code "-"])
                /\ ds <> [] /\ all_in digit_or_dot ds.

(** The texts that group 2 can capture: [[+-]?[0-9\\.]+j]. *)
Definition imag_shape (g : jsstring) : Prop :=
  exists sg ds, g = sg ++ ds ++ [code "j"]
                /\ (sg = [] \/ sg = [code "+"] \/ sg = [code "-"])
                /\ ds <> [] /\ all_in digit_or_dot ds.

Lemma is_char_spec a c : is_char a c = true <-> c = code a.
Proof. unfold is_char. apply N.eqb_eq. Qed.

Lemma plus_or_minus_spec c :
  plus_or_minus c = true <-> c = code "+" \/ c = code "-".
Proof.
  unfold plus_or_minus. rewrite orb_true_iff, !is_char_spec. tauto.
Qed.

Lemma matches_real_token s caps s' caps' :
  matches (Seq (Opt (Chars (is_char "-"))) (PlusChars digit_or_dot)) s caps s' caps' ->
  caps' = caps /\ exists g, s = g ++ s' /\ real_shape g.
Proof.
  intros H. apply matches_seq_inv in H as (s1 & caps1 & Hsign & Hdigits).
  apply matches_plus_inv in Hdigits as (c & pre & -> & Hc & Hpre & ->).
  assert (Hds : all_in digit_or_dot (c :: pre)) by by constructor.
  apply matches_opt_inv in Hsign as [Hsign|[<- ->]].
  - apply matches_chars_inv in Hsign as (sg & -> & Hsg & ->).
    apply is_char_spec in Hsg as ->.
    split; [done|]. exists (code "-" :: c :: pre). split; [done|].
    exists [code "-"], (c :: pre). split_and!; [done|by right|done|done].
  - split; [done|]. exists (c :: pre). split; [done|].
    exists [], (c :: pre). split_and!; [done|by left|done|done].
Qed.

Lemma matches_imag_token s caps s' caps' :
  matches (Seq (Opt (Chars plus_or_minus))
               (Seq (PlusChars digit_or_dot) (Chars (is_char "j")))) s caps s' caps' ->
  caps' = caps /\ exists g, s = g ++ s' /\ imag_shape g.
Proof.
  intros H. apply matches_seq_inv in H as (s1 & caps1 & Hsign & H).
  apply matches_seq_inv in H as (s2 & caps2 & Hdigits & Hj).
  apply matches_chars_inv in Hj as (j & -> & Hj & ->).
  apply is_char_spec in Hj as ->.
  apply matches_plus_inv in Hdigits as (c & pre & -> & Hc & Hpre & ->).
  assert (Hds : all_in digit_or_dot (c :: pre)) by by constructor.
  apply matches_opt_inv in Hsign as [Hsign|[<- ->]].
  - apply matches_chars_inv in Hsign as (sg & -> & Hsg & ->).
    apply plus_or_minus_spec in Hsg.
    split; [done|]. exists (sg :: (c :: pre) ++ [code "j"]). split.
    { simpl. by rewrite <- app_assoc. }
    exists [sg], (c :: pre).
    split_and!; [done| |done|done].
    destruct Hsg as [->| ->]; auto.
  - split; [done|]. exists ((c :: pre) ++ [code "j"]). split.
    { simpl. by rewrite <- app_assoc. }
    exists [], (c :: pre).
    split_and!; [done|by left|done|done].
Qed.

(** The shape of every successful match of the pattern: the token is
    the text of group 1 followed by the text of group 2, each of the
    form of its sub-pattern. *)
Lemma complex_match_shape part m :
  regex_match complex_re part = Some m ->
  part = default [] (m !! 1%nat) ++ default [] (m !! 2%nat)
  /\ (forall g, m !! 1%nat = Some g -> real_shape g)
  /\ (forall g, m !! 2%nat = Some g -> imag_shape g).
Proof.
  intros H. apply regex_match_sound in H as (caps & H & <-).
  unfold complex_re in H.
  apply matches_seq_inv in H as (s1 & caps1 & H1 & H2).
  apply matches_opt_inv in H1 as [G1|[-> ->]];
  apply matches_opt_inv in H2 as [G2|[E2 ->]]; try subst s1.
  - apply matches_group_inv in G1 as (c1 & G1 & ->).
    apply matches_group_inv in G2 as (c2 & G2 & ->).
    apply matches_real_token in G1 as (-> & g1 & -> & Hg1).
    apply matches_imag_token in G2 as (-> & g2 & -> & Hg2).
    rewrite !consumed_app, app_nil_r.
    rewrite lookup_insert_eq, lookup_insert_ne, lookup_insert_eq by done. simpl.
    split_and!; [done| |]; intros g [= <-]; done.
  - apply matches_group_inv in G1 as (c1 & G1 & ->).
    apply matches_real_token in G1 as (-> & g1 & -> & Hg1).
    rewrite !consumed_app, app_nil_r.
    rewrite lookup_insert_eq, lookup_insert_ne, lookup_empty by done. simpl.
    rewrite app_nil_r.
    split_and!; [done| |]; [intros g [= <-]; done|intros g [=]].
  - apply matches_group_inv in G2 as (c2 & G2 & ->).
    apply matches_imag_token in G2 as (-> & g2 & -> & Hg2).
    rewrite !consumed_app, app_nil_r.
    rewrite lookup_insert_eq, lookup_insert_ne, lookup_empty by done. simpl.
    split_and!; [done| |]; [intros g [=]|intros g [= <-]; done].
  - rewrite !lookup_empty. simpl. split_and!; [done| |]; intros g [=].
Qed.

(** The parser at work.  A token of digits before [j] is split by the
    pattern between the two groups: group 1, tried first, keeps all but
    the last digit. *)
Example parse_list :
  parseComplexNumbers (str "-1, -2+3j, -2-3j")
  = Normal [Complex (Fin (-1)) (Fin 0); Complex (Fin (-2)) (Fin 3);
            Complex (Fin (-2)) (Fin (-3))].
Proof. reflexivity. Qed.

Example parse_imaginary : parseComplexNumbers (str "5j") = Normal [Complex (Fin 0) (Fin 5)].
Proof. reflexivity. Qed.

Example parse_two_digits : parseComplexNumbers (str "12j") = Normal [Complex (Fin 1) (Fin 2)].
Proof. reflexivity. Qed.

Example parse_empty_token :
  parseComplexNumbers (str "1,") = Normal [Complex (Fin 1) (Fin 0); Complex (Fin 0) (Fin 0)].
Proof. reflexivity. Qed.

Example parse_blank : parseComplexNumbers (str "   ") = Normal [].
Proof. reflexivity. Qed.

Example parse_dots : parseComplexNumbers (str "..") = Throw invalid_format_message.
Proof. reflexivity. Qed.

(** ** Blank input, tokens *)

Lemma trim_start_blank s :
  trim_start s = [] <-> Forall (fun c => is_white_space c = true) s.
Proof.
  induction s as [|c t IH]; simpl.
  - split; [constructor|done].
  - destruct (is_white_space c) eqn:Hc.
    + rewrite IH. split; [by constructor|by inversion 1].
    + split; [done|]. inversion 1; congruence.
Qed.

Lemma trim_start_head s c t :
  trim_start s = c :: t -> is_white_space c = false.
Proof.
  induction s as [|d u IH]; simpl; [done|].
  destruct (is_white_space d) eqn:Hd; [done|]. by intros [= <- <-].
Qed.

Lemma trim_start_suffix s : exists ws, s = ws ++ trim_start s.
Proof.
  induction s as [|c t [ws IH]]; simpl.
  - by exists [].
  - destruct (is_white_space c).
    + exists (c :: ws). simpl. by f_equal.
    + by exists [].
Qed.

(** [input.trim()] is empty exactly for an input of white space
    only. *)
Lemma trim_blank s :
  trim s = [] <-> Forall (fun c => is_white_space c = true) s.
Proof.
  unfold trim, trim_end. split.
  - intros H. apply (f_equal (@rev _)) in H. rewrite rev_involutive in H. simpl in H.
    apply trim_start_blank, Forall_rev in H. rewrite rev_involutive in H.
    destruct (trim_start s) as [|c t] eqn:Hs; [by apply trim_start_blank|].
    apply trim_start_head in Hs. inversion H; congruence.
  - intros H. apply trim_start_blank in H. by rewrite H.
Qed.

Lemma split_not_nil sep s : split sep s <> [].
Proof.
  destruct s as [|c t]; simpl; [done|].
  destruct (c =? sep)%N; [done|]. by destruct (split sep t).
Qed.

Lemma split_no_separator sep s :
  Forall (fun c => c <> sep) s -> split sep s = [s].
Proof.
  induction 1 as [|c t Hc _ IH]; simpl; [done|].
  apply N.eqb_neq in Hc. by rewrite Hc, IH.
Qed.

(** A blank input has the empty token as its only token. *)
Lemma parts_of_blank input : trim input = [] -> parts_of input = [[]].
Proof.
  intros H. unfold parts_of. rewrite split_no_separator; simpl; [by rewrite H|].
  apply trim_blank in H. eapply Forall_impl; [exact H|].
  intros c Hc ->. discriminate.
Qed.

Lemma parts_of_not_nil input : parts_of input <> [].
Proof.
  unfold parts_of. pose proof (split_not_nil (code ",") input).
  by destruct (split (code ",") input).
Qed.

(** The parser returns the empty list only for a blank input. *)
Lemma parse_empty_iff input :
  parseComplexNumbers input = Normal [] <-> trim input = [].
Proof.
  unfold parseComplexNumbers. split.
  - destruct (trim input); [done|].
    destruct (existsb _ _); [done|]. intros [= H].
    apply List.map_eq_nil in H. by apply parts_of_not_nil in H.
  - by intros ->.
Qed.

(** The outcomes of the parser: the empty list, the parsed tokens, or
    the one error it throws. *)
Lemma parse_outcomes input :
  parseComplexNumbers input = Throw invalid_format_message
  \/ exists l, parseComplexNumbers input = Normal l
               /\ Forall (fun c => exists re im, c = Complex re im
                                     /\ re <> NaN /\ im <> NaN) l.
Proof.
  unfold parseComplexNumbers. destruct (trim input) as [|x xs]; [right; by exists []|].
  destruct (existsb _ _) eqn:He; [by left|right].
  eexists. split; [done|].
  apply List.Forall_forall. intros c Hc.
  assert (isNaN (get_real c) || isNaN (get_imag c) = false) as Hn.
  { destruct (isNaN (get_real c) || isNaN (get_imag c)) eqn:E; [|done].
    rewrite <- He. symmetry. apply existsb_exists. eauto. }
  apply orb_false_iff in Hn as [Hr Hi].
  destruct c as [|re im]; [done|]. exists re, im.
  split_and!; [done|by intros ->|by intros ->].
Qed.

(** ** Tokens with a bare imaginary unit *)

(** A token that ends in [j] with no digit or dot just before it: [j],
    [+j], [-j], [1+j], ... *)
Definition bare_j (tok : jsstring) : bool :=
  match rev tok with
  | c :: rest =>
      is_char "j" c
      && match rest with
         | [] => true
         | d :: _ => negb (digit_or_dot d)
         end
  | [] => false
  end.

Lemma nonempty_last (ds : jsstring) :
  ds <> [] -> exists ds' d, ds = ds' ++ [d].
Proof. destruct ds as [|d ds' _] using rev_ind; [done|eauto]. Qed.

Lemma all_in_last p ds d : all_in p (ds ++ [d]) -> p d = true.
Proof. intros H. apply Forall_app in H as [_ H]. by inversion H. Qed.

Lemma bare_j_no_match tok :
  bare_j tok = true -> regex_match complex_re tok = None.
Proof.
  intros Hb. destruct (regex_match complex_re tok) as [m|] eqn:Hm; [exfalso|done].
  apply complex_match_shape in Hm as (Htok & H1 & H2).
  destruct (m !! 2%nat) as [g2|] eqn:E2.
  - destruct (H2 g2 eq_refl) as (sg & ds & -> & _ & Hne & Hds).
    apply nonempty_last in Hne as (ds' & d & ->).
    apply all_in_last in Hds. simpl in Htok.
    assert (tok = (default [] (m !! 1%nat) ++ sg ++ ds') ++ [d; code "j"]) as ->.
    { rewrite Htok, <- !app_assoc. done. }
    unfold bare_j in Hb. rewrite rev_app_distr in Hb. simpl in Hb.
    rewrite Hds in Hb. simpl in Hb. rewrite ?andb_false_r in Hb. discriminate.
  - simpl in Htok. rewrite app_nil_r in Htok.
    destruct (m !! 1%nat) as [g1|] eqn:E1; simpl in Htok; [|by subst tok].
    destruct (H1 g1 eq_refl) as (sg & ds & -> & _ & Hne & Hds).
    apply nonempty_last in Hne as (ds' & d & ->).
    apply all_in_last in Hds.
    assert (tok = (sg ++ ds') ++ [d]) as -> by by rewrite Htok, <- !app_assoc.
    unfold bare_j in Hb. rewrite rev_app_distr in Hb. simpl in Hb.
    apply andb_true_iff in Hb as [Hj _]. apply is_char_spec in Hj as ->.
    discriminate.
Qed.

Lemma parts_have_text input tok :
  In tok (parts_of input) -> tok <> [] -> trim input <> [].
Proof.
  intros Hin Hne Hblank. rewrite (parts_of_blank _ Hblank) in Hin.
  destruct Hin as [<-|[]]. done.
Qed.

Lemma invalid_part_throws input tok :
  In tok (parts_of input) -> tok <> [] -> parse_part tok = Invalid ->
  parseComplexNumbers input = Throw invalid_format_message.
Proof.
  intros Hin Hne Hinv. unfold parseComplexNumbers.
  destruct (trim input) as [|x xs] eqn:Ht; [by apply parts_have_text in Hin|].
  replace (existsb _ _) with true; [done|].
  symmetry. apply existsb_exists. exists Invalid. split; [|done].
  rewrite <- Hinv. by apply in_map.
Qed.

(** What group 2 captures is never one of [j], [+j], [-j]: the first
    two branches of [imag_of] are not taken by the parser. *)
Lemma imag_capture_has_digits part m g :
  regex_match complex_re part = Some m -> m !! 2%nat = Some g ->
  g <> str "j" /\ g <> str "+j" /\ g <> str "-j"
  /\ imag_of g = parseFloat (remove_first (code "j") g).
Proof.
  intros Hm Hg. apply complex_match_shape in Hm as (_ & _ & H2).
  destruct (H2 g Hg) as (sg & ds & -> & Hsg & Hne & Hds).
  apply nonempty_last in Hne as (ds' & d & ->).
  apply all_in_last in Hds.
  assert (forall x, (sg ++ (ds' ++ [d]) ++ [code "j"]) = x ->
                    rev x = code "j" :: d :: rev ds' ++ rev sg) as Hrev.
  { intros x <-. rewrite !rev_app_distr. simpl. by rewrite <- ?app_assoc. }
  assert (forall x, (sg ++ (ds' ++ [d]) ++ [code "j"]) = x ->
     match rev x with _ :: e :: _ => digit_or_dot e = true | _ => False end) as Hx.
  { intros x Hx. by rewrite (Hrev x Hx). }
  assert (sg ++ (ds' ++ [d]) ++ [code "j"] <> str "j"
          /\ sg ++ (ds' ++ [d]) ++ [code "j"] <> str "+j"
          /\ sg ++ (ds' ++ [d]) ++ [code "j"] <> str "-j") as (Hj & Hpj & Hmj).
  { split_and!; intros E; apply Hx in E; vm_compute in E; done. }
  split_and!; [done..|].
  unfold imag_of, jsstring_eqb.
  rewrite !bool_decide_eq_false_2 by done. done.
Qed.

(** C9. In [parseComplexNumbers] the branch that maps the bare tokens
    [j], [+j], [-j] to an imaginary part of 1 or -1 is never reached:
    the accepting pattern wants a digit or dot before [j], so an input
    with a token whose [j] has no coefficient makes the function throw
    the invalid-format error, and whenever group 2 takes part in a match
    its text is none of the three bare tokens. *)
Theorem bare_j_is_rejected input tok :
  In tok (parts_of input) -> bare_j tok = true ->
  regex_match complex_re tok = None
  /\ parseComplexNumbers input = Throw invalid_format_message
  /\ (forall part m g,
        regex_match complex_re part = Some m -> m !! 2%nat = Some g ->
        g <> str "j" /\ g <> str "+j" /\ g <> str "-j"
        /\ imag_of g = parseFloat (remove_first (code "j") g)).
Proof.
  intros Hin Hb. pose proof (bare_j_no_match _ Hb) as Hno.
  split_and!; [done| |apply imag_capture_has_digits].
  apply (invalid_part_throws input tok); [done| |].
  - intros ->. discriminate.
  - unfold parse_part. by rewrite Hno.
Qed.

Lemma bare_j_is_rejected_witness :
  parseComplexNumbers (str "-1, j") = Throw invalid_format_message
  /\ parseComplexNumbers (str "2-j") = Throw invalid_format_message.
Proof.
  split.
  - apply (bare_j_is_rejected (str "-1, j") (str "j")); [|reflexivity].
    vm_compute. right. left. reflexivity.
  - apply (bare_j_is_rejected (str "2-j") (str "2-j")); [|reflexivity].
    vm_compute. left. reflexivity.
Defined.

End ParsingFacts.

(* ===================================================================== *)
(** * Properties of the input components *)
(* ===================================================================== *)

Module InputFacts.
Import JS ParsingUtils ParsingFacts.

Module RL := RootLocusInput.
Module FD := FrequencyDomainInput.

(** The handlers look at the text fields only: the error left by an
    earlier press plays no part. *)
Lemma root_locus_handler_reads_fields has (s1 s2 : RL.state) :
  RL.zeros s1 = RL.zeros s2 -> RL.poles s1 = RL.poles s2 ->
  RL.handleAnalyze has s1 = RL.handleAnalyze has s2.
Proof.
  destruct s1 as [z1 p1 e1], s2 as [z2 p2 e2]; simpl. intros -> ->.
  reflexivity.
Qed.

Lemma frequency_domain_handler_reads_fields has (s1 s2 : FD.state) :
  FD.zeros s1 = FD.zeros s2 -> FD.poles s1 = FD.poles s2 -> FD.gain s1 = FD.gain s2 ->
  FD.handleAnalyze has s1 = FD.handleAnalyze has s2.
Proof.
  destruct s1 as [z1 p1 g1 e1], s2 as [z2 p2 g2 e2]; simpl. intros -> -> ->.
  reflexivity.
Qed.

Lemma root_locus_handler_keeps_fields has (st : RL.state) :
  RL.zeros (RL.handleAnalyze has st).1 = RL.zeros st
  /\ RL.poles (RL.handleAnalyze has st).1 = RL.poles st.
Proof.
  unfold RL.handleAnalyze. simpl.
  destruct (parseComplexNumbers (RL.zeros st)) as [z|m]; simpl; [|done].
  destruct (parseComplexNumbers (RL.poles st)) as [p|m]; simpl; [|done].
  destruct (length p =? 0)%nat; [done|]. by destruct has.
Qed.

Lemma frequency_domain_handler_keeps_fields has (st : FD.state) :
  FD.zeros (FD.handleAnalyze has st).1 = FD.zeros st
  /\ FD.poles (FD.handleAnalyze has st).1 = FD.poles st
  /\ FD.gain (FD.handleAnalyze has st).1 = FD.gain st.
Proof.
  unfold FD.handleAnalyze. simpl.
  destruct (parseComplexNumbers (FD.zeros st)) as [z|m]; simpl; [|done].
  destruct (parseComplexNumbers (FD.poles st)) as [p|m]; simpl; [|done].
  destruct (length p =? 0)%nat; [done|].
  destruct (isNaN _); [done|]. by destruct has.
Qed.

(** C2. When the parsed pole list is empty, the handler of the
    root-locus input and the handler of the frequency-domain input set
    a readable error and do not call [onAnalyze], so no request is
    sent: the error is the missing-pole message, or the invalid-format
    message when the zeros, parsed first, are malformed. *)
Theorem empty_pole_list_is_refused has (rl : RL.state) (fd : FD.state)
    (rlPoles fdPoles : list parsed) :
  parseComplexNumbers (RL.poles rl) = Normal rlPoles -> length rlPoles = 0%nat ->
  parseComplexNumbers (FD.poles fd) = Normal fdPoles -> length fdPoles = 0%nat ->
  (RL.handleAnalyze has rl).2 = []
  /\ (HomePage.root_locus_click rl).2 = []
  /\ (RL.error (RL.handleAnalyze has rl).1 = Some RL.no_pole_message
      \/ RL.error (RL.handleAnalyze has rl).1 = Some invalid_format_message)
  /\ (FD.handleAnalyze has fd).2 = []
  /\ (HomePage.frequency_domain_click fd).2 = []
  /\ (FD.error (FD.handleAnalyze has fd).1 = Some FD.no_pole_message
      \/ FD.error (FD.handleAnalyze has fd).1 = Some invalid_format_message).
Proof.
  intros Hrl Lrl Hfd Lfd.
  assert (forall b, (RL.handleAnalyze b rl).2 = []
          /\ (RL.error (RL.handleAnalyze b rl).1 = Some RL.no_pole_message
              \/ RL.error (RL.handleAnalyze b rl).1 = Some invalid_format_message)) as R.
  { intros b. unfold RL.handleAnalyze. simpl.
    destruct (parse_outcomes (RL.zeros rl)) as [->|(z & -> & _)]; simpl; [auto|].
    rewrite Hrl. simpl. rewrite Lrl. simpl. auto. }
  assert (forall b, (FD.handleAnalyze b fd).2 = []
          /\ (FD.error (FD.handleAnalyze b fd).1 = Some FD.no_pole_message
              \/ FD.error (FD.handleAnalyze b fd).1 = Some invalid_format_message)) as F.
  { intros b. unfold FD.handleAnalyze. simpl.
    destruct (parse_outcomes (FD.zeros fd)) as [->|(z & -> & _)]; simpl; [auto|].
    rewrite Hfd. simpl. rewrite Lfd. simpl. auto. }
  split_and!; try apply R; try apply F.
  - unfold HomePage.root_locus_click.
    destruct (RL.handleAnalyze true rl) as [st' calls] eqn:E.
    pose proof (proj1 (R true)) as Hc. rewrite E in Hc. simpl in Hc. by subst calls.
  - unfold HomePage.frequency_domain_click.
    destruct (FD.handleAnalyze true fd) as [st' calls] eqn:E.
    pose proof (proj1 (F true)) as Hc. rewrite E in Hc. simpl in Hc. by subst calls.
Qed.

Definition blank_root_locus : RL.state :=
  {| RL.zeros := str "-3"; RL.poles := str "  "; RL.error := None |}.

Definition blank_frequency_domain : FD.state :=
  {| FD.zeros := str "1+j"; FD.poles := str ""; FD.gain := str "2"; FD.error := None |}.

Lemma empty_pole_list_is_refused_witness :
  (RL.handleAnalyze true blank_root_locus).2 = []
  /\ RL.error (RL.handleAnalyze true blank_root_locus).1 = Some RL.no_pole_message
  /\ (FD.handleAnalyze true blank_frequency_domain).2 = []
  /\ FD.error (FD.handleAnalyze true blank_frequency_domain).1
     = Some invalid_format_message.
Proof.
  pose proof (empty_pole_list_is_refused true blank_root_locus blank_frequency_domain
                [] [] eq_refl eq_refl eq_refl eq_refl)
    as (R1 & _ & _ & F1 & _ & _).
  split_and!; [exact R1|reflexivity|exact F1|reflexivity].
Defined.

End InputFacts.

(* ===================================================================== *)
(** * Properties of the requests *)
(* ===================================================================== *)

Module RequestFacts.
Import JS ParsingUtils ParsingFacts ControlSystemUtils.

Module FD := FrequencyDomainInput.

Lemma falsy_cases n :
  number_truthy n = false <-> n = NaN \/ number_is_zero n = true.
Proof.
  unfold number_truthy. rewrite negb_false_iff, orb_true_iff.
  destruct n; simpl; intuition congruence.
Qed.

(** C10. When the gain text parses to 0 or to NaN, the body sent to
    [analyze_frequency_domain] carries the gain 1.0; a gain of 0 that the
    input component has accepted and passed on is replaced in this
    way. *)
Theorem zero_gain_is_replaced (zeros poles : list parsed) (gain : jsstring) :
  parseFloat gain = NaN \/ number_is_zero (parseFloat gain) = true ->
  payload (analyze_frequency_domain_request zeros poles gain)
  = FrequencyDomainBody {| fd_zeros := zeros; fd_poles := poles; fd_gain := Fin 1 |}
  /\ (forall A (fetch : request -> response A),
        analyzeFrequencyDomainAPI fetch zeros poles gain
        = analyzeFrequencyDomainAPI fetch zeros poles (str "1.0"))
  /\ (number_is_zero (parseFloat gain) = true ->
      forall st, FD.gain st = gain ->
        parseComplexNumbers (FD.zeros st) = Normal zeros ->
        parseComplexNumbers (FD.poles st) = Normal poles ->
        poles <> [] ->
        HomePage.frequency_domain_click st
        = (FD.setError None st,
           [analyze_frequency_domain_request zeros poles (str "1.0")])).
Proof.
  intros H. apply falsy_cases in H.
  assert (analyze_frequency_domain_request zeros poles gain
          = analyze_frequency_domain_request zeros poles (str "1.0")) as E.
  { unfold analyze_frequency_domain_request, number_or. by rewrite H. }
  split_and!.
  - unfold analyze_frequency_domain_request, number_or. by rewrite H.
  - intros A fetch. unfold analyzeFrequencyDomainAPI. by rewrite E.
  - intros Hz st Hg Hzs Hps Hne.
    unfold HomePage.frequency_domain_click, FD.handleAnalyze. simpl.
    rewrite Hzs, Hps. simpl.
    destruct poles as [|p ps]; [done|]. simpl.
    rewrite Hg. destruct (parseFloat gain) as [| |q]; try discriminate.
    simpl. by rewrite E.
Qed.

Definition zero_gain_state : FD.state :=
  {| FD.zeros := str ""; FD.poles := str "0, -1, -2"; FD.gain := str "0";
     FD.error := None |}.

Lemma zero_gain_is_replaced_witness :
  payload (analyze_frequency_domain_request []
             [Complex (Fin 0) (Fin 0); Complex (Fin (-1)) (Fin 0)] (str "0"))
  = FrequencyDomainBody
      {| fd_zeros := [];
         fd_poles := [Complex (Fin 0) (Fin 0); Complex (Fin (-1)) (Fin 0)];
         fd_gain := Fin 1 |}.
Proof.
  apply (zero_gain_is_replaced []
           [Complex (Fin 0) (Fin 0); Complex (Fin (-1)) (Fin 0)] (str "0")).
  right. reflexivity.
Defined.

(** The component accepts the gain [0] and the request leaves with the
    gain 1. *)
Example zero_gain_end_to_end :
  (FD.handleAnalyze true zero_gain_state).1 = zero_gain_state
  /\ List.map (fun r => match payload r with
                        | FrequencyDomainBody b => Some (fd_gain b)
                        | _ => None
                        end)
              (HomePage.frequency_domain_click zero_gain_state).2
     = [Some (Fin 1)].
Proof. split; reflexivity. Qed.

(** ** The serialisation of complex numbers *)

Module RLR := RootLocusResult.

(** A point as the root-locus reader wants it: [{ x, y }]. *)
Definition xy_object (x y : number) : object :=
  {[ "x" := VNum x; "y" := VNum y ]}.

Lemma get_point_object re im :
  get (point_object re im) "real" = VNum re
  /\ get (point_object re im) "imag" = VNum im
  /\ get (point_object re im) "x" = VUndefined
  /\ get (point_object re im) "y" = VUndefined.
Proof. unfold get, point_object. split_and!; by simplify_map_eq. Qed.

Lemma get_xy_object x y :
  get (xy_object x y) "x" = VNum x /\ get (xy_object x y) "y" = VNum y.
Proof. unfold get, xy_object. split_and!; by simplify_map_eq. Qed.

Module FAC := FrequencyAnalysis.

(** A response of the frequency analysis with one pole [-1 + 0j] and
    no crossover. *)
Definition answered_analysis : FAC.result :=
  {| FAC.dc_gain := VNum (Fin 1);
     FAC.stability_margins :=
       Some {| FAC.gain_margin_db := VNull;
               FAC.phase_margin_deg := VNum (Fin 90);
               FAC.gain_crossover_freq_rad_s := VNull |};
     FAC.nyquist := None;
     FAC.bode := Some {| FAC.omega := Some [VNum (Fin 1)];
                        FAC.magnitude_db := Some [VNum (Fin (-3))];
                        FAC.phase_deg := Some [VNum (Fin (-45))] |};
     FAC.root_locus := None;
     FAC.poles := Some [point_object (Fin (-1)) (Fin 0)];
     FAC.zeros := Some [] |}.

(** Written out of its place, the reader of the frequency analysis
    takes the poles by [real] and [imag]. *)
Example frequency_analysis_reader_as_written :
  FAC.marker_data (FAC.poles answered_analysis) = [(VNum (Fin (-1)), VNum (Fin 0))].
Proof.
  cbn. by destruct (get_point_object (Fin (-1)) (Fin 0)) as (-> & -> & _).
Qed.



End RequestFacts.

(* ===================================================================== *)
(** * Properties of the result components *)
(* ===================================================================== *)

Module ResultFacts.
Import JS View.

Module FDR := FrequencyDomainResult.
Module IAR := InverseAnalysisResult.

Lemma gain_margin_null sm :
  FDR.gain_margin_db sm = VNull ->
  FDR.gain_margin_text sm = Normal (Lit FDR.infinite_text).
Proof. unfold FDR.gain_margin_text. by intros ->. Qed.

Lemma phase_margin_null sm :
  FDR.phase_margin_deg sm = VNull ->
  FDR.phase_margin_text sm = Normal (Lit FDR.undefined_text).
Proof. unfold FDR.phase_margin_text. by intros ->. Qed.

Lemma gain_margin_number sm n :
  FDR.gain_margin_db sm = VNum n ->
  FDR.gain_margin_text sm = Normal (Cat (Fixed n 2) (Lit " dB")).
Proof. unfold FDR.gain_margin_text. by intros ->. Qed.

Lemma phase_margin_number sm n :
  FDR.phase_margin_deg sm = VNum n ->
  FDR.phase_margin_text sm = Normal (Cat (Fixed n 2) (Lit " deg")).
Proof. unfold FDR.phase_margin_text. by intros ->. Qed.

(** C3. A gain margin or phase margin that is [null] in a
    frequency-response result is shown as infinite ("无穷大"),
    respectively as undefined ("未定义"), and the component renders
    without an error: each text is produced whatever the other fields
    hold, and the whole summary is produced as soon as each margin is
    null or a number. *)
Theorem null_margins_are_reported (r : FDR.result) (sm : FDR.margins)
    (asy : list FDR.item) :
  FDR.stability_margins r = Some sm ->
  FDR.asymptote_items r = Normal asy ->
  (FDR.gain_margin_db sm = VNull \/ exists n, FDR.gain_margin_db sm = VNum n) ->
  (FDR.phase_margin_deg sm = VNull \/ exists n, FDR.phase_margin_deg sm = VNum n) ->
  (FDR.gain_margin_db sm = VNull ->
   FDR.gain_margin_text sm = Normal (Lit FDR.infinite_text))
  /\ (FDR.phase_margin_deg sm = VNull ->
      FDR.phase_margin_text sm = Normal (Lit FDR.undefined_text))
  /\ exists gm pm,
       FDR.render (Some r)
       = Normal (FDR.Card ([FDR.GainMargin gm; FDR.PhaseMargin pm] ++ asy))
       /\ (FDR.gain_margin_db sm = VNull -> gm = Lit FDR.infinite_text)
       /\ (FDR.phase_margin_deg sm = VNull -> pm = Lit FDR.undefined_text).
Proof.
  intros Hsm Hasy Hg Hp.
  split_and!; [apply gain_margin_null|apply phase_margin_null|].
  assert (exists gm, FDR.gain_margin_text sm = Normal gm
                     /\ (FDR.gain_margin_db sm = VNull -> gm = Lit FDR.infinite_text))
    as (gm & Egm & Hgm).
  { destruct Hg as [Hg|[n Hg]].
    - rewrite (gain_margin_null _ Hg). eauto.
    - rewrite (gain_margin_number _ _ Hg). eexists. split; [done|]. congruence. }
  assert (exists pm, FDR.phase_margin_text sm = Normal pm
                     /\ (FDR.phase_margin_deg sm = VNull -> pm = Lit FDR.undefined_text))
    as (pm & Epm & Hpm).
  { destruct Hp as [Hp|[n Hp]].
    - rewrite (phase_margin_null _ Hp). eauto.
    - rewrite (phase_margin_number _ _ Hp). eexists. split; [done|]. congruence. }
  exists gm, pm. split_and!; [|done|done].
  unfold FDR.render. rewrite Hsm, Egm, Epm, Hasy. reflexivity.
Qed.

Definition no_crossover : FDR.result :=
  {| FDR.stability_margins :=
       Some {| FDR.gain_margin_db := VNull; FDR.phase_margin_deg := VNull |};
     FDR.nyquist := Some {| FDR.nyquist_asymptote := None |} |}.

Lemma null_margins_are_reported_witness :
  FDR.render (Some no_crossover)
  = Normal (FDR.Card [FDR.GainMargin (Lit FDR.infinite_text);
                      FDR.PhaseMargin (Lit FDR.undefined_text)]).
Proof.
  destruct (null_margins_are_reported no_crossover
              {| FDR.gain_margin_db := VNull; FDR.phase_margin_deg := VNull |} []
              eq_refl eq_refl (or_introl eq_refl) (or_introl eq_refl))
    as (_ & _ & gm & pm & E & Hgm & Hpm).
  rewrite E, (Hgm eq_refl), (Hpm eq_refl). reflexivity.
Defined.

(** The inverse-analysis card for a null result with a message: the
    message alone. *)
Lemma null_result_card (m : jsstring) :
  m <> [] ->
  IAR.render (Some {| IAR.damping_ratio := VNull; IAR.natural_frequency := VNull;
                      IAR.message := VStr m |})
  = Normal (IAR.Card [IAR.ErrorMessage (VStr m)]).
Proof. destruct m; [done|]. reflexivity. Qed.

End ResultFacts.

(* ===================================================================== *)
(** * Properties of the engine model *)
(* ===================================================================== *)

Module EngineFacts.
Import JS Engine.

Open Scope Q_scope.

Lemma Qlt_bool_iff a b : Qlt_bool a b = true <-> a < b.
Proof.
  unfold Qlt_bool. rewrite negb_true_iff.
  destruct (Qle_bool b a) eqn:E.
  - apply Qle_bool_iff in E. split; [done|]. intros H. lra.
  - split; [|done]. intros _. apply Qnot_le_lt. intros H.
    apply Qle_bool_iff in H. congruence.
Qed.

Lemma existsb_Exists {A} (f : A -> bool) (P : A -> Prop) l :
  (forall x, f x = true <-> P x) -> existsb f l = true <-> Exists P l.
Proof.
  intros Hf. rewrite existsb_exists, List.Exists_exists.
  split; intros (x & Hx & Hp); exists x; (split; [done|by apply Hf]).
Qed.

Definition in_right_half (r : ComplexPoint) : Prop := 0 < real r.
Definition on_axis (r : ComplexPoint) : Prop := real r == 0.
Definition in_left_half (r : ComplexPoint) : Prop := real r < 0.

Lemma axis_root_spec roots :
  existsb (fun r => Qeq_bool (real r) 0) roots = true <-> Exists on_axis roots.
Proof. apply existsb_Exists. intros r. apply Qeq_bool_iff. Qed.

Lemma right_root_spec roots :
  existsb (fun r => Qlt_bool 0 (real r)) roots = true <-> Exists in_right_half roots.
Proof. apply existsb_Exists. intros r. apply Qlt_bool_iff. Qed.

(** Every root lies in the left half plane, on the axis or in the
    right half plane. *)
Lemma left_half_or_not roots :
  Forall in_left_half roots
  <-> ~ Exists on_axis roots /\ ~ Exists in_right_half roots.
Proof.
  rewrite List.Forall_forall, !List.Exists_exists.
  unfold in_left_half, on_axis, in_right_half. split.
  - intros H. split; intros (r & Hr & Hx); specialize (H r Hr); lra.
  - intros [Ha Hp] r Hr.
    destruct (Qlt_le_dec (real r) 0) as [|Hge]; [done|exfalso].
    destruct (Qlt_le_dec 0 (real r)) as [Hpos|Hle].
    + apply Hp. by exists r.
    + apply Ha. exists r. split; [done|lra].
Qed.

Section Verdict.
Variable axis_decides : list ComplexPoint -> bool.

Lemma classify_cases roots :
  classify axis_decides roots
  = match existsb (fun r => Qeq_bool (real r) 0) roots,
          existsb (fun r => Qlt_bool 0 (real r)) roots with
    | false, false => stable
    | true, false => marginal
    | false, true => unstable
    | true, true => if axis_decides roots then marginal else unstable
    end.
Proof. reflexivity. Qed.

Lemma classify_stable roots :
  classify axis_decides roots = stable <-> Forall in_left_half roots.
Proof.
  rewrite left_half_or_not, <- axis_root_spec, <- right_root_spec, classify_cases.
  destruct (existsb _ roots), (existsb _ roots); try destruct (axis_decides roots);
    split; try done; intros [? ?]; done.
Qed.


End Verdict.

(** The three rules of the verdict, read each on its own, cannot all
    hold: a denominator with the roots 0 and 1 has a root on the axis
    and a root in the right half plane. *)
Lemma no_verdict_for_overlapping_rules (verdict : list ComplexPoint -> status) :
  ~ (forall roots,
       (Exists on_axis roots -> verdict roots = marginal)
       /\ (Exists in_right_half roots -> verdict roots = unstable)).
Proof.
  intros H.
  destruct (H [{| real := 0; imag := 0 |}; {| real := 1; imag := 0 |}]) as [Hm Hu].
  assert (marginal = unstable); [|discriminate].
  rewrite <- Hm, <- Hu; [done| |].
  - apply Exists_cons_tl, Exists_cons_hd. unfold in_right_half. simpl. lra.
  - apply Exists_cons_hd. unfold on_axis. simpl. lra.
Qed.


Section TimeDomainFacts.
Variable axis_decides : list ComplexPoint -> bool.
Variable find_roots : list Q -> list ComplexPoint.
Variable simulate_step : list Q -> list Q -> response.
Variable final_value : response -> Q.
Variable rise_time_of peak_time_of max_overshoot_of : response -> option Q.
Variable pole_value : ComplexPoint -> value.

Local Abbreviation analyze := (analyze_tf axis_decides find_roots simulate_step
                             final_value rise_time_of peak_time_of max_overshoot_of).

Lemma analyze_tf_returns numerator denominator :
  degenerate denominator = false ->
  exists a trace,
    analyze numerator denominator = Normal (a, trace)
    /\ stability_poles a = find_roots denominator
    /\ stability_status a = classify axis_decides (find_roots denominator)
    /\ (stability_status a = stable ->
        metrics a = Some (metrics_of final_value rise_time_of peak_time_of
                            max_overshoot_of (simulate_step numerator denominator))
        /\ trace = [RootFinding; StepSimulation])
    /\ (stability_status a <> stable -> metrics a = None /\ trace = [RootFinding]).
Proof.
  intros Hd. unfold analyze_tf. rewrite Hd.
  destruct (classify axis_decides (find_roots denominator)) eqn:E;
    eexists _, _; (split; [reflexivity|]); simpl; split_and!; done.
Qed.




(** ** Settling times *)

Lemma outside_band_mono tol1 tol2 yf y :
  tol1 <= tol2 -> outside_band tol2 yf y = true -> outside_band tol1 yf y = true.
Proof.
  unfold outside_band. rewrite !Qlt_bool_iff. intros Ht H.
  pose proof (Qabs_nonneg yf).
  assert (tol1 * Qabs yf <= tol2 * Qabs yf) by nra. lra.
Qed.

(** A narrower band is left later. *)
Lemma last_exit_mono tol1 tol2 yf samples : forall last1 last2,
  tol1 <= tol2 -> last2 <= last1 ->
  last_exit tol2 yf samples last2 <= last_exit tol1 yf samples last1.
Proof.
  induction samples as [|[t y] rest IH]; simpl; intros last1 last2 Ht Hl; [done|].
  apply IH; [done|].
  destruct (outside_band tol2 yf y) eqn:E2.
  - rewrite (outside_band_mono _ _ _ _ Ht E2). by apply Q.max_le_compat_l.
  - destruct (outside_band tol1 yf y); [|done].
    apply (Qle_trans _ last1); [exact Hl|apply Q.le_max_r].
Qed.

Lemma settling_time_mono tol1 tol2 yf samples :
  tol1 <= tol2 -> settling_time tol2 yf samples <= settling_time tol1 yf samples.
Proof. intros Ht. unfold settling_time. apply last_exit_mono; [done|lra]. Qed.

(** C6. For a transfer function whose denominator roots all have a
    strictly negative real part the response carries metrics, and the
    settling time at 2 percent is not less than the one at 5
    percent. *)
Theorem stable_system_has_metrics numerator denominator :
  degenerate denominator = false ->
  Forall in_left_half (find_roots denominator) ->
  exists a trace m,
    analyze numerator denominator = Normal (a, trace)
    /\ stability_status a = stable
    /\ metrics a = Some m
    /\ settling_time_5_percent m <= settling_time_2_percent m
    /\ is_Some (ControlSystemAnalysis.metrics (analysis_response pole_value a)).
Proof.
  intros Hd Hroots.
  destruct (analyze_tf_returns numerator denominator Hd)
    as (a & trace & E & Hp & Hs & Hst & _).
  apply (classify_stable axis_decides) in Hroots. rewrite <- Hs in Hroots.
  destruct (Hst Hroots) as [Hm _].
  eexists a, trace, _. split_and!; [done|done|exact Hm| |].
  - simpl. apply settling_time_mono. lra.
  - simpl. rewrite Hm. simpl. by eexists.
Qed.
End TimeDomainFacts.

(** A stable second-order system, [1 / (s^2 + 3 s + 2)], with the
    procedures fixed to their values on it. *)
Definition sample_roots (_ : list Q) : list ComplexPoint :=
  [{| real := -1; imag := 0 |}; {| real := -2; imag := 0 |}].

Definition sample_step (_ _ : list Q) : response :=
  [(0, 0); (1, 4 # 10); (2, 48 # 100); (3, 49 # 100); (4, 1 # 2)].



Lemma stable_system_has_metrics_witness :
  exists a trace m,
    analyze_tf (fun _ => true) sample_roots sample_step (fun _ => 1 # 2)
      (fun _ => None) (fun _ => None) (fun _ => None) [1] [1; 3; 2]
    = Normal (a, trace)
    /\ metrics a = Some m
    /\ settling_time_5_percent m <= settling_time_2_percent m.
Proof.
  destruct (stable_system_has_metrics (fun _ => true) sample_roots sample_step
              (fun _ => 1 # 2)
              (fun _ => None) (fun _ => None) (fun _ => None) (fun _ => VNull)
              [1] [1; 3; 2] eq_refl)
    as (a & trace & m & E & _ & Hm & Hle & _).
  - repeat constructor; unfold in_left_half; simpl; lra.
  - exists a, trace, m. split_and!; done.
Defined.

(** On the sampled response the band of 5 percent is left for the last
    time at [t = 1], the band of 2 percent at [t = 2]. *)
Example sample_settling_times :
  settling_time (5 # 100) (1 # 2) (sample_step [] []) == 1
  /\ settling_time (2 # 100) (1 # 2) (sample_step [] []) == 2.
Proof. split; reflexivity. Qed.

(** ** Inverse analysis *)

Section InverseFacts.
Variable solve : InverseRequest -> solution.
Variable inconsistent_message out_of_range_message : jsstring.

(** C4. When the metrics are inconsistent, or the solution has a
    damping ratio outside (0,1) or a natural frequency that is not
    positive, [inverse_analyze_tf] returns without an error a result
    whose damping ratio and natural frequency are null, with a
    message; the result component shows that message and nothing
    else, without an error. *)
Theorem unsolvable_metrics_give_null_result (req : InverseRequest) :
  inconsistent_message <> [] -> out_of_range_message <> [] ->
  (solve req = Inconsistent
   \/ exists zeta omega_n, solve req = Solved zeta omega_n
        /\ (~ (0 < zeta /\ zeta < 1) \/ omega_n <= 0)) ->
  exists m,
    m <> []
    /\ inverse_analyze_tf solve inconsistent_message out_of_range_message req
       = Normal {| InverseAnalysisResult.damping_ratio := VNull;
                   InverseAnalysisResult.natural_frequency := VNull;
                   InverseAnalysisResult.message := VStr m |}
    /\ InverseAnalysisResult.render
         (Some {| InverseAnalysisResult.damping_ratio := VNull;
                  InverseAnalysisResult.natural_frequency := VNull;
                  InverseAnalysisResult.message := VStr m |})
       = Normal (InverseAnalysisResult.Card
                   [InverseAnalysisResult.ErrorMessage (VStr m)]).
Proof.
  intros H1 H2 [Hs|(zeta & omega_n & Hs & Hbad)]; unfold inverse_analyze_tf;
    rewrite Hs.
  - exists inconsistent_message.
    split_and!; [done|done|by apply ResultFacts.null_result_card].
  - exists out_of_range_message.
    split_and!; [done| |by apply ResultFacts.null_result_card].
    replace (Qlt_bool 0 zeta && Qlt_bool zeta 1 && Qlt_bool 0 omega_n)
      with false; [done|].
    symmetry. apply not_true_iff_false. rewrite !andb_true_iff, !Qlt_bool_iff.
    intros [[? ?] ?]. destruct Hbad as [Hbad|Hbad]; [tauto|lra].
Qed.
End InverseFacts.

Lemma unsolvable_metrics_give_null_result_witness :
  inverse_analyze_tf (fun _ => Solved (3 # 2) 2) (str "inconsistent") (str "out of range")
    {| req_rise_time := None; req_peak_time := Some 1;
       req_max_overshoot := None; req_settling_time := Some 4 |}
  = Normal {| InverseAnalysisResult.damping_ratio := VNull;
              InverseAnalysisResult.natural_frequency := VNull;
              InverseAnalysisResult.message := VStr (str "out of range") |}.
Proof.
  destruct (unsolvable_metrics_give_null_result (fun _ => Solved (3 # 2) 2)
              (str "inconsistent") (str "out of range")
              {| req_rise_time := None; req_peak_time := Some 1;
                 req_max_overshoot := None; req_settling_time := Some 4 |})
    as (m & _ & E & _).
  - discriminate.
  - discriminate.
  - right. exists (3 # 2), 2. split; [reflexivity|]. left. intros [_ H]. lra.
  - reflexivity.
Defined.

(** ** Asymptotes *)

Definition sum_real (l : list ComplexPoint) : Q :=
  fold_right (fun p acc => real p + acc) 0 l.

Lemma real_csum l : real (csum l) = sum_real l.
Proof. induction l as [|p l IH]; simpl; [done|]. by rewrite IH. Qed.

Lemma lookup_map_seq {A} (f : nat -> A) n : forall start k,
  (k < n)%nat -> List.map f (seq start n) !! k = Some (f (start + k)%nat).
Proof.
  induction n as [|n IH]; intros start k Hk; [lia|].
  destruct k as [|k]; simpl.
  - by rewrite Nat.add_0_r.
  - rewrite IH by lia. f_equal. f_equal. lia.
Qed.

(** C7. With more poles than zeros the asymptote set has the centroid
    [(sum of poles - sum of zeros) / (|P| - |Z|)] and exactly
    [|P| - |Z|] angles, the [k]-th being [(2k+1) * 180 / (|P| - |Z|)];
    otherwise there are no asymptotes. *)
Theorem asymptote_set (zeros poles : list ComplexPoint) :
  let excess := (length poles - length zeros)%nat in
  if decide (length zeros < length poles)%nat then
    exists a,
      asymptotes zeros poles = Some a
      /\ centroid a == (sum_real poles - sum_real zeros) / of_nat excess
      /\ length (angles a) = excess
      /\ (forall k, (k < excess)%nat ->
            exists angle, angles a !! k = Some angle
                          /\ angle == (2 * of_nat k + 1) * 180 / of_nat excess)
  else asymptotes zeros poles = None.
Proof.
  simpl. unfold asymptotes. case_decide as Hlt.
  - apply Nat.ltb_lt in Hlt as ->. eexists. split; [reflexivity|]. simpl.
    split_and!.
    + by rewrite !real_csum.
    + by rewrite length_map, length_seq.
    + intros k Hk. eexists. split; [|reflexivity].
      by rewrite lookup_map_seq.
  - apply Nat.ltb_nlt in Hlt as ->. reflexivity.
Qed.

(** Three poles and no zero: centroid -1, angles 60, 180 and 300
    degrees. *)
Example three_pole_asymptotes :
  asymptotes []
    [{| real := 0; imag := 0 |}; {| real := -1; imag := 0 |}; {| real := -2; imag := 0 |}]
  = Some {| centroid := (0 + (-1 + (-2 + 0)) - 0) / 3;
            angles := [(2 * 0 + 1) * 180 / 3; (2 * 1 + 1) * 180 / 3;
                       (2 * 2 + 1) * 180 / 3] |}.
Proof. reflexivity. Qed.

End EngineFacts.

(* ===================================================================== *)
(** * How the parser reads each form of token *)
(* ===================================================================== *)

Module TokenFacts.
Import JS ParsingUtils RegexFacts ParsingFacts.

(** The two sub-patterns of [complex_re]. *)
Definition real_re : regex :=
  Seq (Opt (Chars (is_char "-"))) (PlusChars digit_or_dot).

Definition imag_re : regex :=
  Seq (Opt (Chars plus_or_minus))
      (Seq (PlusChars digit_or_dot) (Chars (is_char "j"))).

Lemma complex_re_parts :
  complex_re = Seq (Opt (Group 1 real_re)) (Opt (Group 2 imag_re)).
Proof. reflexivity. Qed.

(** The input is exhausted or its next character is outside the
    class. *)
Definition stops (p : char16 -> bool) (s : jsstring) : bool :=
  match s with
  | [] => true
  | c :: _ => negb (p c)
  end.

Lemma star_chars_stop p s caps k :
  stops p s = true -> star_chars p s caps k = k s caps.
Proof.
  destruct s as [|c t]; simpl; [done|]. intros H.
  apply negb_true_iff in H. by rewrite H.
Qed.

(** The longest run is tried first. *)
Lemma star_chars_greedy p l s caps k r :
  all_in p l -> stops p s = true -> k s caps = Some r ->
  star_chars p (l ++ s) caps k = Some r.
Proof.
  intros Hl Hs Hk. induction Hl as [|c l Hc _ IH]; simpl.
  - by rewrite star_chars_stop.
  - by rewrite Hc, IH.
Qed.

(** When the continuation fails after the longest run, one character
    is given back. *)
Lemma star_chars_give_back p l d s caps k r :
  all_in p l -> p d = true -> stops p s = true ->
  k s caps = None -> k (d :: s) caps = Some r ->
  star_chars p (l ++ d :: s) caps k = Some r.
Proof.
  intros Hl Hd Hs Hn Hk. induction Hl as [|c l Hc _ IH]; simpl.
  - by rewrite Hd, star_chars_stop, Hn.
  - by rewrite Hc, IH.
Qed.

Lemma digit_or_dot_not_sign c :
  digit_or_dot c = true -> plus_or_minus c = false /\ is_char "-" c = false
                           /\ is_char "j" c = false.
Proof.
  unfold digit_or_dot, plus_or_minus, is_digit, is_char, code.
  intros H. apply orb_true_iff in H as [H|H].
  - apply andb_true_iff in H as [H1 H2].
    apply N.leb_le in H1, H2. simpl.
    rewrite orb_false_iff. split_and!; apply N.eqb_neq; lia.
  - apply N.eqb_eq in H as ->. done.
Qed.

Lemma sign_not_digit c :
  plus_or_minus c = true -> digit_or_dot c = false.
Proof.
  intros H. destruct (digit_or_dot c) eqn:E; [|done].
  apply digit_or_dot_not_sign in E as (E & _). congruence.
Qed.

Lemma sign_chars c :
  c = code "+" \/ c = code "-" -> plus_or_minus c = true.
Proof. by intros [->| ->]. Qed.

Lemma minus_char : is_char "-" (code "-") = true.
Proof. reflexivity. Qed.

(** A sign the imaginary part may carry. *)
Definition imag_sign (sg : jsstring) : Prop :=
  sg = [] \/ sg = [code "+"] \/ sg = [code "-"].

(** A sign the real part may carry. *)
Definition real_sign (sg : jsstring) : Prop :=
  sg = [] \/ sg = [code "-"].

(** The equations of the matcher, one for each form of pattern. *)
Lemma run_seq r1 r2 s caps k :
  run (Seq r1 r2) s caps k = run r1 s caps (fun s' caps' => run r2 s' caps' k).
Proof. reflexivity. Qed.

Lemma run_opt r s caps k :
  run (Opt r) s caps k
  = match run r s caps k with Some x => Some x | None => k s caps end.
Proof. reflexivity. Qed.

Lemma run_chars p c t caps k :
  run (Chars p) (c :: t) caps k = if p c then k t caps else None.
Proof. reflexivity. Qed.

Lemma run_plus p c t caps k :
  run (PlusChars p) (c :: t) caps k = if p c then star_chars p t caps k else None.
Proof. reflexivity. Qed.

Lemma run_group i r s caps k :
  run (Group i r) s caps k
  = run r s caps (fun s' caps' => k s' (<[i := consumed s s']> caps')).
Proof. reflexivity. Qed.

Lemma run_imag_match sg ds rest caps k r :
  imag_sign sg -> ds <> [] -> all_in digit_or_dot ds ->
  k rest caps = Some r ->
  run imag_re (sg ++ ds ++ code "j" :: rest) caps k = Some r.
Proof.
  intros Hsg Hne Hds Hk.
  destruct ds as [|c ds']; [done|]. inversion Hds as [|? ? Hc Hds']; subst.
  assert (run (Seq (PlusChars digit_or_dot) (Chars (is_char "j")))
              (c :: ds' ++ code "j" :: rest) caps k = Some r) as Hbody.
  { rewrite run_seq, run_plus, Hc. apply star_chars_greedy; [done|done|].
    by rewrite run_chars. }
  unfold imag_re. rewrite run_seq, run_opt.
  destruct Hsg as [->|[->| ->]]; cbn [app]; rewrite run_chars.
  - destruct (digit_or_dot_not_sign c Hc) as (-> & _). exact Hbody.
  - rewrite sign_chars; [|by auto]. by rewrite Hbody.
  - rewrite sign_chars; [|by auto]. by rewrite Hbody.
Qed.

(** The imaginary sub-pattern needs a sign, a digit or a dot to
    start. *)
Lemma run_imag_none s caps k :
  stops digit_or_dot s = true -> stops plus_or_minus s = true ->
  run imag_re s caps k = None.
Proof.
  intros Hd Hs. unfold imag_re. rewrite run_seq, run_opt.
  destruct s as [|c t]; [reflexivity|].
  simpl in Hd, Hs. apply negb_true_iff in Hd, Hs.
  by rewrite run_chars, Hs, run_seq, run_plus, Hd.
Qed.

Lemma run_real_greedy sg ds rest caps k r :
  real_sign sg -> ds <> [] -> all_in digit_or_dot ds ->
  stops digit_or_dot rest = true -> k rest caps = Some r ->
  run real_re (sg ++ ds ++ rest) caps k = Some r.
Proof.
  intros Hsg Hne Hds Hstop Hk.
  destruct ds as [|c ds']; [done|]. inversion Hds as [|? ? Hc Hds']; subst.
  assert (run (PlusChars digit_or_dot) (c :: ds' ++ rest) caps k = Some r) as Hbody.
  { rewrite run_plus, Hc. by apply star_chars_greedy. }
  unfold real_re. rewrite run_seq, run_opt.
  destruct Hsg as [->| ->]; cbn [app]; rewrite run_chars.
  - destruct (digit_or_dot_not_sign c Hc) as (_ & -> & _). exact Hbody.
  - rewrite minus_char. by rewrite Hbody.
Qed.

Lemma run_real_give_back sg ds d rest caps k r :
  real_sign sg -> ds <> [] -> all_in digit_or_dot ds -> digit_or_dot d = true ->
  stops digit_or_dot rest = true ->
  k rest caps = None -> k (d :: rest) caps = Some r ->
  run real_re (sg ++ ds ++ d :: rest) caps k = Some r.
Proof.
  intros Hsg Hne Hds Hd Hstop Hn Hk.
  destruct ds as [|c ds']; [done|]. inversion Hds as [|? ? Hc Hds']; subst.
  assert (run (PlusChars digit_or_dot) (c :: ds' ++ d :: rest) caps k = Some r)
    as Hbody.
  { rewrite run_plus, Hc. by apply star_chars_give_back. }
  unfold real_re. rewrite run_seq, run_opt.
  destruct Hsg as [->| ->]; cbn [app]; rewrite run_chars.
  - destruct (digit_or_dot_not_sign c Hc) as (_ & -> & _). exact Hbody.
  - rewrite minus_char. by rewrite Hbody.
Qed.

(** With one digit only before the rest, nothing can be given back. *)
Lemma run_real_single_none sg d rest caps k :
  real_sign sg -> digit_or_dot d = true -> stops digit_or_dot rest = true ->
  k rest caps = None ->
  run real_re (sg ++ d :: rest) caps k = None.
Proof.
  intros Hsg Hd Hstop Hn.
  assert (run (PlusChars digit_or_dot) (d :: rest) caps k = None) as Hbody.
  { by rewrite run_plus, Hd, star_chars_stop. }
  unfold real_re. rewrite run_seq, run_opt.
  destruct Hsg as [->| ->]; cbn [app]; rewrite run_chars.
  - destruct (digit_or_dot_not_sign d Hd) as (_ & -> & _). exact Hbody.
  - rewrite minus_char, Hbody. rewrite run_plus.
    by destruct (digit_or_dot (code "-")) eqn:E.
Qed.

(** The real sub-pattern cannot start at a plus sign. *)
Lemma run_real_plus_none rest caps k :
  run real_re (code "+" :: rest) caps k = None.
Proof. reflexivity. Qed.

(** The end of the pattern: [$]. *)
Definition at_end : continuation :=
  fun rest caps => match rest with [] => Some caps | _ => None end.

(** What follows group 1: the optional group 2, then the end. *)
Definition second_part (s : jsstring) (caps : captures) : option captures :=
  run (Opt (Group 2 imag_re)) s caps at_end.

Lemma regex_match_unfold tok :
  regex_match complex_re tok
  = match run real_re tok ∅
            (fun s' caps' => second_part s' (<[1%nat := consumed tok s']> caps')) with
    | Some x => Some x
    | None => second_part tok ∅
    end.
Proof. reflexivity. Qed.

Lemma consumed_all (s : jsstring) : consumed s [] = s.
Proof. rewrite <- (app_nil_r s) at 1. apply consumed_app. Qed.

Lemma second_part_nil caps : second_part [] caps = Some caps.
Proof. reflexivity. Qed.

Lemma second_part_j caps : second_part [code "j"] caps = None.
Proof. reflexivity. Qed.

Lemma second_part_imag sg ds caps :
  imag_sign sg -> ds <> [] -> all_in digit_or_dot ds ->
  second_part (sg ++ ds ++ [code "j"]) caps
  = Some (<[2%nat := sg ++ ds ++ [code "j"]]> caps).
Proof.
  intros Hsg Hne Hds. unfold second_part. rewrite run_opt, run_group.
  rewrite (run_imag_match sg ds [] caps _
             (<[2%nat := sg ++ ds ++ [code "j"]]> caps)); [done..|].
  simpl. by rewrite consumed_all.
Qed.

Lemma ends_with_last (s : jsstring) c x : ends_with (s ++ [c]) x = (c =? x)%N.
Proof. unfold ends_with. by rewrite rev_app_distr. Qed.

Lemma ends_with_digit pre ds :
  ds <> [] -> all_in digit_or_dot ds ->
  ends_with (pre ++ ds) (code "+") || ends_with (pre ++ ds) (code "-") = false.
Proof.
  intros Hne Hds. apply nonempty_last in Hne as (ds' & d & ->).
  apply all_in_last in Hds. rewrite !app_assoc, !ends_with_last.
  destruct (digit_or_dot_not_sign d Hds) as (Hpm & _). exact Hpm.
Qed.

Lemma remove_first_last (pre : jsstring) c :
  Forall (fun d => d <> c) pre -> remove_first c (pre ++ [c]) = pre.
Proof.
  induction 1 as [|d pre Hd _ IH]; simpl.
  - by rewrite N.eqb_refl.
  - apply N.eqb_neq in Hd. by rewrite Hd, IH.
Qed.

Lemma no_j_in_coefficient sg ds :
  imag_sign sg -> all_in digit_or_dot ds ->
  Forall (fun d => d <> code "j") (sg ++ ds).
Proof.
  intros Hsg Hds. apply Forall_app. split.
  - destruct Hsg as [->|[->| ->]]; repeat constructor; discriminate.
  - eapply Forall_impl; [exact Hds|]. intros c Hc ->. discriminate.
Qed.

(** The value of a token whose match has the two groups [g1] (maybe
    absent) and [g2 = coefficient ++ "j"]. *)
Lemma parse_part_of_match tok (g1 : option jsstring) sg ds :
  imag_sign sg -> ds <> [] -> all_in digit_or_dot ds ->
  (forall g, g1 = Some g -> g <> []) ->
  regex_match complex_re tok
  = Some (<[2%nat := sg ++ ds ++ [code "j"]]>
            (match g1 with Some g => <[1%nat := g]> ∅ | None => ∅ end)) ->
  ends_with tok (code "+") || ends_with tok (code "-") = false ->
  parse_part tok
  = Complex (match g1 with Some g => parseFloat g | None => Fin 0 end)
            (parseFloat (sg ++ ds)).
Proof.
  intros Hsg Hne Hds Hg1 Hm Hend. unfold parse_part.
  destruct (regex_match complex_re tok) as [m|] eqn:Em; [|done].
  apply (inj Some) in Hm.
  pose proof (f_equal (fun x : captures => x !! 2%nat) Hm) as H2.
  pose proof (f_equal (fun x : captures => x !! 1%nat) Hm) as H1.
  cbv beta in H1, H2.
  rewrite lookup_insert_eq in H2. rewrite lookup_insert_ne in H1 by done.
  destruct (imag_capture_has_digits _ _ _ Em H2) as (_ & _ & _ & Himag).
  assert (capture_truthy (m !! 2%nat) = true) as Ht.
  { rewrite H2, app_assoc. destruct (sg ++ ds); reflexivity. }
  rewrite Hend. cbv zeta. rewrite Ht, H2.
  change (default [] (Some ?x)) with x.
  rewrite Himag, app_assoc, remove_first_last by by apply no_j_in_coefficient.
  destruct g1 as [g|].
  - rewrite lookup_insert_eq in H1. rewrite H1.
    destruct g as [|c g]; [by specialize (Hg1 [] eq_refl)|]. reflexivity.
  - rewrite lookup_empty in H1. rewrite H1. reflexivity.
Qed.

(** X1.  A real number: an optional minus sign, then digits and dots.
    The token is handed to [parseFloat] as it stands. *)
Theorem real_token_value sg ds :
  real_sign sg -> ds <> [] -> all_in digit_or_dot ds ->
  regex_match complex_re (sg ++ ds) = Some {[ 1%nat := sg ++ ds ]}
  /\ parse_part (sg ++ ds) = Complex (parseFloat (sg ++ ds)) (Fin 0).
Proof.
  intros Hsg Hne Hds.
  assert (regex_match complex_re (sg ++ ds) = Some {[ 1%nat := sg ++ ds ]}) as Hm.
  { rewrite regex_match_unfold.
    pose proof (run_real_greedy sg ds [] ∅
                  (fun s' caps' =>
                     second_part s' (<[1%nat := consumed (sg ++ ds) s']> caps'))
                  {[ 1%nat := sg ++ ds ]} Hsg Hne Hds eq_refl) as Hrun.
    rewrite app_nil_r in Hrun. rewrite Hrun; [done|].
    rewrite second_part_nil, consumed_all. reflexivity. }
  split; [done|]. unfold parse_part. rewrite Hm, ends_with_digit by done. cbv zeta.
  rewrite lookup_singleton_eq, lookup_singleton_ne by done. simpl.
  assert (exists c t, sg ++ ds = c :: t) as (c & t & E).
  { destruct ds as [|c t]; [done|]. destruct Hsg as [->| ->]; simpl; eauto. }
  rewrite E. reflexivity.
Qed.

Lemma real_token_value_witness :
  parse_part (str "-2.5") = Complex (parseFloat (str "-2.5")) (Fin 0).
Proof.
  apply (real_token_value (str "-") (str "2.5")).
  - by right.
  - discriminate.
  - repeat constructor.
Defined.

(** X2.  A complex number written with both parts, [a+bj] or [a-bj]:
    the real part is [parseFloat] of [a], the imaginary part
    [parseFloat] of the signed coefficient. *)
Theorem two_part_token_value g1 s ds :
  real_shape g1 -> s = code "+" \/ s = code "-" ->
  ds <> [] -> all_in digit_or_dot ds ->
  regex_match complex_re (g1 ++ s :: ds ++ [code "j"])
  = Some (<[2%nat := s :: ds ++ [code "j"]]> {[ 1%nat := g1 ]})
  /\ parse_part (g1 ++ s :: ds ++ [code "j"])
     = Complex (parseFloat g1) (parseFloat (s :: ds)).
Proof.
  intros (sg & rs & -> & Hsg & Hrne & Hrs) Hs Hne Hds.
  assert (imag_sign [s]) as Hsign by (destruct Hs as [->| ->]; unfold imag_sign; auto).
  assert (regex_match complex_re ((sg ++ rs) ++ s :: ds ++ [code "j"])
          = Some (<[2%nat := s :: ds ++ [code "j"]]> {[ 1%nat := sg ++ rs ]})) as Hm.
  { rewrite regex_match_unfold, <- app_assoc.
    rewrite (run_real_greedy sg rs (s :: ds ++ [code "j"]) ∅ _
               (<[2%nat := s :: ds ++ [code "j"]]> {[ 1%nat := sg ++ rs ]})); try done.
    - simpl. by rewrite (sign_not_digit s (sign_chars s Hs)).
    - rewrite app_assoc, consumed_app.
      apply (second_part_imag [s] ds); done. }
  split; [done|].
  apply (parse_part_of_match _ (Some (sg ++ rs)) [s] ds); try done.
  - intros g [= <-]. destruct rs; [done|]. by destruct sg.
  - change (s :: ds ++ [code "j"]) with ([s] ++ ds ++ [code "j"]).
    by rewrite !app_assoc, !ends_with_last.
Qed.

Lemma two_part_token_value_witness :
  parse_part (str "-12+34j")
  = Complex (parseFloat (str "-12")) (parseFloat (str "+34")).
Proof.
  apply (two_part_token_value (str "-12") (code "+") (str "34")).
  - exists (str "-"), (str "12"). split_and!; [done|by right|done|repeat constructor].
  - by left.
  - discriminate.
  - repeat constructor.
Defined.

(** X3.  A purely imaginary number whose coefficient is written with a
    plus sign, or has a single digit (with or without a minus sign):
    the real part is 0 and the imaginary part is [parseFloat] of the
    signed coefficient. *)
Theorem imaginary_token_value sg ds :
  (sg = [code "+"] /\ ds <> [] /\ all_in digit_or_dot ds)
  \/ (real_sign sg /\ exists d, ds = [d] /\ digit_or_dot d = true) ->
  regex_match complex_re (sg ++ ds ++ [code "j"])
  = Some {[ 2%nat := sg ++ ds ++ [code "j"] ]}
  /\ parse_part (sg ++ ds ++ [code "j"]) = Complex (Fin 0) (parseFloat (sg ++ ds)).
Proof.
  intros H.
  assert (imag_sign sg /\ ds <> [] /\ all_in digit_or_dot ds) as (Hsg & Hne & Hds).
  { destruct H as [(-> & ? & ?)|(Hs & d & -> & Hd)].
    - unfold imag_sign. auto.
    - split_and!; [destruct Hs as [->| ->]; unfold imag_sign; auto|done|].
      by repeat constructor. }
  assert (regex_match complex_re (sg ++ ds ++ [code "j"])
          = Some {[ 2%nat := sg ++ ds ++ [code "j"] ]}) as Hm.
  { rewrite regex_match_unfold.
    replace (run real_re _ _ _) with (@None captures).
    - by apply second_part_imag.
    - symmetry. destruct H as [(-> & _ & _)|(Hs & d & -> & Hd)].
      + apply run_real_plus_none.
      + cbn [app]. apply run_real_single_none; [done|done|done|].
        apply second_part_j. }
  split; [done|].
  apply (parse_part_of_match _ None sg ds); try done.
  by rewrite !app_assoc, !ends_with_last.
Qed.

Lemma imaginary_token_value_witness :
  parse_part (str "+12j") = Complex (Fin 0) (parseFloat (str "+12"))
  /\ parse_part (str "-5j") = Complex (Fin 0) (parseFloat (str "-5")).
Proof.
  split.
  - apply (imaginary_token_value (str "+") (str "12")). left.
    split_and!; [done|discriminate|repeat constructor].
  - apply (imaginary_token_value (str "-") (str "5")). right.
    split; [by right|]. by exists (code "5").
Defined.

(** X4.  A purely imaginary number with two or more digits and no plus
    sign, [12j] or [-12j]: group 1 keeps all but the last digit, so
    the number is read with that as its real part and the last digit
    alone as its imaginary part. *)
Theorem long_imaginary_token_is_split sg ds d :
  real_sign sg -> ds <> [] -> all_in digit_or_dot ds -> digit_or_dot d = true ->
  regex_match complex_re (sg ++ ds ++ [d; code "j"])
  = Some (<[2%nat := [d; code "j"]]> {[ 1%nat := sg ++ ds ]})
  /\ parse_part (sg ++ ds ++ [d; code "j"])
     = Complex (parseFloat (sg ++ ds)) (parseFloat [d]).
Proof.
  intros Hsg Hne Hds Hd.
  assert (all_in digit_or_dot [d]) as Hd1 by by repeat constructor.
  assert (regex_match complex_re (sg ++ ds ++ [d; code "j"])
          = Some (<[2%nat := [d; code "j"]]> {[ 1%nat := sg ++ ds ]})) as Hm.
  { rewrite regex_match_unfold.
    rewrite (run_real_give_back sg ds d [code "j"] ∅ _
               (<[2%nat := [d; code "j"]]> {[ 1%nat := sg ++ ds ]}));
      [done|done|done|done|done|reflexivity|apply second_part_j|].
    cbv beta. rewrite app_assoc, consumed_app.
    apply (second_part_imag [] [d]); [by left|done|done]. }
  split; [done|].
  apply (parse_part_of_match _ (Some (sg ++ ds)) [] [d]); try done.
  - by left.
  - intros g [= <-]. destruct ds; [done|]. by destruct sg.
  - change [d; code "j"] with ([d] ++ [code "j"]).
    by rewrite !app_assoc, !ends_with_last.
Qed.

Lemma long_imaginary_token_is_split_witness :
  parse_part (str "12j") = Complex (parseFloat (str "1")) (parseFloat (str "2"))
  /\ parse_part (str "-12.5j") = Complex (parseFloat (str "-12.")) (parseFloat (str "5")).
Proof.
  split.
  - apply (long_imaginary_token_is_split [] (str "1") (code "2"));
      [by left|discriminate|repeat constructor|reflexivity].
  - apply (long_imaginary_token_is_split (str "-") (str "12.") (code "5"));
      [by right|discriminate|repeat constructor|reflexivity].
Defined.

End TokenFacts.

(* ===================================================================== *)
(** * parseComplexNumbers on whole inputs *)
(* ===================================================================== *)

Module ParserLaws.
Import JS ParsingUtils RegexFacts ParsingFacts.

Definition blank (ws : jsstring) : Prop :=
  Forall (fun c => is_white_space c = true) ws.

Lemma trim_start_skip ws s : blank ws -> trim_start (ws ++ s) = trim_start s.
Proof. induction 1 as [|c ws Hc _ IH]; simpl; [done|]. by rewrite Hc. Qed.

Lemma trim_start_app s x :
  trim_start s <> [] -> trim_start (s ++ x) = trim_start s ++ x.
Proof.
  induction s as [|c t IH]; simpl; [done|].
  destruct (is_white_space c); [exact IH|done].
Qed.

Lemma trim_end_skip s ws : blank ws -> trim_end (s ++ ws) = trim_end s.
Proof.
  intros H. unfold trim_end. rewrite rev_app_distr, trim_start_skip; [done|].
  by apply Forall_rev.
Qed.

(** White space before and after a text does not change what [trim]
    gives. *)
Lemma trim_skip_left ws s : blank ws -> trim (ws ++ s) = trim s.
Proof. intros H. unfold trim. by rewrite trim_start_skip. Qed.

Lemma trim_skip_right s ws : blank ws -> trim (s ++ ws) = trim s.
Proof.
  intros H. unfold trim.
  destruct (trim_start s) as [|c t] eqn:E.
  - apply trim_start_blank in E.
    assert (trim_start (s ++ ws) = []) as ->; [|done].
    apply trim_start_blank, Forall_app. done.
  - rewrite trim_start_app, E by (rewrite E; done). by apply trim_end_skip.
Qed.

(** The same function applied to the first, respectively the last,
    element of a list. *)
Definition on_first {A} (f : A -> A) (l : list A) : list A :=
  match l with
  | [] => []
  | h :: r => f h :: r
  end.

Fixpoint on_last {A} (f : A -> A) (l : list A) : list A :=
  match l with
  | [] => []
  | [x] => [f x]
  | h :: r => h :: on_last f r
  end.

Definition comma_free (s : jsstring) : Prop := Forall (fun c => c <> code ",") s.

Lemma blank_comma_free ws : blank ws -> comma_free ws.
Proof. intros H. eapply Forall_impl; [exact H|]. intros c Hc ->. discriminate. Qed.

Lemma split_prefix ws s :
  comma_free ws ->
  split (code ",") (ws ++ s) = on_first (app ws) (split (code ",") s).
Proof.
  induction 1 as [|c ws Hc _ IH]; cbn [app split on_first].
  - by destruct (split (code ",") s).
  - apply N.eqb_neq in Hc. rewrite Hc, IH.
    pose proof (split_not_nil (code ",") s). by destruct (split (code ",") s).
Qed.

Lemma split_suffix s ws :
  comma_free ws ->
  split (code ",") (s ++ ws)
  = on_last (fun x => x ++ ws) (split (code ",") s).
Proof.
  intros Hws. induction s as [|c t IH]; cbn [app split on_last].
  - by rewrite split_no_separator.
  - pose proof (split_not_nil (code ",") t) as Hne.
    destruct (c =? code ",")%N.
    + rewrite IH. by destruct (split (code ",") t).
    + rewrite IH. destruct (split (code ",") t) as [|h [|h2 r]]; [done|done|done].
Qed.

Lemma map_trim_on_first ws l :
  blank ws -> List.map trim (on_first (app ws) l) = List.map trim l.
Proof. intros H. destruct l as [|h r]; simpl; [done|]. by rewrite trim_skip_left. Qed.

Lemma map_trim_on_last ws l :
  blank ws -> List.map trim (on_last (fun x => x ++ ws) l) = List.map trim l.
Proof.
  intros H. induction l as [|h [|h2 r] IH]; simpl; [done| |].
  - by rewrite trim_skip_right.
  - simpl in IH. by rewrite IH.
Qed.

Lemma parts_of_padded ws1 s ws2 :
  blank ws1 -> blank ws2 -> parts_of (ws1 ++ s ++ ws2) = parts_of s.
Proof.
  intros H1 H2. unfold parts_of.
  rewrite split_prefix, split_suffix by by apply blank_comma_free.
  by rewrite map_trim_on_first, map_trim_on_last.
Qed.

(** X5.  White space before and after the whole input is ignored. *)
Theorem surrounding_space_is_ignored ws1 s ws2 :
  blank ws1 -> blank ws2 ->
  parseComplexNumbers (ws1 ++ s ++ ws2) = parseComplexNumbers s.
Proof.
  intros H1 H2. unfold parseComplexNumbers.
  by rewrite trim_skip_left, trim_skip_right, parts_of_padded.
Qed.

Lemma surrounding_space_is_ignored_witness :
  parseComplexNumbers (str "  " ++ str "-1, 2j" ++ str " ")
  = parseComplexNumbers (str "-1, 2j").
Proof.
  apply surrounding_space_is_ignored; repeat constructor.
Defined.

(** ** How many numbers come back *)

Fixpoint commas (s : jsstring) : nat :=
  match s with
  | [] => 0
  | c :: t => (if (c =? code ",")%N then 1 else 0) + commas t
  end.

Lemma length_split s : length (split (code ",") s) = S (commas s).
Proof.
  induction s as [|c t IH]; cbn [split commas length]; [done|].
  destruct (c =? code ",")%N; cbn [length]; [by rewrite IH|].
  pose proof (split_not_nil (code ",") t).
  destruct (split (code ",") t); [done|]. cbn [length] in *. lia.
Qed.

Lemma parse_normal_nonblank input l :
  trim input <> [] -> parseComplexNumbers input = Normal l ->
  l = List.map parse_part (parts_of input)
  /\ existsb (fun c => isNaN (get_real c) || isNaN (get_imag c)) l = false.
Proof.
  unfold parseComplexNumbers. intros Hne.
  destruct (trim input) as [|x xs]; [done|].
  destruct (existsb _ _) eqn:E; [done|]. intros [= <-]. done.
Qed.

(** X6.  An input that is not blank and has [n] commas gives [n + 1]
    numbers, one for each token in order; an empty token, as between
    two commas or after a trailing comma, gives the number 0. *)
Theorem one_number_per_token input l :
  trim input <> [] -> parseComplexNumbers input = Normal l ->
  length l = S (commas input)
  /\ (forall i tok, parts_of input !! i = Some tok -> l !! i = Some (parse_part tok))
  /\ (forall i, parts_of input !! i = Some [] ->
                l !! i = Some (Complex (Fin 0) (Fin 0))).
Proof.
  intros Hne Hl. apply parse_normal_nonblank in Hl as [-> _]; [|done].
  assert (forall i tok, parts_of input !! i = Some tok ->
            List.map parse_part (parts_of input) !! i = Some (parse_part tok)) as Hi.
  { intros i tok Hi. change (List.map parse_part ?x) with (parse_part <$> x).
    by rewrite list_lookup_fmap, Hi. }
  split_and!.
  - unfold parts_of. by rewrite !length_map, length_split.
  - exact Hi.
  - intros i H. by rewrite (Hi i [] H).
Qed.

Lemma one_number_per_token_witness :
  exists l, parseComplexNumbers (str "0,,-2") = Normal l
            /\ length l = 3%nat /\ l !! 1%nat = Some (Complex (Fin 0) (Fin 0)).
Proof.
  eexists. split; [reflexivity|].
  destruct (one_number_per_token (str "0,,-2") _ ltac:(discriminate) eq_refl)
    as (Hlen & _ & Hz).
  split; [exact Hlen|]. apply Hz. reflexivity.
Defined.

Lemma split_trailing_comma s :
  split (code ",") (s ++ [code ","]) = split (code ",") s ++ [[]].
Proof.
  induction s as [|c t IH]; cbn [app split]; [reflexivity|].
  pose proof (split_not_nil (code ",") t) as Hne.
  destruct (c =? code ",")%N; rewrite IH; [done|].
  by destruct (split (code ",") t).
Qed.

Lemma nonblank_after_comma input : trim (input ++ [code ","]) <> [].
Proof.
  intros Ht. apply trim_blank, Forall_app in Ht as [_ Ht]. by inversion Ht.
Qed.

(** X7.  A comma typed after an input that is accepted and not blank
    adds the number 0 to the list: for poles, a pole at the origin.
    Typed after a blank input, which alone gives the empty list, it
    gives two numbers 0, one for the empty token on either side. *)
Theorem trailing_comma_adds_zero input l :
  parseComplexNumbers input = Normal l ->
  (trim input <> [] ->
   parseComplexNumbers (input ++ [code ","])
   = Normal (l ++ [Complex (Fin 0) (Fin 0)]))
  /\ (trim input = [] ->
      l = []
      /\ parseComplexNumbers (input ++ [code ","])
         = Normal [Complex (Fin 0) (Fin 0); Complex (Fin 0) (Fin 0)]).
Proof.
  intros Hl. split.
  - intros Hne. apply parse_normal_nonblank in Hl as [-> He]; [|done].
    unfold parseComplexNumbers.
    destruct (trim (input ++ [code ","])) as [|x xs] eqn:Ht.
    { by apply nonblank_after_comma in Ht. }
    unfold parts_of. rewrite split_trailing_comma, !map_app.
    rewrite existsb_app. unfold parts_of in He. rewrite He. reflexivity.
  - intros Hb. split.
    { unfold parseComplexNumbers in Hl. rewrite Hb in Hl. by injection Hl. }
    unfold parseComplexNumbers.
    destruct (trim (input ++ [code ","])) as [|x xs] eqn:Ht.
    { by apply nonblank_after_comma in Ht. }
    unfold parts_of. rewrite split_trailing_comma.
    rewrite split_no_separator by (apply blank_comma_free; by apply trim_blank).
    cbn [app List.map]. rewrite Hb. reflexivity.
Qed.

Lemma trailing_comma_adds_zero_witness :
  parseComplexNumbers (str "0, -1" ++ [code ","])
  = Normal ([Complex (Fin 0) (Fin 0); Complex (Fin (-1)) (Fin 0)]
            ++ [Complex (Fin 0) (Fin 0)])
  /\ parseComplexNumbers (str " " ++ [code ","])
     = Normal [Complex (Fin 0) (Fin 0); Complex (Fin 0) (Fin 0)].
Proof.
  split.
  - apply (trailing_comma_adds_zero (str "0, -1")); [reflexivity|discriminate].
  - apply (trailing_comma_adds_zero (str " ") []); reflexivity.
Defined.

End ParserLaws.

(* ===================================================================== *)
(** * What the input components pass on *)
(* ===================================================================== *)

Module CallFacts.
Import JS ParsingUtils ParsingFacts ControlSystemUtils.

Module RL := RootLocusInput.
Module FD := FrequencyDomainInput.

(** A parsed number that can be sent: an object whose two parts are
    not NaN. *)
Definition sendable (c : parsed) : Prop :=
  exists re im, c = Complex re im /\ re <> NaN /\ im <> NaN.

Lemma parse_normal_sendable input l :
  parseComplexNumbers input = Normal l -> Forall sendable l.
Proof.
  intros H. destruct (parse_outcomes input) as [E|(l' & E & Hall)];
    rewrite E in H; [done|]. by injection H as <-.
Qed.

(** X8.  The root-locus input either shows an error or calls
    [onAnalyze], never both and never neither; a call is made once,
    with the two parsed lists, of which the poles are not empty and no
    number is NaN. *)
Theorem root_locus_input_outcome (st : RL.state) :
  ((RL.handleAnalyze true st).2 = [] <-> RL.error (RL.handleAnalyze true st).1 <> None)
  /\ (forall c, In c (RL.handleAnalyze true st).2 ->
        (RL.handleAnalyze true st).2 = [c]
        /\ exists z p, c = RL.OnAnalyze z p
             /\ parseComplexNumbers (RL.zeros st) = Normal z
             /\ parseComplexNumbers (RL.poles st) = Normal p
             /\ p <> [] /\ Forall sendable z /\ Forall sendable p).
Proof.
  unfold RL.handleAnalyze. simpl.
  destruct (parseComplexNumbers (RL.zeros st)) as [z|m] eqn:Ez; simpl;
    [|split; [done|intros c []]].
  destruct (parseComplexNumbers (RL.poles st)) as [p|m] eqn:Ep; simpl;
    [|split; [done|intros c []]].
  destruct p as [|p0 ps]; simpl; [split; [done|intros c []]|].
  split; [split; [done|by intros []]|].
  intros c [<-|[]]. split; [done|]. exists z, (p0 :: ps).
  split_and!; try done; by eapply parse_normal_sendable.
Qed.

(** X9.  The frequency-domain input, likewise; the gain it passes on
    is the text typed, which [parseFloat] reads as a number, and the
    request then built never carries a gain of NaN or 0. *)
Theorem frequency_domain_input_outcome (st : FD.state) :
  ((FD.handleAnalyze true st).2 = [] <-> FD.error (FD.handleAnalyze true st).1 <> None)
  /\ (forall c, In c (FD.handleAnalyze true st).2 ->
        (FD.handleAnalyze true st).2 = [c]
        /\ exists z p, c = FD.OnAnalyze z p (FD.gain st)
             /\ parseComplexNumbers (FD.zeros st) = Normal z
             /\ parseComplexNumbers (FD.poles st) = Normal p
             /\ p <> [] /\ Forall sendable z /\ Forall sendable p
             /\ parseFloat (FD.gain st) <> NaN)
  /\ (forall r, In r (HomePage.frequency_domain_click st).2 ->
        exists b, payload r = FrequencyDomainBody b
                  /\ fd_poles b <> []
                  /\ fd_gain b <> NaN /\ number_is_zero (fd_gain b) = false).
Proof.
  unfold HomePage.frequency_domain_click, FD.handleAnalyze. simpl.
  destruct (parseComplexNumbers (FD.zeros st)) as [z|m] eqn:Ez; simpl;
    [|split_and!; [done|intros c []|intros r []]].
  destruct (parseComplexNumbers (FD.poles st)) as [p|m] eqn:Ep; simpl;
    [|split_and!; [done|intros c []|intros r []]].
  destruct p as [|p0 ps]; simpl; [split_and!; [done|intros c []|intros r []]|].
  destruct (parseFloat (FD.gain st)) as [|neg|q] eqn:Eg; simpl;
    [split_and!; [done|intros c []|intros r []]| |].
  - split_and!; [split; [done|by intros []]| |].
    + intros c [<-|[]]. split; [done|]. exists z, (p0 :: ps).
      split_and!; try done; by eapply parse_normal_sendable.
    + intros r [<-|[]]. eexists. split; [reflexivity|]. simpl.
      rewrite Eg. done.
  - split_and!; [split; [done|by intros []]| |].
    + intros c [<-|[]]. split; [done|]. exists z, (p0 :: ps).
      split_and!; try done; by eapply parse_normal_sendable.
    + intros r [<-|[]]. eexists. split; [reflexivity|]. simpl.
      rewrite Eg. unfold number_or, number_truthy. simpl.
      destruct (Qeq_bool q 0) eqn:E0; simpl; [done|]. by rewrite E0.
Qed.

End CallFacts.

(* ===================================================================== *)
(** * Properties of the further input components *)
(* ===================================================================== *)

Module MoreInputFacts.
Import JS ParsingFacts ParserLaws.

Module SSI := SymbolicStabilityInput.
Module IAI := InverseAnalysisInput.
Module CSI := ControlSystemInput.

(** ** Trimming *)

Lemma trim_start_idem s : trim_start (trim_start s) = trim_start s.
Proof.
  destruct (trim_start s) as [|c t] eqn:E; [done|].
  apply trim_start_head in E. simpl. by rewrite E.
Qed.

Lemma trim_start_last a c :
  is_white_space c = false -> exists v, trim_start (a ++ [c]) = v ++ [c].
Proof.
  intros Hc. induction a as [|d a [v IH]]; simpl.
  - rewrite Hc. by exists [].
  - destruct (is_white_space d); [by exists v|]. by exists (d :: a).
Qed.

Lemma trim_end_idem s : trim_end (trim_end s) = trim_end s.
Proof. unfold trim_end. by rewrite rev_involutive, trim_start_idem. Qed.

Lemma trim_end_head c t :
  is_white_space c = false -> exists u, trim_end (c :: t) = c :: u.
Proof.
  intros Hc. unfold trim_end. simpl.
  destruct (trim_start_last (rev t) c Hc) as [v ->].
  rewrite rev_app_distr. simpl. eauto.
Qed.

(** Trimming twice is trimming once. *)
Lemma trim_idem s : trim (trim s) = trim s.
Proof.
  unfold trim. destruct (trim_start s) as [|c t] eqn:E; [done|].
  apply trim_start_head in E.
  destruct (trim_end_head c t E) as [u Hu]. rewrite Hu.
  simpl. rewrite E, <- Hu. apply trim_end_idem.
Qed.

Lemma Forall_trim_start (P : char16 -> Prop) s : Forall P s -> Forall P (trim_start s).
Proof.
  induction 1 as [|c t Hc Ht IH]; simpl; [done|].
  destruct (is_white_space c); [done|by constructor].
Qed.

Lemma Forall_trim (P : char16 -> Prop) s : Forall P s -> Forall P (trim s).
Proof.
  intros H. unfold trim, trim_end.
  apply Forall_rev, Forall_trim_start, Forall_rev, Forall_trim_start, H.
Qed.

(** Every token of a split is made of characters of the text and holds
    no separator. *)
Lemma Forall_split (P : char16 -> Prop) sep s :
  Forall P s -> Forall (Forall (fun c => P c /\ c <> sep)) (split sep s).
Proof.
  induction 1 as [|c t Hc Ht IH]; cbn [split]; [by repeat constructor|].
  destruct (c =? sep)%N eqn:E; [by constructor|].
  apply N.eqb_neq in E.
  destruct (split sep t) as [|h r]; [by repeat constructor|].
  inversion IH; subst. constructor; [|done]. by constructor.
Qed.

(** ** The symbolic-stability input *)

(** A coefficient text as it is passed on. *)
Definition clean (s : jsstring) : Prop :=
  s <> [] /\ trim s = s
  /\ Forall (fun c => SSI.valid_char c = true /\ c <> code ",") s.

(** X10.  The symbolic-stability input either shows an error or calls
    [onAnalyze] once; what it passes is a non-empty list of
    coefficient texts, each non-empty, free of white space at both
    ends, free of commas and made of the permitted characters only:
    empty tokens have been dropped. *)
Theorem symbolic_input_outcome (st : SSI.state) :
  ((SSI.handleAnalyze true st).2 = []
   <-> SSI.error (SSI.handleAnalyze true st).1 <> None)
  /\ (forall c, In c (SSI.handleAnalyze true st).2 ->
        (SSI.handleAnalyze true st).2 = [c]
        /\ exists l, c = SSI.OnAnalyze l /\ l <> [] /\ Forall clean l
             /\ l = List.filter SSI.not_empty (ParsingUtils.parts_of (SSI.coeffs st))).
Proof.
  unfold SSI.handleAnalyze. cbv zeta.
  change (SSI.coeffs (SSI.setError None st)) with (SSI.coeffs st).
  set (l := List.filter SSI.not_empty
              (List.map trim (split (code ",") (SSI.coeffs st)))).
  destruct l as [|s0 l0] eqn:El; cbn [length Nat.eqb];
    [split; [done|intros c []]|].
  destruct (SSI.validChars_test (SSI.coeffs st)) eqn:Ev; cbn [negb];
    [|split; [done|intros c []]].
  split; [split; [done|by intros []]|].
  intros c [<-|[]]. split; [done|]. exists (s0 :: l0).
  split_and!; [done|done| |done].
  rewrite <- El. unfold l. apply List.Forall_forall. intros s Hs.
  apply filter_In in Hs as [Hs Hne]. apply in_map_iff in Hs as (tok & <- & Htok).
  unfold clean. split_and!.
  - by destruct (trim tok).
  - apply trim_idem.
  - apply Forall_trim.
    assert (Forall (fun c => SSI.valid_char c = true) (SSI.coeffs st)) as Hall.
    { apply List.Forall_forall. intros c Hc.
      unfold SSI.validChars_test in Ev. rewrite forallb_forall in Ev. by apply Ev. }
    pose proof (Forall_split _ (code ",") _ Hall) as Hsp.
    rewrite List.Forall_forall in Hsp. by apply Hsp.
Qed.

(** ** The inverse-analysis input *)

(** What a text field contributes to the metrics. *)
Definition given (text : jsstring) : option number :=
  match text with
  | [] => None
  | _ :: _ => Some (parseFloat text)
  end.

Definition metrics_of (st : IAI.state) : gmap string number :=
  IAI.set_if_given "settling_time" (IAI.settlingTime st)
    (IAI.set_if_given "max_overshoot" (IAI.maxOvershoot st)
       (IAI.set_if_given "peak_time" (IAI.peakTime st)
          (IAI.set_if_given "rise_time" (IAI.riseTime st) ∅))).

Lemma metrics_lookup (st : IAI.state) :
  metrics_of st !! "rise_time" = given (IAI.riseTime st)
  /\ metrics_of st !! "peak_time" = given (IAI.peakTime st)
  /\ metrics_of st !! "max_overshoot" = given (IAI.maxOvershoot st)
  /\ metrics_of st !! "settling_time" = given (IAI.settlingTime st)
  /\ (forall k, is_Some (metrics_of st !! k) ->
        k = "rise_time" \/ k = "peak_time" \/ k = "max_overshoot"
        \/ k = "settling_time").
Proof.
  unfold metrics_of, IAI.set_if_given, given.
  destruct (IAI.riseTime st), (IAI.peakTime st), (IAI.maxOvershoot st),
    (IAI.settlingTime st); split_and!; try by simplify_map_eq.
  all: intros k [v Hk];
    repeat (apply lookup_insert_Some in Hk as [[<- _]|[_ Hk]]; [tauto|]);
    by rewrite lookup_empty in Hk.
Qed.

Lemma metrics_empty (st : IAI.state) :
  size (metrics_of st) = 0%nat
  <-> IAI.riseTime st = [] /\ IAI.peakTime st = []
      /\ IAI.maxOvershoot st = [] /\ IAI.settlingTime st = [].
Proof.
  rewrite map_size_empty_iff.
  destruct (metrics_lookup st) as (H1 & H2 & H3 & H4 & _). split.
  - intros E. rewrite E, lookup_empty in H1, H2, H3, H4. unfold given in *.
    destruct (IAI.riseTime st), (IAI.peakTime st), (IAI.maxOvershoot st),
      (IAI.settlingTime st); done.
  - intros (E1 & E2 & E3 & E4). unfold metrics_of. by rewrite E1, E2, E3, E4.
Qed.

(** X11.  The inverse-analysis input calls [onAnalyze] exactly when
    some field is not empty, and shows an error otherwise. The object
    it passes has one property for each field that is not empty,
    holding [parseFloat] of the text as it is: a text that is no
    number goes out as NaN. *)
Theorem inverse_input_outcome (st : IAI.state) :
  ((IAI.handleAnalyze true st).2 = []
   <-> IAI.error (IAI.handleAnalyze true st).1 <> None)
  /\ ((IAI.handleAnalyze true st).2 = []
      <-> IAI.riseTime st = [] /\ IAI.peakTime st = []
          /\ IAI.maxOvershoot st = [] /\ IAI.settlingTime st = [])
  /\ (forall c, In c (IAI.handleAnalyze true st).2 ->
        (IAI.handleAnalyze true st).2 = [c]
        /\ exists m, c = IAI.OnAnalyze m
             /\ m !! "rise_time" = given (IAI.riseTime st)
             /\ m !! "peak_time" = given (IAI.peakTime st)
             /\ m !! "max_overshoot" = given (IAI.maxOvershoot st)
             /\ m !! "settling_time" = given (IAI.settlingTime st)
             /\ (forall k, is_Some (m !! k) ->
                   k = "rise_time" \/ k = "peak_time" \/ k = "max_overshoot"
                   \/ k = "settling_time")).
Proof.
  pose proof (metrics_empty st) as He.
  unfold IAI.handleAnalyze. cbv zeta.
  change (IAI.set_if_given "settling_time" _ _) with (metrics_of st).
  destruct (size (metrics_of st)) as [|n] eqn:Es; cbn [Nat.eqb fst snd].
  - split_and!; [done|split; [intros _; by apply He|done]|intros c []].
  - split_and!.
    + split; [done|by intros []].
    + split; [done|]. intros H. apply He in H. done.
    + intros c [<-|[]]. split; [done|]. exists (metrics_of st).
      split; [done|]. apply metrics_lookup.
Qed.

(** ** The transfer-function input *)

Import Conversions.

Lemma Number_blank t : blank t -> Number t = Fin 0.
Proof. intros H. apply trim_blank in H. unfold Number. by rewrite H. Qed.

Lemma no_NaN_iff (l : list number) :
  existsb number_isNaN l = false <-> Forall (fun n => n <> NaN) l.
Proof.
  induction l as [|n l IH]; simpl; [split; [constructor|done]|].
  rewrite orb_false_iff, IH. split.
  - intros [Hn Hl]. constructor; [by intros ->|done].
  - inversion 1; subst. split; [by destruct n|done].
Qed.

(** X12.  The transfer-function input shows an error or calls
    [onAnalyze] once with one coefficient for each token of either
    field, none of them NaN. A blank token counts as the coefficient
    0: with a blank denominator field and a numeric numerator the call
    is made with the denominator [[0]]. *)
Theorem coefficient_input_outcome (st : CSI.state) :
  ((CSI.handleAnalyze true st).2 = []
   <-> CSI.error (CSI.handleAnalyze true st).1 <> None)
  /\ (forall c, In c (CSI.handleAnalyze true st).2 ->
        (CSI.handleAnalyze true st).2 = [c]
        /\ exists num den, c = CSI.OnAnalyze num den
             /\ length num = S (commas (CSI.numerator st))
             /\ length den = S (commas (CSI.denominator st))
             /\ Forall (fun n => n <> NaN) num /\ Forall (fun n => n <> NaN) den
             /\ (forall i tok, split (code ",") (CSI.numerator st) !! i = Some tok ->
                   num !! i = Some (Number tok))
             /\ (forall i tok, split (code ",") (CSI.denominator st) !! i = Some tok ->
                   den !! i = Some (Number tok)
                   /\ (blank tok -> den !! i = Some (Fin 0))))
  /\ (blank (CSI.denominator st) ->
      Forall (fun tok => Number tok <> NaN) (split (code ",") (CSI.numerator st)) ->
      (CSI.handleAnalyze true st).2
      = [CSI.OnAnalyze (List.map Number (split (code ",") (CSI.numerator st)))
                       [Fin 0]]).
Proof.
  unfold CSI.handleAnalyze. cbv zeta.
  change (CSI.numerator (CSI.setError None st)) with (CSI.numerator st).
  change (CSI.denominator (CSI.setError None st)) with (CSI.denominator st).
  set (num := List.map Number (split (code ",") (CSI.numerator st))).
  set (den := List.map Number (split (code ",") (CSI.denominator st))).
  assert (forall (text : jsstring) i tok, split (code ",") text !! i = Some tok ->
            List.map Number (split (code ",") text) !! i = Some (Number tok)) as Hi.
  { intros text i tok Hi. change (List.map Number ?x) with (Number <$> x).
    by rewrite list_lookup_fmap, Hi. }
  split_and!.
  - destruct (existsb number_isNaN num || existsb number_isNaN den);
      cbn [fst snd]; [done|]. split; [done|by intros []].
  - destruct (existsb number_isNaN num || existsb number_isNaN den) eqn:E;
      cbn [snd]; [intros c []|].
    apply orb_false_iff in E as [En Ed]. apply no_NaN_iff in En, Ed.
    intros c [<-|[]]. split; [done|]. exists num, den.
    split_and!; try done.
    + unfold num. by rewrite length_map, length_split.
    + unfold den. by rewrite length_map, length_split.
    + apply Hi.
    + intros i tok Ht. split; [by apply Hi|].
      intros Hb. rewrite <- (Number_blank tok Hb). by apply Hi.
  - intros Hb Hnum.
    assert (den = [Fin 0]) as Hden.
    { unfold den. rewrite split_no_separator by by apply blank_comma_free.
      cbn [List.map]. by rewrite Number_blank. }
    assert (existsb number_isNaN num = false) as ->.
    { apply no_NaN_iff. unfold num. by apply Forall_map. }
    rewrite Hden. reflexivity.
Qed.

Lemma coefficient_input_outcome_witness :
  (CSI.handleAnalyze true
     {| CSI.numerator := str "1"; CSI.denominator := str ""; CSI.error := None |}).2
  = [CSI.OnAnalyze [Fin 1] [Fin 0]].
Proof.
  apply (coefficient_input_outcome
           {| CSI.numerator := str "1"; CSI.denominator := str ""; CSI.error := None |}).
  - constructor.
  - repeat constructor. discriminate.
Defined.

End MoreInputFacts.

(* ===================================================================== *)
(** * Properties of the result views *)
(* ===================================================================== *)

Module ViewFacts.
Import JS View.

Module FDR := FrequencyDomainResult.
Module IAR := InverseAnalysisResult.

(** What a result card can format: [null] or a number. *)
Definition displayable (v : value) : Prop := v = VNull \/ exists n, v = VNum n.

Lemma toFixed_normal v digits :
  (exists t, toFixed v digits = Normal t) <-> exists n, v = VNum n.
Proof.
  split.
  - intros [t H]. destruct v; try discriminate. by eexists.
  - intros [n ->]. by eexists.
Qed.

Lemma toFixed_throw v digits :
  (forall n, v <> VNum n) -> toFixed v digits = Throw "TypeError".
Proof. intros H. destruct v; try reflexivity. by destruct (H n). Qed.

Lemma displayable_cases v :
  displayable v \/ (v <> VNull /\ forall n, v <> VNum n).
Proof.
  destruct v; [right|left; by left|left; right; by eexists|right]; by split.
Qed.

Lemma not_both v : displayable v -> v <> VNull -> exists n, v = VNum n.
Proof. by intros [->|H]. Qed.

(** X13.  The card of the inverse analysis is built exactly when the
    damping ratio and the natural frequency are each [null] or a
    number; anything else, a missing field included, ends the
    rendering with a [TypeError]. A card that is built is never empty,
    and it says that nothing could be computed exactly when both
    values are [null] and the message is falsy. *)
Theorem inverse_result_card (r : IAR.result) :
  ((exists lines, IAR.render (Some r) = Normal (IAR.Card lines))
   <-> displayable (IAR.damping_ratio r) /\ displayable (IAR.natural_frequency r))
  /\ (~ (displayable (IAR.damping_ratio r) /\ displayable (IAR.natural_frequency r))
      -> IAR.render (Some r) = Throw "TypeError")
  /\ (forall lines, IAR.render (Some r) = Normal (IAR.Card lines) ->
        lines <> []
        /\ (In IAR.CannotCompute lines
            <-> IAR.damping_ratio r = VNull /\ IAR.natural_frequency r = VNull
                /\ value_truthy (IAR.message r) = false)
        /\ (forall t, In (IAR.DampingRatio t) lines
            <-> exists n, IAR.damping_ratio r = VNum n /\ t = Fixed n 3)
        /\ (forall t, In (IAR.NaturalFrequency t) lines
            <-> exists n, IAR.natural_frequency r = VNum n /\ t = Fixed n 3)).
Proof.
  destruct r as [dr nf msg]. cbn [IAR.damping_ratio IAR.natural_frequency IAR.message].
  unfold IAR.render, and_element.
  cbn [IAR.damping_ratio IAR.natural_frequency IAR.message].
  split; [|split].
  - split.
    + intros [lines H].
      destruct dr, nf; try discriminate; (split; [first [by left|right; by eexists]|first [by left|right; by eexists]]).
    + intros [[->|[n ->]] [->|[m ->]]]; cbn; eexists; reflexivity.
  - intros H.
    destruct (displayable_cases dr) as [Hd|[Hd1 Hd2]].
    + destruct (displayable_cases nf) as [Hn|[Hn1 Hn2]]; [by destruct H|].
      destruct Hd as [->|[n ->]]; destruct nf; try done; by destruct (Hn2 n0) || by destruct (Hn2 n).
    + destruct dr; try done. by destruct (Hd2 n).
  - intros lines H.
    destruct dr, nf; try discriminate; cbn in H;
      injection H as <-;
      destruct (value_truthy msg) eqn:Hm; destruct msg; try discriminate Hm;
      cbn [app negb andb].
    all: split; [discriminate|].
    all: split; [split; [intros Hin; cbn in Hin; intuition (try discriminate; try done)
                        |intros (? & ? & ?); try discriminate; cbn; intuition]|].
    all: split; intros t; (split;
           [intros Hin; cbn in Hin;
            repeat match goal with
                   | H : _ \/ _ |- _ => destruct H
                   | H : False |- _ => destruct H
                   | H : _ = _ |- _ => first [discriminate H | injection H as <-]
                   end; by eexists
           |intros (k & Hk & ->); try discriminate Hk; injection Hk as ->;
            cbn; tauto]).
Qed.

Lemma asymptote_items_normal (r : FDR.result) :
  (exists l, FDR.asymptote_items r = Normal l)
  <-> (forall a, FDR.nyquist r ≫= FDR.nyquist_asymptote = Some a ->
         FDR.is_vertical_line (FDR.type a) = true -> exists n, FDR.avalue a = VNum n).
Proof.
  unfold FDR.asymptote_items.
  destruct (FDR.nyquist r ≫= FDR.nyquist_asymptote) as [a|]; [|split; [done|by eexists]].
  destruct (FDR.is_vertical_line (FDR.type a)) eqn:Hv.
  - split.
    + intros [l H] a' [= <-] _. destruct (FDR.avalue a); try discriminate. by eexists.
    + intros H. destruct (H a eq_refl Hv) as [n ->]. by eexists.
  - split; [|by eexists]. intros _ a' [= <-] Hv'. rewrite Hv in Hv'. discriminate.
Qed.

Lemma completion_cases {A} (c : completion A) :
  (exists a, c = Normal a) \/ (exists m, c = Throw m).
Proof. destruct c; [left|right]; by eexists. Qed.

Lemma asymptote_items_throw (r : FDR.result) m :
  FDR.asymptote_items r = Throw m -> m = "TypeError".
Proof.
  unfold FDR.asymptote_items.
  destruct (FDR.nyquist r ≫= FDR.nyquist_asymptote) as [a|]; [|done].
  destruct (FDR.is_vertical_line (FDR.type a)); [|done].
  destruct (FDR.avalue a); cbn; intros H; try discriminate H; by injection H.
Qed.

(** A response that the card of the frequency-domain analysis can
    show. *)
Definition well_formed (r : FDR.result) : Prop :=
  exists sm, FDR.stability_margins r = Some sm
    /\ displayable (FDR.gain_margin_db sm) /\ displayable (FDR.phase_margin_deg sm)
    /\ (forall a, FDR.nyquist r ≫= FDR.nyquist_asymptote = Some a ->
          FDR.is_vertical_line (FDR.type a) = true ->
          exists n, FDR.avalue a = VNum n).

(** X14.  The card of the frequency-domain analysis is built exactly
    when the response has stability margins, each margin is [null] or
    a number, and the asymptote of a vertical line has a number as its
    value; in every other case the rendering ends with a [TypeError].
    A card that is built starts with the gain margin and the phase
    margin and has at most one further item. *)
Theorem frequency_result_card (r : FDR.result) :
  ((exists items, FDR.render (Some r) = Normal (FDR.Card items)) <-> well_formed r)
  /\ (~ well_formed r -> FDR.render (Some r) = Throw "TypeError")
  /\ (forall items, FDR.render (Some r) = Normal (FDR.Card items) ->
        exists gm pm rest, items = FDR.GainMargin gm :: FDR.PhaseMargin pm :: rest
                           /\ (length rest <= 1)%nat).
Proof.
  assert (Hiff : (exists items, FDR.render (Some r) = Normal (FDR.Card items))
                 <-> well_formed r).
  { unfold well_formed, FDR.render.
    destruct (FDR.stability_margins r) as [sm|]; [|split; [by intros [? ?]|by intros (? & ? & _)]].
    unfold FDR.gain_margin_text, FDR.phase_margin_text.
    split.
    - intros [items H]. exists sm. split; [done|].
      destruct (FDR.gain_margin_db sm) eqn:Hg; try discriminate;
        destruct (FDR.phase_margin_deg sm) eqn:Hp; try discriminate;
        (split; [first [by left|right; by eexists]|]);
        (split; [first [by left|right; by eexists]|]);
        apply asymptote_items_normal;
        cbn in H; destruct (FDR.asymptote_items r); try discriminate; by eexists.
    - intros (sm' & [= <-] & Hg & Hp & Ha).
      apply asymptote_items_normal in Ha as [l Hl].
      destruct Hg as [->|[n ->]], Hp as [->|[k ->]]; cbn; rewrite Hl; cbn; by eexists. }
  split; [exact Hiff|]. split.
  - intros Hn. unfold FDR.render.
    destruct (FDR.stability_margins r) as [sm|] eqn:Hsm; [|done].
    destruct (completion_cases (FDR.render (Some r))) as [[v Hv]|[m Hm]].
    + unfold FDR.render in Hv. rewrite Hsm in Hv.
      destruct Hn. apply Hiff. unfold FDR.render. rewrite Hsm.
      destruct (gm ← FDR.gain_margin_text sm; pm ← FDR.phase_margin_text sm;
                asy ← FDR.asymptote_items r;
                mret (FDR.Card ([FDR.GainMargin gm; FDR.PhaseMargin pm] ++ asy)))
        as [c|] eqn:E; [|discriminate].
      destruct (FDR.gain_margin_text sm); [|discriminate]. cbn in E.
      destruct (FDR.phase_margin_text sm); [|discriminate]. cbn in E.
      destruct (FDR.asymptote_items r); [|discriminate]. cbn in E.
      injection E as <-. by eexists.
    + unfold FDR.render in Hm. rewrite Hsm in Hm. rewrite Hm. f_equal.
      unfold FDR.gain_margin_text, FDR.phase_margin_text in Hm.
      destruct (FDR.gain_margin_db sm); cbn in Hm; try congruence;
        destruct (FDR.phase_margin_deg sm); cbn in Hm; try congruence;
        destruct (FDR.asymptote_items r) eqn:E; try discriminate;
        cbn in Hm; injection Hm as <-; by apply asymptote_items_throw in E.
  - intros items H. unfold FDR.render in H.
    destruct (FDR.stability_margins r) as [sm|]; [|discriminate].
    destruct (FDR.gain_margin_text sm) as [gm|]; [|discriminate]. cbn in H.
    destruct (FDR.phase_margin_text sm) as [pm|]; [|discriminate]. cbn in H.
    unfold FDR.asymptote_items in H.
    destruct (FDR.nyquist r ≫= FDR.nyquist_asymptote) as [a|].
    + destruct (FDR.is_vertical_line (FDR.type a)).
      * destruct (toFixed (FDR.avalue a) 4); [|discriminate]. cbn in H.
        injection H as <-. do 3 eexists. split; [reflexivity|]. cbn. lia.
      * cbn in H. injection H as <-. do 3 eexists. split; [reflexivity|]. cbn. lia.
    + cbn in H. injection H as <-. do 3 eexists. split; [reflexivity|]. cbn. lia.
Qed.

End ViewFacts.

(* ===================================================================== *)
(** * Properties of the plots *)
(* ===================================================================== *)

Module PlotFacts.
Import JS JSMath View ControlSystemUtils ViewFacts.

Module R := RootLocusResult.
Module RLP := RootLocusPlot.
Module RLD := RootLocusDetails.
Module FDP := FrequencyDomainPlots.

Lemma round_double_not_NaN q : round_double q <> NaN.
Proof.
  unfold round_double. destruct (Qeq_bool q 0); [done|].
  cbv zeta. by destruct (Qle_bool _ _).
Qed.

Lemma max2_NaN a b : max2 a b = NaN <-> a = NaN \/ b = NaN.
Proof.
  split.
  - destruct a as [|[]|x], b as [|[]|y]; cbn; try (by left); try (by right);
      try discriminate; destruct (Qle_bool x y); discriminate.
  - intros [-> | ->]; [done|by destruct a].
Qed.

Lemma min2_NaN a b : min2 a b = NaN <-> a = NaN \/ b = NaN.
Proof.
  split.
  - destruct a as [|[]|x], b as [|[]|y]; cbn; try (by left); try (by right);
      try discriminate; destruct (Qle_bool x y); discriminate.
  - intros [-> | ->]; [done|by destruct a].
Qed.

Lemma abs_NaN x : abs x = NaN <-> x = NaN.
Proof. by destruct x. Qed.

Lemma number_neg_NaN x : number_neg x = NaN <-> x = NaN.
Proof. by destruct x. Qed.

(** One argument that is no number makes the extremum NaN. *)
Definition some_NaN (data : list value) : Prop :=
  Exists (fun v => ToNumber v = NaN) data.

Lemma fold_max_NaN data : forall a,
  fold_left (fun acc v => max2 acc (ToNumber v)) data a = NaN
  <-> a = NaN \/ some_NaN data.
Proof.
  unfold some_NaN.
  induction data as [|v t IH]; intros a; cbn [fold_left].
  - split; [by left|]. intros [H|H]; [done|inversion H].
  - rewrite IH, max2_NaN, Exists_cons. tauto.
Qed.

Lemma fold_min_NaN data : forall a,
  fold_left (fun acc v => min2 acc (ToNumber v)) data a = NaN
  <-> a = NaN \/ some_NaN data.
Proof.
  unfold some_NaN.
  induction data as [|v t IH]; intros a; cbn [fold_left].
  - split; [by left|]. intros [H|H]; [done|inversion H].
  - rewrite IH, min2_NaN, Exists_cons. tauto.
Qed.

Lemma max_of_NaN data : max_of data = NaN <-> some_NaN data.
Proof. unfold max_of. rewrite fold_max_NaN. split; [by intros [?|?]|by right]. Qed.

Lemma min_of_NaN data : min_of data = NaN <-> some_NaN data.
Proof. unfold min_of. rewrite fold_min_NaN. split; [by intros [?|?]|by right]. Qed.

Lemma number_mul_NaN a y :
  Qeq_bool y 0 = false -> number_mul a (Fin y) = NaN <-> a = NaN.
Proof.
  intros Hy. destruct a as [|s|x]; cbn; [done| |].
  - rewrite Hy. done.
  - split; [|done]. intros H. by apply round_double_not_NaN in H.
Qed.

Lemma number_div_NaN a y :
  Qeq_bool y 0 = false -> number_div a (Fin y) = NaN <-> a = NaN.
Proof.
  intros Hy. destruct a as [|s|x]; cbn; [done|done|].
  rewrite Hy. split; [|done]. intros H. by apply round_double_not_NaN in H.
Qed.

Lemma number_leb_refl a : a <> NaN -> number_leb a a = true.
Proof.
  destruct a as [|[]|x]; try done. intros _. cbn. apply Qle_bool_iff, Qle_refl.
Qed.

Lemma number_leb_total a b :
  a <> NaN -> b <> NaN -> number_leb a b = false -> number_leb b a = true.
Proof.
  destruct a as [|[]|x], b as [|[]|y]; try done. cbn. intros _ _ H.
  apply Qle_bool_iff. apply Qlt_le_weak, Qnot_le_lt. intros Hle.
  apply Qle_bool_iff in Hle. congruence.
Qed.

Lemma max2_upper a b : a <> NaN -> b <> NaN -> number_leb b (max2 a b) = true.
Proof.
  intros Ha Hb.
  assert (max2 a b = if number_leb a b then b else a) as ->.
  { by destruct a, b. }
  destruct (number_leb a b) eqn:E; [by apply number_leb_refl|].
  by apply number_leb_total.
Qed.

Lemma twelve_tenths : exists q, literal (12 # 10) = Fin q /\ Qeq_bool q 0 = false.
Proof. eexists. split; vm_compute; reflexivity. Qed.

Lemma ten : exists q, literal 10 = Fin q /\ Qeq_bool q 0 = false.
Proof. eexists. split; vm_compute; reflexivity. Qed.

Lemma five_not_NaN : literal 5 <> NaN.
Proof. apply round_double_not_NaN. Qed.

Lemma half_not_NaN : literal (5 # 10) <> NaN.
Proof. apply round_double_not_NaN. Qed.

(** The upper end of the range, as [getRange] computes it from data
    that are there. *)
Definition upper (data : list value) : number :=
  max2 (number_div
          (max2 (number_mul (max2 (abs (min_of data)) (abs (max_of data)))
                   (literal (12 # 10)))
             (literal 5))
          (literal 10))
    (literal (5 # 10)).

Lemma getRange_cons v t :
  RLP.getRange (v :: t) = (number_neg (upper (v :: t)), upper (v :: t)).
Proof. reflexivity. Qed.

Lemma upper_NaN data : upper data = NaN <-> some_NaN data.
Proof.
  unfold upper.
  destruct twelve_tenths as (q12 & -> & H12), ten as (q10 & -> & H10).
  rewrite max2_NaN, number_div_NaN, max2_NaN, number_mul_NaN, max2_NaN,
    !abs_NaN, min_of_NaN, max_of_NaN by done.
  pose proof five_not_NaN. pose proof half_not_NaN. tauto.
Qed.

Lemma getRange_NaN data : some_NaN data -> RLP.getRange data = (NaN, NaN).
Proof.
  intros H. destruct data as [|v t]; [inversion H|].
  rewrite getRange_cons. apply upper_NaN in H. by rewrite H.
Qed.

(** X15.  The range of an axis is symmetric about zero. Its ends are
    NaN exactly when one of the coordinates is no number; otherwise
    the upper end is at least one half. *)
Theorem axis_range (data : list value) :
  (RLP.getRange data).1 = number_neg (RLP.getRange data).2
  /\ ((RLP.getRange data).2 = NaN <-> some_NaN data)
  /\ ((RLP.getRange data).2 = NaN
      \/ number_leb (literal (5 # 10)) (RLP.getRange data).2 = true).
Proof.
  destruct data as [|v t].
  - cbn [RLP.getRange fst snd]. split; [vm_compute; reflexivity|]. split.
    + split; [|intros H; inversion H].
      intros H. by apply round_double_not_NaN in H.
    + right. apply number_leb_refl, half_not_NaN.
  - rewrite getRange_cons. cbn [fst snd]. split; [done|]. split.
    + apply upper_NaN.
    + destruct (upper (v :: t)) eqn:E; [by left|right..].
      all: rewrite <- E; unfold upper in *; apply max2_upper;
        [|apply half_not_NaN].
      all: intros Hn; rewrite Hn in E; by destruct (literal (5 # 10)).
Qed.

Lemma coordinates_In k ps p :
  In p ps -> In (get p k) (RLP.coordinates k (Some ps)).
Proof. intros H. cbn. by apply (in_map (fun p => get p k)). Qed.

Lemma some_NaN_In data v : In v data -> ToNumber v = NaN -> some_NaN data.
Proof. intros Hin Hv. apply List.Exists_exists. by exists v. Qed.

Lemma get_absent (p : object) k : p !! k = None -> get p k = VUndefined.
Proof. unfold get. by intros ->. Qed.

(** X16.  A pole or a zero of the response that has no [x] makes both
    ends of the horizontal range NaN, and one that has no [y] those of
    the vertical range: the points that the client itself sends, with
    [real] and [imag], are of this kind. *)
Theorem point_without_coordinate_spoils_range
    (result : R.result) (bs : list R.branch) (ps : list object) (p : object) :
  R.branches result = Some bs ->
  R.poles result = Some ps \/ R.zeros result = Some ps ->
  In p ps ->
  (p !! "x" = None -> RLP.xRange (Some result) = Some (NaN, NaN))
  /\ (p !! "y" = None -> RLP.yRange (Some result) = Some (NaN, NaN)).
Proof.
  intros Hb Hps Hin. unfold RLP.xRange, RLP.yRange. cbn. rewrite Hb. cbn.
  split; intros Hk; f_equal; apply getRange_NaN;
    [apply (some_NaN_In _ (get p "x"))|apply (some_NaN_In _ (get p "y"))];
    try (by rewrite get_absent).
  - unfold RLP.allX. destruct Hps as [-> | ->].
    + apply in_or_app. left. by apply coordinates_In.
    + apply in_or_app. right. apply in_or_app. left. by apply coordinates_In.
  - unfold RLP.allY. destruct Hps as [-> | ->].
    + apply in_or_app. left. by apply coordinates_In.
    + apply in_or_app. right. apply in_or_app. left. by apply coordinates_In.
Qed.

Definition sent_pole_echoed : R.result :=
  {| R.branches := Some [];
     R.zeros := None;
     R.poles := Some [point_object (Fin (-1)) (Fin 0)];
     R.breakaway_points := None;
     R.imag_axis_crossings := None |}.

Lemma point_without_coordinate_spoils_range_witness :
  RLP.xRange (Some sent_pole_echoed) = Some (NaN, NaN)
  /\ RLP.yRange (Some sent_pole_echoed) = Some (NaN, NaN).
Proof.
  destruct (point_without_coordinate_spoils_range sent_pole_echoed []
              [point_object (Fin (-1)) (Fin 0)] (point_object (Fin (-1)) (Fin 0))
              eq_refl (or_introl eq_refl) (or_introl eq_refl)) as [Hx Hy].
  split; [apply Hx|apply Hy]; reflexivity.
Defined.

(** ** The traces of the points *)

(** Two points that agree in [x] and in [y], whatever else they
    carry. *)
Definition same_xy (p q : object) : Prop :=
  get p "x" = get q "x" /\ get p "y" = get q "y".

Definition same_points (a b : option (list object)) : Prop :=
  match a, b with
  | None, None => True
  | Some l, Some l' => Forall2 same_xy l l'
  | _, _ => False
  end.

Lemma marker_trace_same name l l' :
  Forall2 same_xy l l' -> R.marker_trace name l = R.marker_trace name l'.
Proof.
  intros H. unfold R.marker_trace. f_equal.
  - induction H as [|p q l l' [Hx _] _ IH]; cbn [List.map]; [done|]. by rewrite Hx, IH.
  - induction H as [|p q l l' [_ Hy] _ IH]; cbn [List.map]; [done|]. by rewrite Hy, IH.
Qed.

Lemma when_present_same name a b :
  same_points a b -> R.when_present name a = R.when_present name b.
Proof.
  destruct a as [l|], b as [l'|]; cbn; try done.
  intros H. by rewrite (marker_trace_same name l l').
Qed.

Lemma when_nonempty_same name a b :
  same_points a b -> R.when_nonempty name a = R.when_nonempty name b.
Proof.
  destruct a as [l|], b as [l'|]; cbn; try done.
  intros H. destruct H as [|p q l l' Hpq H]; [done|].
  by rewrite (marker_trace_same name (p :: l) (q :: l')) by by constructor.
Qed.

Lemma when_nonempty_cons name p ps :
  R.when_nonempty name (Some (p :: ps)) = [R.marker_trace name (p :: ps)].
Proof. reflexivity. Qed.

(** X23.  The traces that the root-locus component plots for the
    points of a response are read from [x] and [y] alone: a response
    that agrees with it in the branches and in the [x] and [y] of every
    pole, zero, break point and crossing gives the same traces, whatever
    else its points carry.  No point is left out: the poles and the
    zeros that are there, and the break points and the crossings when
    there is at least one, each give one trace of markers with the [x]
    and the [y] of every point in order, and the branch of index [i]
    gives the trace [Branch i+1] with its two arrays. *)
Theorem root_locus_reader_reads_x_and_y (r : R.result) (bs : list R.branch) :
  R.branches r = Some bs ->
  (forall r', R.branches r' = Some bs ->
     same_points (R.poles r') (R.poles r) ->
     same_points (R.zeros r') (R.zeros r) ->
     same_points (R.breakaway_points r') (R.breakaway_points r) ->
     same_points (R.imag_axis_crossings r') (R.imag_axis_crossings r) ->
     R.plotData (Some r') = R.plotData (Some r))
  /\ (forall ps, R.poles r = Some ps ->
        In (R.marker_trace "Poles" ps) (R.plotData (Some r)))
  /\ (forall ps, R.zeros r = Some ps ->
        In (R.marker_trace "Zeros" ps) (R.plotData (Some r)))
  /\ (forall ps, R.breakaway_points r = Some ps -> ps <> [] ->
        In (R.marker_trace "Breakaway/Break-in Points" ps) (R.plotData (Some r)))
  /\ (forall ps, R.imag_axis_crossings r = Some ps -> ps <> [] ->
        In (R.marker_trace "Imaginary Axis Crossings" ps) (R.plotData (Some r)))
  /\ (forall i b, bs !! i = Some b ->
        In {| R.name := "Branch " +:+ pretty (S i); R.mode := "lines";
              R.xs := R.x b; R.ys := R.y b |} (R.plotData (Some r)))
  /\ (forall name ps,
        R.xs (R.marker_trace name ps) = List.map (fun p => get p "x") ps
        /\ R.ys (R.marker_trace name ps) = List.map (fun p => get p "y") ps).
Proof.
  intros Hb. unfold R.plotData. rewrite Hb. split_and!.
  - intros r' Hb' Hp Hz Hk Hc. rewrite Hb'.
    by rewrite (when_present_same _ _ _ Hp), (when_present_same _ _ _ Hz),
      (when_nonempty_same _ _ _ Hk), (when_nonempty_same _ _ _ Hc).
  - intros ps ->. apply in_or_app. left. by left.
  - intros ps ->. apply in_or_app. right. apply in_or_app. left. by left.
  - intros ps -> Hne. destruct ps as [|p ps]; [done|]. rewrite when_nonempty_cons.
    do 2 (apply in_or_app; right). apply in_or_app. left. by left.
  - intros ps -> Hne. destruct ps as [|p ps]; [done|]. rewrite when_nonempty_cons.
    do 3 (apply in_or_app; right). apply in_or_app. left. by left.
  - intros i b Hi. do 4 (apply in_or_app; right).
    apply list_elem_of_In, elem_of_lookup_imap. by exists i, b.
  - done.
Qed.

(** The pole [-1 + 2j] with the properties that the reader wants and
    with those of a request besides. *)
Definition pole_with_both : object :=
  {[ "x" := VNum (Fin (-1)); "y" := VNum (Fin 2);
     "real" := VNum (Fin 5); "imag" := VNum (Fin 7) ]}.

Definition pole_with_xy : object :=
  {[ "x" := VNum (Fin (-1)); "y" := VNum (Fin 2) ]}.

Definition locus_of (pole : object) : R.result :=
  {| R.branches := Some [{| R.x := [VNum (Fin (-1))]; R.y := [VNum (Fin 2)] |}];
     R.zeros := None;
     R.poles := Some [pole];
     R.breakaway_points := Some [pole];
     R.imag_axis_crossings := None |}.

Lemma root_locus_reader_reads_x_and_y_witness :
  R.plotData (Some (locus_of pole_with_both)) = R.plotData (Some (locus_of pole_with_xy))
  /\ In (R.marker_trace "Breakaway/Break-in Points" [pole_with_xy])
        (R.plotData (Some (locus_of pole_with_xy))).
Proof.
  assert (same_xy pole_with_both pole_with_xy) as Hs.
  { unfold same_xy, get, pole_with_both, pole_with_xy. split; by simplify_map_eq. }
  destruct (root_locus_reader_reads_x_and_y (locus_of pole_with_xy) _ eq_refl)
    as (Hsame & _ & _ & Hk & _).
  split.
  - apply Hsame; [reflexivity|cbn..]; try done; by repeat constructor.
  - apply Hk; [reflexivity|discriminate].
Defined.

(** ** The details under the plot *)

Definition numeric (p : object) (k : string) : Prop := exists n, get p k = VNum n.

Lemma map_throwing_normal {A B} (f : A -> completion B) l :
  (exists bs, RLD.map_throwing f l = Normal bs)
  <-> (forall a, In a l -> exists b, f a = Normal b).
Proof.
  induction l as [|a t IH]; cbn [RLD.map_throwing].
  - split; [by intros _ ? []|]. intros _. by eexists.
  - split.
    + intros [bs H] a' [<-|Hin].
      * destruct (f a); [by eexists|discriminate].
      * apply IH; [|done]. destruct (f a); [|discriminate]. cbn in H.
        destruct (RLD.map_throwing f t); [by eexists|discriminate].
    + intros H. destruct (H a (or_introl eq_refl)) as [b ->]. cbn.
      destruct IH as [_ IH]. destruct IH as [bs ->]; [|by eexists].
      intros a' Ha'. apply H. by right.
Qed.

Lemma map_throwing_length {A B} (f : A -> completion B) l : forall bs,
  RLD.map_throwing f l = Normal bs -> length bs = length l.
Proof.
  induction l as [|a t IH]; cbn [RLD.map_throwing]; intros bs H.
  - by injection H as <-.
  - destruct (f a); [|discriminate]. cbn in H.
    destruct (RLD.map_throwing f t) eqn:E; [|discriminate]. cbn in H.
    injection H as <-. cbn. f_equal. by apply IH.
Qed.

Lemma map_throwing_throw {A B} (f : A -> completion B) l m :
  RLD.map_throwing f l = Throw m -> exists a, In a l /\ f a = Throw m.
Proof.
  induction l as [|a t IH]; cbn [RLD.map_throwing]; [discriminate|].
  destruct (f a) eqn:E; cbn.
  - destruct (RLD.map_throwing f t); cbn; [discriminate|].
    intros [= <-]. destruct IH as (a' & ? & ?); [done|]. exists a'. split; [by right|done].
  - intros [= <-]. exists a. split; [by left|done].
Qed.

Lemma break_point_normal p :
  (exists b, RLD.break_point p = Normal b) <-> numeric p "x" /\ numeric p "y".
Proof.
  unfold RLD.break_point, numeric. split.
  - intros [b H]. destruct (get p "x"); try discriminate.
    destruct (get p "y"); try discriminate. split; by eexists.
  - intros [[n ->] [k ->]]. by eexists.
Qed.

Lemma crossing_normal p :
  (exists b, RLD.crossing p = Normal b)
  <-> numeric p "x" /\ numeric p "y" /\ numeric p "k".
Proof.
  unfold RLD.crossing, numeric. split.
  - intros [b H]. destruct (get p "x"); try discriminate.
    destruct (get p "y"); try discriminate.
    destruct (get p "k"); try discriminate. repeat split; by eexists.
  - intros ([n ->] & [k ->] & [j ->]). by eexists.
Qed.

Lemma break_point_throw p m : RLD.break_point p = Throw m -> m = "TypeError".
Proof.
  unfold RLD.break_point.
  destruct (get p "x"); cbn; try (by intros [= <-]);
    destruct (get p "y"); cbn; try (by intros [= <-]); discriminate.
Qed.

Lemma crossing_throw p m : RLD.crossing p = Throw m -> m = "TypeError".
Proof.
  unfold RLD.crossing.
  destruct (get p "x"); cbn; try (by intros [= <-]);
    destruct (get p "y"); cbn; try (by intros [= <-]);
    destruct (get p "k"); cbn; try (by intros [= <-]); discriminate.
Qed.

(** The break points and the crossings of a response can be listed. *)
Definition listable (r : RLD.result) : Prop :=
  (forall ps p, R.breakaway_points (RLD.plot r) = Some ps -> In p ps ->
     numeric p "x" /\ numeric p "y")
  /\ (forall ps p, R.imag_axis_crossings (RLD.plot r) = Some ps -> In p ps ->
        numeric p "x" /\ numeric p "y" /\ numeric p "k").

Definition break_point_part (r : RLD.result) : completion (list RLD.detail) :=
  match R.breakaway_points (RLD.plot r) with
  | Some [] => mret [RLD.NoBreakPoint]
  | Some l => pts ← RLD.map_throwing RLD.break_point l; mret [RLD.BreakPoints pts]
  | None => mret []
  end.

Definition crossing_part (r : RLD.result) : completion (list RLD.detail) :=
  match R.imag_axis_crossings (RLD.plot r) with
  | Some [] => mret []
  | Some l => pts ← RLD.map_throwing RLD.crossing l; mret [RLD.Crossings pts]
  | None => mret []
  end.

Lemma break_point_part_normal r :
  (exists l, break_point_part r = Normal l)
  <-> (forall ps p, R.breakaway_points (RLD.plot r) = Some ps -> In p ps ->
         numeric p "x" /\ numeric p "y").
Proof.
  unfold break_point_part.
  destruct (R.breakaway_points (RLD.plot r)) as [[|p0 t]|].
  - split; [by intros _ ? ? [= <-] []|by eexists].
  - split.
    + intros [l H] ps p [= <-] Hin. apply break_point_normal.
      apply (map_throwing_normal RLD.break_point (p0 :: t)); [|done].
      destruct (RLD.map_throwing RLD.break_point (p0 :: t)); [by eexists|discriminate].
    + intros H.
      destruct (proj2 (map_throwing_normal RLD.break_point (p0 :: t))) as [bs ->].
      * intros a Ha. apply break_point_normal. by apply (H (p0 :: t)).
      * by eexists.
  - split; [done|by eexists].
Qed.

Lemma crossing_part_normal r :
  (exists l, crossing_part r = Normal l)
  <-> (forall ps p, R.imag_axis_crossings (RLD.plot r) = Some ps -> In p ps ->
         numeric p "x" /\ numeric p "y" /\ numeric p "k").
Proof.
  unfold crossing_part.
  destruct (R.imag_axis_crossings (RLD.plot r)) as [[|p0 t]|].
  - split; [by intros _ ? ? [= <-] []|by eexists].
  - split.
    + intros [l H] ps p [= <-] Hin. apply crossing_normal.
      apply (map_throwing_normal RLD.crossing (p0 :: t)); [|done].
      destruct (RLD.map_throwing RLD.crossing (p0 :: t)); [by eexists|discriminate].
    + intros H.
      destruct (proj2 (map_throwing_normal RLD.crossing (p0 :: t))) as [bs ->].
      * intros a Ha. apply crossing_normal. by apply (H (p0 :: t)).
      * by eexists.
  - split; [done|by eexists].
Qed.

Lemma break_point_part_throw r m : break_point_part r = Throw m -> m = "TypeError".
Proof.
  unfold break_point_part.
  destruct (R.breakaway_points (RLD.plot r)) as [[|p0 t]|]; try discriminate.
  destruct (RLD.map_throwing RLD.break_point (p0 :: t)) eqn:E; [discriminate|].
  intros [= <-]. apply map_throwing_throw in E as (a & _ & Ha).
  by apply break_point_throw in Ha.
Qed.

Lemma crossing_part_throw r m : crossing_part r = Throw m -> m = "TypeError".
Proof.
  unfold crossing_part.
  destruct (R.imag_axis_crossings (RLD.plot r)) as [[|p0 t]|]; try discriminate.
  destruct (RLD.map_throwing RLD.crossing (p0 :: t)) eqn:E; [discriminate|].
  intros [= <-]. apply map_throwing_throw in E as (a & _ & Ha).
  by apply crossing_throw in Ha.
Qed.

Lemma render_parts r :
  RLD.render (Some r)
  = (d4 ← break_point_part r; d5 ← crossing_part r;
     mret (and_element (RLD.message r) (RLD.Message (RLD.message r)) RLD.RawNumber
           ++ match R.branches (RLD.plot r) with
              | Some bs => [RLD.BranchCount (length bs)]
              | None => []
              end
           ++ match RLD.asymptotes r with
              | Some a =>
                  [RLD.Asymptotes (RLD.fixed_or_na (RLD.centroid a) 3)
                     match RLD.angles a with
                     | Some l => List.map (fun v => RLD.fixed_or_na v 2) l
                     | None => [Lit "N/A"]
                     end]
              | None => []
              end
           ++ d4 ++ d5)).
Proof. reflexivity. Qed.

(** X17.  The details under the root-locus plot are rendered exactly
    when every break point has numbers as [x] and [y] and every
    crossing has numbers as [x], [y] and [k]; otherwise the rendering
    ends with a [TypeError]. The asymptotes never stop it: whatever
    their centroid and angles are, details that are rendered have one
    entry for them with one text per angle. *)
Theorem root_locus_details (r : RLD.result) :
  ((exists l, RLD.render (Some r) = Normal l) <-> listable r)
  /\ (~ listable r -> RLD.render (Some r) = Throw "TypeError")
  /\ (forall l a angles, RLD.render (Some r) = Normal l ->
        RLD.asymptotes r = Some a -> RLD.angles a = Some angles ->
        exists texts, In (RLD.Asymptotes (RLD.fixed_or_na (RLD.centroid a) 3) texts) l
                      /\ length texts = length angles).
Proof.
  rewrite render_parts.
  assert (Hiff : (exists l,
            (d4 ← break_point_part r; d5 ← crossing_part r;
             mret (and_element (RLD.message r) (RLD.Message (RLD.message r)) RLD.RawNumber
                   ++ match R.branches (RLD.plot r) with
                      | Some bs => [RLD.BranchCount (length bs)]
                      | None => []
                      end
                   ++ match RLD.asymptotes r with
                      | Some a =>
                          [RLD.Asymptotes (RLD.fixed_or_na (RLD.centroid a) 3)
                             match RLD.angles a with
                             | Some l => List.map (fun v => RLD.fixed_or_na v 2) l
                             | None => [Lit "N/A"]
                             end]
                      | None => []
                      end
                   ++ d4 ++ d5)) = Normal l) <-> listable r).
  { unfold listable. rewrite <- break_point_part_normal, <- crossing_part_normal.
    destruct (break_point_part r), (crossing_part r); cbn; split.
    all: try (intros [l H]; discriminate H).
    all: try (intros [[? H] _]; discriminate H).
    all: try (intros [_ [? H]]; discriminate H).
    - intros _. split; by eexists.
    - intros _. by eexists. }
  split; [exact Hiff|]. split.
  - intros Hn.
    destruct (break_point_part r) as [d4|m4] eqn:E4.
    + destruct (crossing_part r) as [d5|m5] eqn:E5.
      * destruct Hn. apply Hiff. cbn. by eexists.
      * cbn. f_equal. by apply crossing_part_throw in E5.
    + cbn. f_equal. by apply break_point_part_throw in E4.
  - intros l a angles H Ha Hang.
    destruct (break_point_part r) as [d4|]; [|discriminate]. cbn in H.
    destruct (crossing_part r) as [d5|]; [|discriminate]. cbn in H.
    injection H as <-. rewrite Ha, Hang.
    exists (List.map (fun v => RLD.fixed_or_na v 2) angles).
    split; [|by rewrite length_map].
    apply in_or_app. right. apply in_or_app. right. apply in_or_app. left. by left.
Qed.

Definition details_with_odd_asymptotes : RLD.result :=
  {| RLD.plot := {| R.branches := Some [];
                    R.zeros := None; R.poles := None;
                    R.breakaway_points := Some [];
                    R.imag_axis_crossings := None |};
     RLD.message := VUndefined;
     RLD.asymptotes := Some {| RLD.centroid := VNull;
                               RLD.angles := Some [VNum (Fin 60); VStr (str "x")] |} |}.

Lemma root_locus_details_witness :
  exists texts,
    In (RLD.Asymptotes (Lit "N/A") texts)
       [RLD.BranchCount 0;
        RLD.Asymptotes (Lit "N/A") [Fixed (Fin 60) 2; Lit "N/A"];
        RLD.NoBreakPoint]
    /\ length texts = 2%nat.
Proof.
  destruct (root_locus_details details_with_odd_asymptotes) as (_ & _ & H).
  exact (H _ _ _ eq_refl eq_refl eq_refl).
Defined.

(** ** The Bode traces *)

Definition no_null (l : list value) : Prop := Forall (fun v => v <> VNull) l.

Lemma filter_no_null l : no_null l -> List.filter is_not_null l = l.
Proof.
  induction 1 as [|v t Hv _ IH]; cbn [List.filter]; [done|].
  rewrite IH. by destruct v.
Qed.

(** X18.  The two arrays of a Bode trace are filtered one by one. When
    the magnitudes have a [null] where the frequencies have none, the
    curve loses a point at its end, not at the place of the [null]:
    from there on every magnitude is drawn at the frequency before its
    own. *)
Theorem null_sample_shifts_the_curve
    (bode : FDP.bode_data) (xs pre post : list value) (i : nat) (v : value) :
  FDP.omega bode = Some xs ->
  FDP.magnitude_db bode = Some (pre ++ VNull :: post) ->
  no_null xs -> no_null pre -> no_null post ->
  length xs = length (pre ++ VNull :: post) ->
  post !! i = Some v ->
  FDP.x (FDP.bodeMagnitudeTrace bode) = xs
  /\ S (length (FDP.y (FDP.bodeMagnitudeTrace bode))) = length xs
  /\ (pre ++ VNull :: post) !! (S (length pre + i)) = Some v
  /\ FDP.y (FDP.bodeMagnitudeTrace bode) !! (length pre + i)%nat = Some v.
Proof.
  intros Hx Hy Hxs Hpre Hpost Hlen Hv.
  unfold FDP.bodeMagnitudeTrace, FDP.filterNoneValues. cbn [FDP.x FDP.y].
  rewrite Hx, Hy. cbn [default from_option id].
  rewrite filter_no_null by done.
  rewrite List.filter_app. cbn [List.filter is_not_null].
  rewrite !filter_no_null by done.
  split; [done|]. split.
  - rewrite Hlen, !length_app. cbn [length]. lia.
  - split.
    + rewrite lookup_app_r by lia.
      replace (S (length pre + i) - length pre)%nat with (S i) by lia. done.
    + rewrite lookup_app_r by lia.
      replace (length pre + i - length pre)%nat with i by lia. done.
Qed.

Definition bode_with_gap : FDP.bode_data :=
  {| FDP.omega := Some [VNum (Fin 1); VNum (Fin 10); VNum (Fin 100)];
     FDP.magnitude_db := Some [VNum (Fin 0); VNull; VNum (Fin (-40))];
     FDP.phase_deg := None;
     FDP.asymptote_omega := None;
     FDP.asymptote_magnitude_db := None |}.

Lemma null_sample_shifts_the_curve_witness :
  FDP.x (FDP.bodeMagnitudeTrace bode_with_gap)
    = [VNum (Fin 1); VNum (Fin 10); VNum (Fin 100)]
  /\ FDP.y (FDP.bodeMagnitudeTrace bode_with_gap) !! 1%nat = Some (VNum (Fin (-40))).
Proof.
  destruct (null_sample_shifts_the_curve bode_with_gap
              [VNum (Fin 1); VNum (Fin 10); VNum (Fin 100)]
              [VNum (Fin 0)] [VNum (Fin (-40))] 0 (VNum (Fin (-40))))
    as (Hx & _ & _ & Hy); try reflexivity.
  - repeat constructor; discriminate.
  - repeat constructor; discriminate.
  - repeat constructor; discriminate.
  - split; [exact Hx|exact Hy].
Defined.

End PlotFacts.

(* ===================================================================== *)
(** * Properties of the coefficient forms *)
(* ===================================================================== *)

Module CoefficientFacts.
Import JS ParsingUtils ParsingFacts ParserLaws.

Module LC := LagCompensation.
Module FA := FrequencyAnalysisInput.

(** The numbers among the trimmed tokens. *)
Definition numbers_of (tokens : list jsstring) : list number :=
  List.filter (fun n => negb (number_isNaN n))
    (List.map (fun s => parseFloat (trim s)) tokens).

Lemma numbers_of_app l1 l2 : numbers_of (l1 ++ l2) = numbers_of l1 ++ numbers_of l2.
Proof. unfold numbers_of. by rewrite List.map_app, List.filter_app. Qed.

Lemma numbers_of_no_NaN tokens : Forall (fun n => n <> NaN) (numbers_of tokens).
Proof.
  apply List.Forall_forall. intros n Hn.
  apply List.filter_In in Hn as [_ Hn]. by destruct n.
Qed.

Lemma numbers_of_length tokens : (length (numbers_of tokens) <= length tokens)%nat.
Proof.
  unfold numbers_of.
  etransitivity; [apply List.filter_length_le|]. by rewrite length_map.
Qed.

Lemma split_app_sep a b :
  split (code ",") (a ++ code "," :: b) = split (code ",") a ++ split (code ",") b.
Proof.
  induction a as [|c t IH]; cbn [app split].
  - by rewrite N.eqb_refl.
  - rewrite IH. destruct (c =? code ",")%N; [done|].
    pose proof (split_not_nil (code ",") t) as Hne.
    by destruct (split (code ",") t).
Qed.

Lemma parse_coefficients_tokens text :
  LC.parse_coefficients text = numbers_of (split (code ",") text).
Proof. reflexivity. Qed.

Lemma comma_not_blank a b : trim (a ++ code "," :: b) <> [].
Proof.
  intros H. apply trim_blank in H. apply Forall_app in H as [_ H].
  inversion H as [|? ? Hc _]. discriminate Hc.
Qed.

Lemma parseCoeffs_tokens text :
  trim text <> [] -> FA.parseCoeffs text = numbers_of (split (code ",") text).
Proof. unfold FA.parseCoeffs. by destruct (trim text). Qed.

Lemma junk_token junk :
  comma_free junk -> parseFloat (trim junk) = NaN ->
  numbers_of (split (code ",") junk) = [].
Proof.
  intros Hc Hj. rewrite split_no_separator by exact Hc.
  unfold numbers_of. cbn. by rewrite Hj.
Qed.

(** X19.  A token that is no number is dropped from a list of
    coefficients, in the form of the lag compensator and in that of
    the frequency analysis alike: the coefficients after it move up by
    one power. *)
Theorem non_numeric_token_is_dropped (a junk b : jsstring) :
  comma_free junk -> parseFloat (trim junk) = NaN ->
  LC.parse_coefficients (a ++ code "," :: junk ++ code "," :: b)
    = LC.parse_coefficients (a ++ code "," :: b)
  /\ FA.parseCoeffs (a ++ code "," :: junk ++ code "," :: b)
     = FA.parseCoeffs (a ++ code "," :: b).
Proof.
  intros Hc Hj.
  rewrite !parseCoeffs_tokens by apply comma_not_blank.
  rewrite !parse_coefficients_tokens.
  rewrite (split_app_sep a (junk ++ code "," :: b)), (split_app_sep junk b),
    (split_app_sep a b), !numbers_of_app, (junk_token junk) by done.
  done.
Qed.

Lemma non_numeric_token_is_dropped_witness :
  LC.parse_coefficients (str "1" ++ code "," :: str " a" ++ code "," :: str " 2")
    = LC.parse_coefficients (str "1" ++ code "," :: str " 2")
  /\ FA.parseCoeffs (str "1" ++ code "," :: str " a" ++ code "," :: str " 2")
     = FA.parseCoeffs (str "1" ++ code "," :: str " 2").
Proof.
  apply non_numeric_token_is_dropped; [|reflexivity].
  repeat constructor; discriminate.
Defined.

(** ** The form of the lag compensator *)

Section Design.
Context {A : Type}.
Variable fetch : Api.request LC.design_data -> completion (Api.response A).
Variable detail : A -> option string.
Variable null_property_message : string.

Local Abbreviation handle := (LC.handleDesign fetch detail null_property_message).
Local Abbreviation design :=
  (Api.designLagCompensator fetch detail null_property_message).

Definition valid_input (st : LC.state A) : bool :=
  negb ((length (LC.parse_coefficients (LC.numeratorText st)) =? 0)%nat
        || (length (LC.parse_coefficients (LC.denominatorText st)) =? 0)%nat
        || number_isNaN (parseFloat (LC.desiredKv st))).

Definition data_of (st : LC.state A) : LC.design_data :=
  {| LC.numerator := LC.parse_coefficients (LC.numeratorText st);
     LC.denominator := LC.parse_coefficients (LC.denominatorText st);
     LC.desired_kv := parseFloat (LC.desiredKv st) |}.

Lemma message_or_nonempty m : LC.message_or m LC.unknown_design_error <> "".
Proof. by destruct m. Qed.

Lemma handleDesign_invalid st :
  valid_input st = false ->
  handle st
  = (LC.setLoading false
       (LC.setError (Some LC.invalid_input_message)
          (LC.setResult None (LC.setError None (LC.setLoading true st)))), []).
Proof.
  unfold valid_input, LC.handleDesign.
  cbn [LC.numeratorText LC.denominatorText LC.desiredKv LC.setResult LC.setError
       LC.setLoading].
  intros H. apply negb_false_iff in H. by rewrite H.
Qed.

Lemma handleDesign_valid st :
  valid_input st = true ->
  handle st
  = (LC.setLoading false
       (match design (data_of st) with
        | Normal response =>
            LC.setResult response
              (LC.setResult None (LC.setError None (LC.setLoading true st)))
        | Throw m =>
            LC.setError (Some (LC.message_or m LC.unknown_design_error))
              (LC.setResult None (LC.setError None (LC.setLoading true st)))
        end), [data_of st]).
Proof.
  unfold valid_input, LC.handleDesign, data_of.
  cbn [LC.numeratorText LC.denominatorText LC.desiredKv LC.setResult LC.setError
       LC.setLoading].
  intros H. apply negb_true_iff in H. by rewrite H.
Qed.

Lemma valid_input_data st :
  valid_input st = true ->
  LC.numerator (data_of st) <> [] /\ LC.denominator (data_of st) <> []
  /\ LC.desired_kv (data_of st) <> NaN.
Proof.
  unfold valid_input, data_of. cbn. intros H.
  apply negb_true_iff, orb_false_iff in H as [H Hk].
  apply orb_false_iff in H as [Hn Hd].
  repeat split.
  - intros E. by rewrite E in Hn.
  - intros E. by rewrite E in Hd.
  - intros E. by rewrite E in Hk.
Qed.

(** X20.  When the design handler has finished, the loading flag is
    down and the three texts are as they were; result and error are
    never both set, and the error is never the empty text.  Without a
    request the result is null and the error is the one about the
    input.  A request is sent at most once, and only for a numerator
    and a denominator with at least one coefficient each, no NaN among
    them, and a gain constant that is a number: when the call returns a
    body, that body is the result and there is no error, so that the
    body null leaves both null; when the call throws, there is no
    result and the error is set. *)
Theorem design_outcome (st : LC.state A) :
  let st' := (handle st).1 in
  let sent := (handle st).2 in
  LC.loading st' = false
  /\ LC.numeratorText st' = LC.numeratorText st
  /\ LC.denominatorText st' = LC.denominatorText st
  /\ LC.desiredKv st' = LC.desiredKv st
  /\ ~ (is_Some (LC.result st') /\ is_Some (LC.error st'))
  /\ LC.error st' <> Some ""
  /\ (sent = [] /\ LC.result st' = None
      /\ LC.error st' = Some LC.invalid_input_message
      \/ exists data, sent = [data]
           /\ LC.numerator data <> [] /\ LC.denominator data <> []
           /\ Forall (fun n => n <> NaN) (LC.numerator data)
           /\ Forall (fun n => n <> NaN) (LC.denominator data)
           /\ LC.desired_kv data <> NaN
           /\ (forall body, design data = Normal body ->
                 LC.result st' = body /\ LC.error st' = None)
           /\ (forall m, design data = Throw m ->
                 LC.result st' = None
                 /\ LC.error st' = Some (LC.message_or m LC.unknown_design_error))).
Proof.
  cbv zeta. destruct (valid_input st) eqn:Hv.
  - rewrite (handleDesign_valid st Hv). cbn [fst snd].
    destruct (valid_input_data st Hv) as (Hn & Hd & Hk).
    destruct (design (data_of st)) as [response|m] eqn:E; cbn.
    + split_and!; try done.
      * intros [_ [? H]]. discriminate H.
      * right. exists (data_of st).
        split_and!; try done; try apply numbers_of_no_NaN.
        -- rewrite E. by intros body [= <-].
        -- rewrite E. by intros m.
    + split_and!; try done.
      * intros [[? H] _]. discriminate H.
      * intros [= H]. by apply message_or_nonempty in H.
      * right. exists (data_of st).
        split_and!; try done; try apply numbers_of_no_NaN.
        -- rewrite E. by intros body.
        -- rewrite E. by intros m' [= <-].
  - rewrite (handleDesign_invalid st Hv). cbn.
    split_and!; try done.
    + intros [[? H] _]. discriminate H.
    + by left.
Qed.

(** X21.  What the server answers and what the form shows.  For valid
    input and a response that arrives: when the response is [ok], the
    body read from it is the result (the body null: no result) and
    there is no error, and a body that cannot be read gives the error
    of the reading.  When it is not [ok] there is no result and the
    error is: a fixed text when the body cannot be read; the message of
    the [TypeError] when the body is null, whose [detail] cannot be
    read; the text of [detail] when the body has one; and the status
    line when it has none.  In each case an empty message gives way to
    the fallback of the form, so that the error shown is not empty. *)
Theorem design_response_handling (st : LC.state A) (resp : Api.response A) :
  valid_input st = true ->
  fetch {| Api.url := Api.API_BASE_URL +:+ "/compensation/design_lag_compensator";
           Api.method := "POST";
           Api.content_type := "application/json";
           Api.body := data_of st |} = Normal resp ->
  let st' := (handle st).1 in
  let shown m := Some (LC.message_or m LC.unknown_design_error) in
  (Api.ok resp = true ->
     (forall body, Api.json resp = Normal body ->
        LC.result st' = body /\ LC.error st' = None)
     /\ (forall m, Api.json resp = Throw m ->
           LC.result st' = None /\ LC.error st' = shown m))
  /\ (Api.ok resp = false ->
      LC.result st' = None
      /\ (exists m, LC.error st' = Some m /\ m <> "")
      /\ (forall m, Api.json resp = Throw m ->
            LC.error st' = Some Api.unknown_error_message)
      /\ (Api.json resp = Normal None ->
            LC.error st' = shown null_property_message)
      /\ (forall a t, Api.json resp = Normal (Some a) -> detail a = Some t ->
            LC.error st' = shown t)
      /\ (forall a, Api.json resp = Normal (Some a) -> detail a = None ->
            LC.error st'
            = Some ("HTTP error! status: " +:+ pretty (Api.status resp)))).
Proof.
  intros Hv Hf. cbv zeta. rewrite (handleDesign_valid st Hv). cbn [fst].
  unfold Api.designLagCompensator, Api.apiRequest. rewrite Hf.
  cbn [mbind completion_bind].
  split.
  - intros Hok. rewrite Hok. cbn [negb].
    split; [intros body Hj|intros m Hj]; rewrite Hj; by cbn.
  - intros Hok. rewrite Hok. cbn [negb].
    destruct (Api.json resp) as [[a|]|m] eqn:Hj.
    + destruct (detail a) as [t|] eqn:Hd; cbn.
      * split_and!; try done.
        -- eexists. split; [reflexivity|apply message_or_nonempty].
        -- intros a' t' [= <-]. rewrite Hd. by intros [= <-].
        -- intros a' [= <-]. by rewrite Hd.
      * split_and!; try done.
        -- by eexists.
        -- intros a' t' [= <-]. by rewrite Hd.
    + cbn. split_and!; try done.
      eexists. split; [reflexivity|apply message_or_nonempty].
    + cbn. split_and!; try done. by eexists.
Qed.

End Design.

Definition sample_form : LC.state string :=
  {| LC.numeratorText := str "1";
     LC.denominatorText := str "1, 2, 0";
     LC.desiredKv := str "10";
     LC.result := None;
     LC.loading := false;
     LC.error := None |}.

(** Bodies that are their own [detail]. *)
Definition server_refuses (_ : Api.request LC.design_data)
    : completion (Api.response string) :=
  Normal {| Api.ok := false; Api.status := 400;
            Api.json := Normal (Some "Kv is too small") |}.

Definition server_fails_with_null (_ : Api.request LC.design_data)
    : completion (Api.response string) :=
  Normal {| Api.ok := false; Api.status := 500; Api.json := Normal None |}.

Definition server_answers_null (_ : Api.request LC.design_data)
    : completion (Api.response string) :=
  Normal {| Api.ok := true; Api.status := 200; Api.json := Normal None |}.

Definition reading_null : string :=
  "Cannot read properties of null (reading 'detail')".

Lemma design_outcome_witness :
  LC.result (LC.handleDesign server_answers_null Some reading_null sample_form).1 = None
  /\ LC.error (LC.handleDesign server_answers_null Some reading_null sample_form).1
     = None.
Proof.
  destruct (design_outcome server_answers_null Some reading_null sample_form)
    as (_ & _ & _ & _ & _ & _ & [(H & _)|(data & Hs & _ & _ & _ & _ & _ & Hb & _)]).
  - discriminate H.
  - injection Hs as <-. exact (Hb None eq_refl).
Defined.

Lemma design_response_handling_witness :
  LC.error (LC.handleDesign server_refuses Some reading_null sample_form).1
    = Some "Kv is too small"
  /\ LC.error (LC.handleDesign server_fails_with_null Some reading_null sample_form).1
     = Some reading_null.
Proof.
  split.
  - destruct (design_response_handling server_refuses Some reading_null
                sample_form _ eq_refl eq_refl) as [_ H].
    destruct (H eq_refl) as (_ & _ & _ & _ & Hd & _).
    exact (Hd _ _ eq_refl eq_refl).
  - destruct (design_response_handling server_fails_with_null Some reading_null
                sample_form _ eq_refl eq_refl) as [_ H].
    destruct (H eq_refl) as (_ & _ & _ & Hn & _).
    exact (Hn eq_refl).
Defined.

(** ** The form of the frequency analysis *)

Lemma isZeroArray_spec arr :
  FA.isZeroArray arr = true <-> arr = [] \/ exists q, arr = [Fin q] /\ q == 0.
Proof.
  destruct arr as [|a [|b t]]; cbn.
  - split; [by left|done].
  - destruct a as [| |q]; cbn.
    + split; [done|]. by intros [?|(? & ? & ?)].
    + split; [done|]. by intros [?|(? & ? & ?)].
    + rewrite Qeq_bool_iff. split.
      * intros H. right. by exists q.
      * intros [?|(q' & [= ->] & H)]; done.
  - split; [done|]. by intros [?|(? & ? & ?)].
Qed.

Lemma parseCoeffs_blank text : trim text = [] -> FA.parseCoeffs text = [Fin 1].
Proof. unfold FA.parseCoeffs. by intros ->. Qed.

Lemma parseCoeffs_no_NaN text : Forall (fun n => n <> NaN) (FA.parseCoeffs text).
Proof.
  unfold FA.parseCoeffs. destruct (trim text); [by repeat constructor|].
  apply numbers_of_no_NaN.
Qed.

Section Roots.
Variable numpyPolyRoots : list number -> completion (list (number * number)).

Local Abbreviation points := (List.map (fun z : number * number => Complex z.1 z.2)).

(** The zeros, which the component computes first: one zero at the
    origin for a numerator without coefficients or with the single
    coefficient 0, the roots that the root finder returns
    otherwise. *)
Definition zeros_of (n : list number) : completion (list parsed) :=
  if FA.isZeroArray n then Normal [Complex (Fin 0) (Fin 0)]
  else FA.roots_as_points numpyPolyRoots n.

Definition single_zero (d : list number) : Prop := exists q, d = [Fin q] /\ q == 0.

Lemma not_single_zero d : d <> [] -> ~ single_zero d -> FA.isZeroArray d = false.
Proof.
  intros Hne Hs. destruct (FA.isZeroArray d) eqn:E; [|done].
  apply isZeroArray_spec in E as [->|H]; [done|by destruct Hs].
Qed.

Lemma zeros_and_poles_unfold num den :
  FA.parseCoeffs den <> [] ->
  FA.zeros_and_poles numpyPolyRoots num den
  = (zeros ← zeros_of (FA.parseCoeffs num);
     if FA.isZeroArray (FA.parseCoeffs den) then Throw FA.zero_denominator_message
     else
       poles ← FA.roots_as_points numpyPolyRoots (FA.parseCoeffs den);
       mret (zeros, poles)).
Proof.
  intros Hne. unfold FA.zeros_and_poles.
  destruct (FA.parseCoeffs den) as [|d0 dr]; [done|]. reflexivity.
Qed.

(** X22.  Which denominators the frequency analysis refuses, and
    when.  A text that is not blank and has no number in it is refused
    as invalid, whatever the numerator is; a blank text stands for
    [1].  For any other denominator the zeros come first: if the root
    finder throws on the numerator, that error is the outcome, whatever
    the denominator is.  Once the zeros are there, the denominator with
    the single coefficient 0 is refused as a zero polynomial, and every
    other one, a single coefficient that is not 0 or two or more
    coefficients even when all of them are zero, goes to the root
    finder, whose outcome decides.  A numerator without a number in it,
    or with the single coefficient 0, is given one zero at the origin
    and the root finder is not asked. *)
Theorem denominator_checks (num den : jsstring) :
  let out := FA.zeros_and_poles numpyPolyRoots num den in
  let n := FA.parseCoeffs num in
  let d := FA.parseCoeffs den in
  (d = [] -> out = Throw FA.invalid_denominator_message)
  /\ (trim den = [] -> d = [Fin 1])
  /\ (n = [] \/ single_zero n -> zeros_of n = Normal [Complex (Fin 0) (Fin 0)])
  /\ (forall m, d <> [] -> zeros_of n = Throw m -> out = Throw m)
  /\ (forall zeros, d <> [] -> zeros_of n = Normal zeros ->
        (single_zero d -> out = Throw FA.zero_denominator_message)
        /\ (~ single_zero d ->
            out = match numpyPolyRoots d with
                  | Normal ps => Normal (zeros, points ps)
                  | Throw m => Throw m
                  end)).
Proof.
  cbv zeta. split; [intros E; unfold FA.zeros_and_poles; by rewrite E|].
  split; [apply parseCoeffs_blank|]. split.
  { intros H. unfold zeros_of.
    assert (FA.isZeroArray (FA.parseCoeffs num) = true) as ->; [|done].
    apply isZeroArray_spec. destruct H; [by left|by right]. }
  split.
  - intros m Hne Hz. rewrite zeros_and_poles_unfold, Hz by done. reflexivity.
  - intros zeros Hne Hz. rewrite zeros_and_poles_unfold, Hz by done.
    cbn [mbind completion_bind].
    split.
    + intros Hs.
      assert (FA.isZeroArray (FA.parseCoeffs den) = true) as ->; [|done].
      apply isZeroArray_spec. by right.
    + intros Hs. rewrite (not_single_zero (FA.parseCoeffs den)) by done.
      unfold FA.roots_as_points.
      by destruct (numpyPolyRoots (FA.parseCoeffs den)).
Qed.

End Roots.

Definition no_roots (_ : list number) : completion (list (number * number)) :=
  Normal [].

(** The root finder where its package cannot be loaded. *)
Definition missing_package (_ : list number) : completion (list (number * number)) :=
  Throw "require is not defined".

Lemma denominator_checks_witness :
  FA.zeros_and_poles no_roots (str "a") (str "x, y") = Throw FA.invalid_denominator_message
  /\ FA.zeros_and_poles no_roots (str "1") (str "0") = Throw FA.zero_denominator_message
  /\ FA.zeros_and_poles no_roots (str "a") (str "0, 0")
     = Normal ([Complex (Fin 0) (Fin 0)], [])
  /\ FA.zeros_and_poles missing_package (str "1") (str "0")
     = Throw "require is not defined".
Proof.
  split_and!.
  - destruct (denominator_checks no_roots (str "a") (str "x, y")) as (H & _).
    apply H. reflexivity.
  - destruct (denominator_checks no_roots (str "1") (str "0")) as (_ & _ & _ & _ & H).
    destruct (H [] ltac:(discriminate) eq_refl) as [Hz _].
    apply Hz. exists 0. split; reflexivity.
  - destruct (denominator_checks no_roots (str "a") (str "0, 0"))
      as (_ & _ & _ & _ & H).
    destruct (H [Complex (Fin 0) (Fin 0)] ltac:(discriminate) eq_refl) as [_ Hn].
    rewrite Hn; [reflexivity|].
    intros (q & E & _). discriminate E.
  - destruct (denominator_checks missing_package (str "1") (str "0"))
      as (_ & _ & _ & H & _).
    apply H; [discriminate|reflexivity].
Defined.

End CoefficientFacts.
